(** * A verification development for the ReAct coding agent

    The development embeds the TypeScript sources of the agent
    (agent/agent.ts, agent/reactParser.ts, agent/reactPrompt.ts,
    tools/pathUtils.ts, tools/filesystem.ts, tools/system.ts, config.ts,
    llm/deepseekClient.ts) as Rocq functions and proves the properties
    the design document states about them, and further properties that
    the code shows.

    Conventions.
    - A JavaScript string is the list of its UTF-16 code units
      ([list N]); [js "..."] turns a literal into that form.
    - A computation that may throw returns [outcome A]: [Ok a] for a
      normal return, [Throw e] for a thrown value or rejected promise.
    - [await] is sequencing: the agent loop is single threaded, so an
      asynchronous call is modelled by state passing over a world.
    - The platform (node:path, node:fs, RegExp, JSON) is POSIX and is
      modelled by its documented behaviour. *)

From Stdlib Require Import ZArith NArith Ascii String List Lia Bool.
From stdpp Require Import base option list gmap.

Set Warnings "-register-all".
Open Scope N_scope.

(** ** JavaScript strings *)

Abbreviation jsstring := (list N) (only parsing).

Definition js (s : string) : jsstring :=
  map N_of_ascii (list_ascii_of_string s).
Arguments js : simpl never.

Definition LF : N := 10.
Definition nl : string := String (ascii_of_nat 10) EmptyString.

(** WhiteSpace and LineTerminator code units: what [String.prototype.trim]
    strips and what the regular expression class [\s] contains. *)
Definition is_ws (c : N) : bool :=
  ((9 <=? c) && (c <=? 13)) || (c =? 32) || (c =? 160) || (c =? 5760)
  || ((8192 <=? c) && (c <=? 8202)) || (c =? 8232) || (c =? 8233)
  || (c =? 8239) || (c =? 8287) || (c =? 12288) || (c =? 65279).

Fixpoint trimStart (s : jsstring) : jsstring :=
  match s with
  | c :: s' => if is_ws c then trimStart s' else s
  | [] => []
  end.

Definition trimEnd (s : jsstring) : jsstring := rev (trimStart (rev s)).

Definition trim (s : jsstring) : jsstring := trimEnd (trimStart s).

(** [s.startsWith(p)] *)
Fixpoint startsWith (p s : jsstring) : bool :=
  match p, s with
  | [], _ => true
  | a :: p', b :: s' => (a =? b) && startsWith p' s'
  | _ :: _, [] => false
  end.

(** [s.includes(p)] *)
Fixpoint includes (p s : jsstring) : bool :=
  startsWith p s ||
  match s with
  | [] => false
  | _ :: s' => includes p s'
  end.

(** Template-literal rendering of a natural number: its decimal digits. *)
Fixpoint digits_fuel (fuel : nat) (n : N) (acc : jsstring) : jsstring :=
  match fuel with
  | O => acc
  | S f =>
      let acc' := (48 + n mod 10) :: acc in
      if n <? 10 then acc' else digits_fuel f (n / 10) acc'
  end.

Definition decimal (n : N) : jsstring := digits_fuel (S (N.to_nat (N.log2 n))) n [].

(** [arr.join(sep)] *)
Fixpoint join (sep : jsstring) (parts : list jsstring) : jsstring :=
  match parts with
  | [] => []
  | [p] => p
  | p :: rest => p ++ sep ++ join sep rest
  end.

(** ** Outcomes of computations that may throw *)

(** What a [catch (error)] clause can receive, told apart by what
    [`${(error as Error).message}`] does with it: it is the message for
    an error object; it is [undefined] for a value that has no message
    (a string, a number); reading the message from [null] or [undefined]
    raises a [TypeError]; and for a value whose message is hostile (an
    accessor that throws, a [Symbol], an object that refuses conversion
    to a string) reading or converting it throws in turn. *)
Inductive thrown :=
| Error (message : jsstring)   (* an error object carrying [message] *)
| ThrownOther                  (* a value without a message, not nullish *)
| ThrownNull
| ThrownUndefined
| ThrownUnreadable (raised : thrown).
                               (* rendering its message throws [raised] *)

Inductive outcome (A : Type) :=
| Ok (a : A)
| Throw (e : thrown).
Arguments Ok {A} a.
Arguments Throw {A} e.

#[global] Instance outcome_ret : MRet outcome := @Ok.
#[global] Instance outcome_bind : MBind outcome := fun A B f x =>
  match x with
  | Ok a => f a
  | Throw e => Throw e
  end.

(** [(error as Error).message] inside a template literal. *)
Definition message_of (error : thrown) : outcome jsstring :=
  match error with
  | Error message => Ok message
  | ThrownOther => Ok (js "undefined")
  | ThrownNull =>
      Throw (Error (js "Cannot read properties of null (reading 'message')"))
  | ThrownUndefined =>
      Throw (Error (js "Cannot read properties of undefined (reading 'message')"))
  | ThrownUnreadable raised => Throw raised
  end.

(** ** Regular expressions (the fragment the parser uses)

    A backtracking matcher in continuation-passing style, following the
    ECMAScript pattern semantics: alternatives and quantifier lengths
    are tried in priority order and the first complete match wins.
    Every quantifier of the source patterns ranges over a character
    class, so a quantifier is a class with a greedy/lazy mark. *)
Module Regex.

(** [Canonicalize] under the [i] flag without [u].  The patterns of
    this program contain ASCII literals only; Canonicalize agrees with
    ASCII upper-casing below 128 and never maps a code unit from 128
    up to one below 128, so comparing against an ASCII literal is
    comparing ASCII upper-casings. *)
Definition canonicalize (c : N) : N :=
  if (97 <=? c) && (c <=? 122) then c - 32 else c.

Inductive regex :=
| Chr (a : N)                          (* a literal character *)
| Cls (p : N -> bool)                  (* a character class *)
| Star (greedy : bool) (p : N -> bool) (* p* and p*? *)
| Plus (p : N -> bool)                 (* p+ *)
| Seq (r1 r2 : regex)
| Alt (r1 r2 : regex)
| Eoi                                  (* $ without the m flag *)
| Group (i : nat) (r : regex).         (* capturing group number i *)

Abbreviation captures := (list (option (list N))) (only parsing).
Abbreviation cont := (list N -> list (option (list N)) -> option (list (option (list N))))
  (only parsing).

Fixpoint star_greedy (p : N -> bool) (s : jsstring) (c : captures) (k : cont)
  : option captures :=
  match s with
  | x :: s' =>
      if p x then
        match star_greedy p s' c k with
        | Some r => Some r
        | None => k s c
        end
      else k s c
  | [] => k s c
  end.

Fixpoint star_lazy (p : N -> bool) (s : jsstring) (c : captures) (k : cont)
  : option captures :=
  match k s c with
  | Some r => Some r
  | None =>
      match s with
      | x :: s' => if p x then star_lazy p s' c k else None
      | [] => None
      end
  end.

Fixpoint run (r : regex) (s : jsstring) (c : captures) (k : cont)
  : option captures :=
  match r with
  | Chr a =>
      match s with
      | x :: s' => if canonicalize a =? canonicalize x then k s' c else None
      | [] => None
      end
  | Cls p =>
      match s with
      | x :: s' => if p x then k s' c else None
      | [] => None
      end
  | Star true p => star_greedy p s c k
  | Star false p => star_lazy p s c k
  | Plus p =>
      match s with
      | x :: s' => if p x then star_greedy p s' c k else None
      | [] => None
      end
  | Seq r1 r2 => run r1 s c (fun s' c' => run r2 s' c' k)
  | Alt r1 r2 =>
      match run r1 s c k with
      | Some res => Some res
      | None => run r2 s c k
      end
  | Eoi =>
      match s with
      | [] => k s c
      | _ :: _ => None
      end
  | Group i r =>
      run r s c
        (fun s' c' => k s' (<[i := Some (take (length s - length s') s)]> c'))
  end.

(** [str.match(re)] for a pattern without the [g] flag: the leftmost
    position at which the pattern matches; the result is the captures. *)
Fixpoint exec (ngroups : nat) (r : regex) (s : jsstring) : option captures :=
  match run r s (replicate ngroups None) (fun _ c => Some c) with
  | Some c => Some c
  | None =>
      match s with
      | [] => None
      | _ :: s' => exec ngroups r s'
      end
  end.

(** The literal [w] as a sequence of characters. *)
Fixpoint word (w : jsstring) (rest : regex) : regex :=
  match w with
  | [] => rest
  | a :: w' => Seq (Chr a) (word w' rest)
  end.

Definition any (_ : N) : bool := true.
Definition not_char (a : N) (x : N) : bool := negb (canonicalize a =? canonicalize x).
(** [[A-Z]] under the [i] flag *)
Definition upper_ci (x : N) : bool :=
  (65 <=? canonicalize x) && (canonicalize x <=? 90).

Definition group (c : captures) (i : nat) : jsstring :=
  default [] (mjoin (c !! i)).

End Regex.

(** ** agent/reactParser.ts *)

Inductive ReactResponse :=
| action (thought toolName toolInput : jsstring)
| final (thought finalResponse : jsstring).

Module ReactParser.
Import Regex.

(** [/Thought:\s*([\s\S]*?)(?:\n[A-Z][^:]+:|$)/i] *)
Definition thought_re : regex :=
  word (js "Thought:")
    (Seq (Star true is_ws)
      (Seq (Group 0 (Star false any))
        (Alt (Seq (Chr LF) (Seq (Cls upper_ci) (Seq (Plus (not_char 58)) (Chr 58))))
             Eoi))).

(** [/Final Response:\s*([\s\S]+)/i] *)
Definition final_re : regex :=
  word (js "Final Response:") (Seq (Star true is_ws) (Group 0 (Plus any))).

(** [/Action:\s*([^\n]+)\nAction Input:\s*([\s\S]+)/i] *)
Definition action_re : regex :=
  word (js "Action:")
    (Seq (Star true is_ws)
      (Seq (Group 0 (Plus (not_char LF)))
        (Seq (Chr LF)
          (word (js "Action Input:")
            (Seq (Star true is_ws) (Group 1 (Plus any))))))).

Definition extractThought (output : jsstring) : jsstring :=
  match exec 1 thought_re output with
  | Some thoughtMatch => trim (group thoughtMatch 0)
  | None => []
  end.

Definition UnparsableResponse : thrown :=
  Error (js "Unable to parse LLM response into ReAct action.").

Definition parseReactOutput (output : jsstring) : outcome ReactResponse :=
  let trimmed := trim output in
  let thought := extractThought trimmed in
  match exec 1 final_re trimmed with
  | Some finalMatch => Ok (final thought (trim (group finalMatch 0)))
  | None =>
      match exec 2 action_re trimmed with
      | Some actionMatch =>
          Ok (action thought (trim (group actionMatch 0)) (trim (group actionMatch 1)))
      | None => Throw UnparsableResponse
      end
  end.

End ReactParser.


(** ** node:path (POSIX flavour) *)
Module Path.

Definition SLASH : N := 47.
Definition sep : jsstring := [SLASH].
Definition dot : jsstring := js ".".
Definition dotdot : jsstring := js "..".

(** The segments between separators, empty ones included. *)
Fixpoint split (s : jsstring) : list jsstring :=
  match s with
  | [] => [[]]
  | x :: s' =>
      if x =? SLASH then [] :: split s'
      else match split s' with
           | seg :: rest => (x :: seg) :: rest
           | [] => [[x]]
           end
  end.

(** [normalizeString]: empty and [.] segments vanish, [..] removes the
    segment before it; above the start it is dropped, or kept when
    [allowAboveRoot].  [acc] is the result so far, last segment first. *)
Fixpoint normalizeSegments (allowAboveRoot : bool) (segs acc : list jsstring)
  : list jsstring :=
  match segs with
  | [] => rev acc
  | seg :: rest =>
      if bool_decide (seg = []) || bool_decide (seg = dot) then
        normalizeSegments allowAboveRoot rest acc
      else if bool_decide (seg = dotdot) then
        match acc with
        | top :: acc' =>
            if allowAboveRoot && bool_decide (top = dotdot)
            then normalizeSegments allowAboveRoot rest (dotdot :: acc)
            else normalizeSegments allowAboveRoot rest acc'
        | [] =>
            if allowAboveRoot
            then normalizeSegments allowAboveRoot rest [dotdot]
            else normalizeSegments allowAboveRoot rest []
        end
      else normalizeSegments allowAboveRoot rest (seg :: acc)
  end.

Definition normalizeString (path : jsstring) (allowAboveRoot : bool) : jsstring :=
  join sep (normalizeSegments allowAboveRoot (split path) []).

Definition isAbsolute (path : jsstring) : bool :=
  match path with
  | c :: _ => c =? SLASH
  | [] => false
  end.

(** The right-to-left scan of [path.resolve]: [args] is given last
    argument first and ends with the process working directory. *)
Fixpoint resolve_scan (args : list jsstring) (resolvedPath : jsstring)
  : jsstring * bool :=
  match args with
  | [] => (resolvedPath, false)
  | p :: rest =>
      if bool_decide (p = []) then resolve_scan rest resolvedPath
      else
        let resolvedPath' := p ++ sep ++ resolvedPath in
        if isAbsolute p then (resolvedPath', true)
        else resolve_scan rest resolvedPath'
  end.

(** [path.resolve(...args)] in a process whose working directory is
    [pcwd]. *)
Definition resolve (pcwd : jsstring) (args : list jsstring) : jsstring :=
  let '(resolvedPath, resolvedAbsolute) := resolve_scan (rev args ++ [pcwd]) [] in
  let normalized := normalizeString resolvedPath (negb resolvedAbsolute) in
  if resolvedAbsolute then sep ++ normalized
  else if bool_decide (normalized = []) then dot else normalized.

Fixpoint strip_common (a b : list jsstring) : list jsstring * list jsstring :=
  match a, b with
  | x :: a', y :: b' => if bool_decide (x = y) then strip_common a' b' else (a, b)
  | _, _ => (a, b)
  end.

(** The non-empty segments of a normalized path. *)
Definition components (path : jsstring) : list jsstring :=
  filter (fun seg => seg <> []) (split path).

(** [path.relative(from, to)] *)
Definition relative (pcwd from to : jsstring) : jsstring :=
  if bool_decide (from = to) then []
  else
    let from' := resolve pcwd [from] in
    let to' := resolve pcwd [to] in
    if bool_decide (from' = to') then []
    else
      let '(up, down) := strip_common (components from') (components to') in
      join sep (replicate (length up) dotdot ++ down).

Fixpoint dirname_scan (r : jsstring) (matchedSlash : bool) : option jsstring :=
  match r with
  | [] => None
  | c :: r' =>
      if c =? SLASH then
        if matchedSlash then dirname_scan r' true else Some r'
      else dirname_scan r' false
  end.

(** [path.dirname(path)] *)
Definition dirname (path : jsstring) : jsstring :=
  match path with
  | [] => dot
  | c0 :: tl =>
      let hasRoot := c0 =? SLASH in
      match dirname_scan (rev tl) true with
      | None => if hasRoot then sep else dot
      | Some before =>
          if hasRoot && bool_decide (before = []) then sep ++ sep
          else c0 :: rev before
      end
  end.

(** [path.normalize(path)] *)
Definition normalize (path : jsstring) : jsstring :=
  match path with
  | [] => dot
  | _ :: _ =>
      let absolute := isAbsolute path in
      let trailingSeparator := bool_decide (last path = Some SLASH) in
      let p := normalizeString path (negb absolute) in
      if bool_decide (p = []) then
        if absolute then sep else if trailingSeparator then js "./" else dot
      else
        let p' := if trailingSeparator then p ++ sep else p in
        if absolute then sep ++ p' else p'
  end.

(** [path.join(a, b)] *)
Definition join2 (a b : jsstring) : jsstring :=
  let joined := join sep (filter (fun p => p <> []) [a; b]) in
  if bool_decide (joined = []) then dot else normalize joined.

End Path.

(** ** agent/types.ts *)

Module Role.
Inductive t := system | user | assistant | tool.
End Role.

Record ChatMessage := {
  role : Role.t;
  content : jsstring;
  name : option jsstring
}.

(** The abort signal of the context is not represented: cancellation
    shows up as the pending model call or tool call rejecting. *)
Record ToolExecutionContext := {
  cwd : jsstring;
  env : option (gmap (list N) (list N))
}.

(** A tool acting on a world of type [W]; [execute] returns the value
    its promise settles to and the world it leaves behind. *)
Record Tool (W : Type) := {
  tool_name : jsstring;
  description : jsstring;
  inputGuide : option jsstring;
  execute : jsstring -> ToolExecutionContext -> W -> outcome jsstring * W
}.
Arguments tool_name {W} _.
Arguments description {W} _.
Arguments inputGuide {W} _.
Arguments execute {W} _ _ _ _.

Record AgentConfig (W : Type) := {
  config_instructions : jsstring;
  config_tools : list (Tool W);
  config_maxTurns : option Z
}.
Arguments config_instructions {W} _.
Arguments config_tools {W} _.
Arguments config_maxTurns {W} _.

Record ToolInvocation := {
  toolName : jsstring;
  input : jsstring
}.

Record AgentThought := {
  thought : jsstring;
  action_of : option ToolInvocation;
  observation : option jsstring;
  rawOutput : option jsstring
}.

Record AgentResult := {
  output : jsstring;
  thoughts : list AgentThought
}.

(** ** tools/pathUtils.ts *)
Section PathUtils.
(** [process.cwd()] of the hosting process. *)
Variable process_cwd : jsstring.

Definition AccessViolation : thrown :=
  Error (js "Access outside of repository root is not allowed.").

Definition resolveRepoPath (inputPath : jsstring) (ctx : ToolExecutionContext)
  : outcome jsstring :=
  let root := Path.resolve process_cwd [cwd ctx] in
  let normalized :=
    if bool_decide (length (trim inputPath) <> O) then trim inputPath else js "." in
  let prefixed :=
    if startsWith (js ".") normalized then normalized else js "./" ++ normalized in
  let target := Path.resolve process_cwd [root; prefixed] in
  if negb (bool_decide (target = root)) && negb (startsWith (root ++ Path.sep) target)
  then Throw AccessViolation
  else Ok target.

Definition pathFromRepoRoot (absolutePath : jsstring) (ctx : ToolExecutionContext)
  : jsstring :=
  let root := Path.resolve process_cwd [cwd ctx] in
  let rel := Path.relative process_cwd root absolutePath in
  if bool_decide (rel = []) then js "." else rel.

End PathUtils.

(** ** The file system

    A store from absolute, normalized path strings (what [path.resolve]
    and [path.join] produce, and all the tools ever pass) to entries.
    Only regular files and directories are represented (no symbolic
    links, devices or permissions), so every [Dirent] is a file or a
    directory, and the failures that remain are those of a missing
    entry or an entry of the wrong kind.  The store is flat: a path
    that runs through a regular file is absent from it, and is reported
    as missing ([ENOENT]) or as occupied ([EEXIST], by [mkdir]) where an
    operating system reports [ENOTDIR].  Text travels through the UTF-8
    codec on its way to and from a file. *)
Module Fs.

Inductive entry :=
| File (text : jsstring)
| Dir.

Abbreviation fs := (gmap (list N) entry) (only parsing).

Record Stats := { isDirectory : bool; isFile : bool; size : N }.

Definition is_high (c : N) : bool := (55296 <=? c) && (c <=? 56319).
Definition is_low (c : N) : bool := (56320 <=? c) && (c <=? 57343).

(** Decoding the UTF-8 encoding of a string: an unpaired surrogate
    comes back as U+FFFD. *)
Fixpoint toWellFormed (s : jsstring) : jsstring :=
  match s with
  | [] => []
  | c :: s' =>
      if is_high c then
        match s' with
        | d :: s'' =>
            if is_low d then c :: d :: toWellFormed s''
            else 65533 :: toWellFormed s'
        | [] => [65533]
        end
      else if is_low c then 65533 :: toWellFormed s'
      else c :: toWellFormed s'
  end.

(** [Buffer.byteLength(s, 'utf8')] *)
Fixpoint byteLength (s : jsstring) : N :=
  match s with
  | [] => 0
  | c :: s' =>
      if c <? 128 then 1 + byteLength s'
      else if c <? 2048 then 2 + byteLength s'
      else if is_high c then
        match s' with
        | d :: s'' => if is_low d then 4 + byteLength s'' else 3 + byteLength s'
        | [] => 3
        end
      else 3 + byteLength s'
  end.

Definition ENOENT (syscall path : jsstring) : thrown :=
  Error (js "ENOENT: no such file or directory, " ++ syscall ++ js " '" ++ path ++ js "'").
Definition ENOTDIR (syscall path : jsstring) : thrown :=
  Error (js "ENOTDIR: not a directory, " ++ syscall ++ js " '" ++ path ++ js "'").
Definition EISDIR (syscall path : jsstring) : thrown :=
  Error (js "EISDIR: illegal operation on a directory, " ++ syscall ++ js " '" ++ path ++ js "'").
Definition EEXIST (syscall path : jsstring) : thrown :=
  Error (js "EEXIST: file already exists, " ++ syscall ++ js " '" ++ path ++ js "'").

(** [fs.stat(path)] *)
Definition stat (m : fs) (path : jsstring) : outcome Stats :=
  match m !! path with
  | None => Throw (ENOENT (js "stat") path)
  | Some (File text) =>
      Ok {| isDirectory := false; isFile := true; size := byteLength text |}
  | Some Dir => Ok {| isDirectory := true; isFile := false; size := 4096 |}
  end.

(** [fs.readFile(path, 'utf8')] *)
Definition readFile (m : fs) (path : jsstring) : outcome jsstring :=
  match m !! path with
  | None => Throw (ENOENT (js "open") path)
  | Some (File text) => Ok text
  | Some Dir => Throw (EISDIR (js "read") path)
  end.

(** The name of [key] as a direct child of directory [dir]. *)
Definition child_name (dir key : jsstring) : option jsstring :=
  let pre := if bool_decide (dir = Path.sep) then dir else dir ++ Path.sep in
  let name := drop (length pre) key in
  if startsWith pre key && negb (bool_decide (name = []))
     && negb (bool_decide (Path.SLASH ∈ name))
  then Some name else None.

(** [fs.readdir(path)] and [fs.readdir(path, {withFileTypes: true})],
    an entry standing for its [Dirent]. *)
Definition readdir (m : fs) (path : jsstring) : outcome (list (jsstring * entry)) :=
  match m !! path with
  | None => Throw (ENOENT (js "scandir") path)
  | Some Dir =>
      Ok (omap (fun ke => (fun n => (n, snd ke)) <$> child_name path (fst ke))
               (map_to_list m))
  | Some (File _) => Throw (ENOTDIR (js "scandir") path)
  end.

(** The directories [mkdir -p path] needs: the root, [path] cut before
    each of its separators, and [path]; [before] is what was read so
    far, last character first. *)
Fixpoint ancestors (before rest : jsstring) : list jsstring :=
  match rest with
  | [] => [rev before]
  | c :: rest' =>
      if (c =? Path.SLASH) && negb (bool_decide (before = []))
      then rev before :: ancestors (c :: before) rest'
      else ancestors (c :: before) rest'
  end.

Definition is_dir_or_free (m : fs) (p : jsstring) : bool :=
  match m !! p with
  | None | Some Dir => true
  | Some (File _) => false
  end.

(** [fs.mkdir(path, {recursive: true})] *)
Definition mkdir_recursive (m : fs) (path : jsstring) : outcome unit * fs :=
  let dirs := Path.sep :: ancestors [] path in
  if forallb (is_dir_or_free m) dirs
  then (Ok tt, foldr (fun d acc => <[d := Dir]> acc) m dirs)
  else (Throw (EEXIST (js "mkdir") path), m).

(** [fs.writeFile(path, data, 'utf8')] *)
Definition writeFile (m : fs) (path data : jsstring) : outcome unit * fs :=
  match m !! path with
  | Some Dir => (Throw (EISDIR (js "open") path), m)
  | _ =>
      match m !! Path.dirname path with
      | Some Dir => (Ok tt, <[path := File (toWellFormed data)]> m)
      | Some (File _) => (Throw (ENOTDIR (js "open") path), m)
      | None => (Throw (ENOENT (js "open") path), m)
      end
  end.

End Fs.

(** ** JSON values, as [JSON.parse] returns them *)
Module Json.

Inductive value :=
| JNull
| JBool (b : bool)
| JNumber (n : Z)
| JString (s : jsstring)
| JArray (items : list value)
| JObject (fields : list (jsstring * value)).

(** [!v] *)
Definition falsy (v : value) : bool :=
  match v with
  | JNull | JBool false | JNumber 0%Z | JString [] => true
  | _ => false
  end.

Fixpoint lookup_field (key : jsstring) (fields : list (jsstring * value))
  : option value :=
  match fields with
  | [] => None
  | (k, v) :: rest => if bool_decide (k = key) then Some v else lookup_field key rest
  end.

(** [v.key] for a value that is not [null]; [None] is [undefined]. *)
Definition get (v : value) (key : jsstring) : option value :=
  match v with
  | JObject fields => lookup_field key fields
  | _ => None
  end.

(** [!p] for a property that may be absent *)
Definition falsy_prop (p : option value) : bool :=
  match p with
  | None => true
  | Some v => falsy v
  end.

(** [typeof p === 'string'] *)
Definition is_string (p : option value) : bool :=
  match p with
  | Some (JString _) => true
  | _ => false
  end.

End Json.

Definition dq : jsstring := [34].

Definition TRUNCATED : jsstring := js (nl ++ "...truncated...").

(** ** tools/filesystem.ts *)
Section Filesystem.
Variable process_cwd : jsstring.
(** [JSON.parse]; [None] stands for its [SyntaxError]. *)
Variable JSON_parse : jsstring -> option Json.value.

Definition formatDirEntry (m : Fs.fs) (target entry : jsstring) : outcome jsstring :=
  match Fs.stat m (Path.join2 target entry) with
  | Ok st => Ok (if Fs.isDirectory st then entry ++ js "/" else entry)
  | Throw error =>
      message ← message_of error;
      Ok (entry ++ js " (error: " ++ message ++ js ")")
  end.

(** [Promise.all(promises)]: the values, or the first rejection. *)
Fixpoint all_settled (promises : list (outcome jsstring)) : outcome (list jsstring) :=
  match promises with
  | [] => Ok []
  | p :: rest =>
      v ← p;
      vs ← all_settled rest;
      Ok (v :: vs)
  end.

Definition createListFilesTool : Tool Fs.fs := {|
  tool_name := js "list_files";
  description := js "List files and directories relative to the repository root.";
  inputGuide := Some (js "relative directory path, defaults to .");
  execute input ctx m :=
    let relative := if bool_decide (trim input = []) then js "." else trim input in
    match resolveRepoPath process_cwd relative ctx with
    | Throw e => (Throw e, m)
    | Ok target =>
        match Fs.readdir m target with
        | Throw e => (Throw e, m)
        | Ok entries =>
            (formatted ← all_settled (map (fun e => formatDirEntry m target (fst e)) entries);
             Ok (join (js nl) formatted), m)
        end
    end
|}.

Definition createReadFileTool : Tool Fs.fs := {|
  tool_name := js "read_file";
  description := js "Read the contents of a UTF-8 text file within the repo.";
  inputGuide := Some (js "relative file path, e.g. src/index.tsx");
  execute input ctx m :=
    let relative := trim input in
    if bool_decide (relative = []) then
      (Throw (Error (js "Please provide a file path relative to the repository root.")), m)
    else
      match resolveRepoPath process_cwd relative ctx with
      | Throw e => (Throw e, m)
      | Ok target =>
          match Fs.stat m target with
          | Throw e => (Throw e, m)
          | Ok st =>
              if Fs.isDirectory st then
                (Throw (Error (js "Cannot read a directory. Provide a file path.")), m)
              else if 200000 <? Fs.size st then
                (Ok (js "File too large to display (200KB limit)."), m)
              else
                match Fs.readFile m target with
                | Throw e => (Throw e, m)
                | Ok contents =>
                    if (4000 <? length contents)%nat
                    then (Ok (take 4000 contents ++ TRUNCATED), m)
                    else (Ok contents, m)
                end
          end
      end
|}.

Record WriteFilePayload := {
  payload_path : jsstring;
  payload_contents : jsstring
}.

Definition parseWritePayload (input : jsstring) : outcome WriteFilePayload :=
  match JSON_parse input with
  | None =>
      Throw (Error (js "Invalid JSON. Provide {" ++ dq ++ js "path" ++ dq ++ js ": "
                      ++ dq ++ js "..." ++ dq ++ js ", " ++ dq ++ js "contents" ++ dq
                      ++ js ": " ++ dq ++ js "..." ++ dq ++ js "}."))
  | Some payload =>
      if Json.falsy payload then
        Throw (Error (js "Missing " ++ dq ++ js "path" ++ dq ++ js " string field."))
      else
        match Json.get payload (js "path") with
        | Some (Json.JString p) =>
            match Json.get payload (js "contents") with
            | Some (Json.JString c) =>
                Ok {| payload_path := p; payload_contents := c |}
            | _ =>
                Throw (Error (js "Missing " ++ dq ++ js "contents" ++ dq
                                ++ js " string field."))
            end
        | _ =>
            Throw (Error (js "Missing " ++ dq ++ js "path" ++ dq ++ js " string field."))
        end
  end.

Definition createWriteFileTool : Tool Fs.fs := {|
  tool_name := js "write_file";
  description :=
    js "Write (create or overwrite) a UTF-8 text file relative to the repository root.";
  inputGuide :=
    Some (js "JSON: {" ++ dq ++ js "path" ++ dq ++ js ": " ++ dq ++ js "src/example.ts"
            ++ dq ++ js ", " ++ dq ++ js "contents" ++ dq ++ js ": " ++ dq ++ js "..."
            ++ dq ++ js "}");
  execute input ctx m :=
    match parseWritePayload input with
    | Throw e => (Throw e, m)
    | Ok payload =>
        match resolveRepoPath process_cwd (payload_path payload) ctx with
        | Throw e => (Throw e, m)
        | Ok target =>
            let directory := Path.dirname target in
            match Fs.mkdir_recursive m directory with
            | (Throw e, m1) => (Throw e, m1)
            | (Ok _, m1) =>
                match Fs.writeFile m1 target (payload_contents payload) with
                | (Throw e, m2) => (Throw e, m2)
                | (Ok _, m2) =>
                    (Ok (js "Wrote "
                           ++ decimal (N.of_nat (length (payload_contents payload)))
                           ++ js " characters to "
                           ++ pathFromRepoRoot process_cwd target ctx), m2)
                end
            end
        end
    end
|}.

End Filesystem.

(** ** agent/reactPrompt.ts *)
Module ReactPrompt.

Definition FORMAT_GUIDE : jsstring :=
  js ("Use the ReAct pattern to solve the task." ++ nl
      ++ "Respond using the following blocks:" ++ nl
      ++ "Thought: describe what you are considering." ++ nl
      ++ "Action: the name of a tool, exactly matching one of the provided tools." ++ nl
      ++ "Action Input: plain text arguments for the tool." ++ nl
      ++ nl
      ++ "If you have finished, reply with:" ++ nl
      ++ "Thought: describe how you solved it." ++ nl
      ++ "Final Response: the final answer for the user.").

Definition SAFETY_RULES : jsstring :=
  js ("- Think before acting; never guess commands." ++ nl
      ++ "- Prefer reading files before writing to them." ++ nl
      ++ "- Execute at most one tool per response." ++ nl
      ++ "- Keep Action Input short and actionable." ++ nl
      ++ "- Never fabricate tool names or capabilities.").

Definition describe {W} (t : Tool W) : jsstring :=
  let guide :=
    match inputGuide t with
    | Some g => if bool_decide (g = []) then [] else js (nl ++ "Input: ") ++ g
    | None => []
    end in
  js "- " ++ tool_name t ++ js ": " ++ description t ++ guide.

Definition buildReactMessages {W} (instructions : jsstring) (tools : list (Tool W))
    (task : jsstring) (scratchpad : option jsstring)
    (contextMessages : list ChatMessage) : list ChatMessage :=
  let toolDescriptions := join (js nl) (map describe tools) in
  let systemPrompt :=
    js ("You are an autonomous coding agent." ++ nl) ++ trim instructions
    ++ js (nl ++ nl ++ "Available tools:" ++ nl) ++ toolDescriptions
    ++ js (nl ++ nl) ++ FORMAT_GUIDE ++ js (nl ++ nl) ++ SAFETY_RULES in
  let scratchpadBlock :=
    match scratchpad with
    | Some sp =>
        if bool_decide (length (trim sp) <> O)
        then js (nl ++ nl ++ "Scratchpad:" ++ nl) ++ sp
        else []
    | None => []
    end in
  [ {| role := Role.system; content := systemPrompt; name := None |} ]
  ++ contextMessages
  ++ [ {| role := Role.user; content := trim task ++ scratchpadBlock; name := None |} ].

End ReactPrompt.

(** ** agent/agent.ts *)
Module Agent.
Section ReactAgent.
(** The world the model client and the tools act on. *)
Context {W : Type}.

Record LanguageModel := {
  complete : list ChatMessage -> W -> outcome jsstring * W
}.

Record ReactAgent := {
  llm : LanguageModel;
  tools : list (Tool W);
  toolMap : gmap (list N) (Tool W);
  instructions : jsstring;
  maxTurns : Z
}.

(** The constructor.  [maxTurns] is taken to be an integer. *)
Definition new_ReactAgent (llm : LanguageModel) (config : AgentConfig W) : ReactAgent := {|
  llm := llm;
  tools := config_tools config;
  toolMap := foldl (fun m t => <[tool_name t := t]> m) ∅ (config_tools config);
  instructions := config_instructions config;
  maxTurns := default 8%Z (config_maxTurns config)
|}.

Record AgentRunOptions := {
  options_cwd : option jsstring;
  options_env : option (gmap (list N) (list N))
}.

(** What happened during a run, in order: a record kept for the
    statements about which calls a run makes; the program does not
    read it. *)
Inductive event :=
| ModelCall (messages : list ChatMessage) (reply : outcome jsstring)
| ToolCall (name input : jsstring) (settled : outcome jsstring).

(** The variables of [run] that live across turns. *)
Record state := {
  st_thoughts : list AgentThought;
  st_scratchpad : jsstring;
  st_world : W;
  st_log : list event
}.

(** How one pass through the loop body ends. *)
Inductive step :=
| Continue (st : state)
| Return (result : AgentResult) (w : W) (log : list event)
| Raise (e : thrown) (w : W) (log : list event).

Definition UnknownTool (toolName : jsstring) : thrown :=
  Error (js "LLM referenced unknown tool: " ++ toolName).

Definition turnScratch (parsed_thought parsed_toolName parsed_toolInput observation : jsstring)
  : jsstring :=
  join (js nl)
    [ js "Thought: " ++ parsed_thought;
      js "Action: " ++ parsed_toolName;
      js "Action Input: " ++ parsed_toolInput;
      js "Observation: " ++ observation ].

(** The body of the [for] loop of [run]. *)
Definition turn (agent : ReactAgent) (task : jsstring) (ctx : ToolExecutionContext)
    (st : state) : step :=
  let messages :=
    ReactPrompt.buildReactMessages (instructions agent) (tools agent) task
      (Some (st_scratchpad st)) [] in
  let '(reply, w1) := complete (llm agent) messages (st_world st) in
  let log1 := st_log st ++ [ModelCall messages reply] in
  match reply with
  | Throw e => Raise e w1 log1
  | Ok llmOutput =>
      match ReactParser.parseReactOutput llmOutput with
      | Throw e => Raise e w1 log1
      | Ok (final parsed_thought finalResponse) =>
          Return
            {| output := finalResponse;
               thoughts := st_thoughts st ++
                 [ {| thought := parsed_thought; action_of := None;
                      observation := None; rawOutput := Some llmOutput |} ] |}
            w1 log1
      | Ok (action parsed_thought parsed_toolName parsed_toolInput) =>
          match toolMap agent !! parsed_toolName with
          | None => Raise (UnknownTool parsed_toolName) w1 log1
          | Some tool =>
              let '(settled, w2) := execute tool parsed_toolInput ctx w1 in
              let log2 := log1 ++ [ToolCall parsed_toolName parsed_toolInput settled] in
              let caught :=
                match settled with
                | Ok text => Ok text
                | Throw error =>
                    message ← message_of error;
                    Ok (js "Tool execution failed: " ++ message)
                end in
              match caught with
              | Throw e => Raise e w2 log2
              | Ok obs =>
                  let scratch := turnScratch parsed_thought parsed_toolName parsed_toolInput obs in
                  Continue
                    {| st_thoughts := st_thoughts st ++
                         [ {| thought := parsed_thought;
                              action_of := Some {| toolName := parsed_toolName;
                                                   input := parsed_toolInput |};
                              observation := Some obs;
                              rawOutput := Some llmOutput |} ];
                       st_scratchpad :=
                         if bool_decide (length (st_scratchpad st) <> O)
                         then st_scratchpad st ++ js (nl ++ nl) ++ scratch
                         else scratch;
                       st_world := w2;
                       st_log := log2 |}
              end
          end
      end
  end.

Definition EXHAUSTED : jsstring :=
  js "I could not finish within the allotted number of steps.".

(** The [for] loop with [remaining] turns to go, that is with
    [turn = maxTurns - remaining]. *)
Fixpoint loop (agent : ReactAgent) (task : jsstring) (ctx : ToolExecutionContext)
    (remaining : nat) (st : state) : step :=
  match remaining with
  | O =>
      Return {| output := EXHAUSTED; thoughts := st_thoughts st |}
             (st_world st) (st_log st)
  | S remaining' =>
      match turn agent task ctx st with
      | Continue st' => loop agent task ctx remaining' st'
      | finished => finished
      end
  end.

(** [agent.run(task, options)] in a process whose working directory is
    [process_cwd], started in world [w]. *)
Definition run (process_cwd : jsstring) (agent : ReactAgent) (task : jsstring)
    (options : AgentRunOptions) (w : W) : step :=
  let ctx := {| cwd := default process_cwd (options_cwd options);
                env := options_env options |} in
  loop agent task ctx (Z.to_nat (maxTurns agent))
    {| st_thoughts := []; st_scratchpad := []; st_world := w; st_log := [] |}.

End ReactAgent.
Arguments LanguageModel : clear implicits.
Arguments ReactAgent : clear implicits.
Arguments state : clear implicits.
Arguments step : clear implicits.
End Agent.

(** ** tools/system.ts *)
Module System.

Definition MAX_OUTPUT_LENGTH : nat := 4000.
Definition MAX_MATCHES : nat := 100.
Definition MAX_FILE_BYTES : N := 500000.
Definition IGNORED_DIRS : list jsstring :=
  [js ".git"; js "node_modules"; js "dist"; js "build"; js ".next"; js ".turbo"].

Definition truncate (value : jsstring) : jsstring :=
  if (MAX_OUTPUT_LENGTH <? length value)%nat
  then take MAX_OUTPUT_LENGTH value ++ TRUNCATED
  else value.

(** What evaluating a script yields; [VOther] carries the rendering
    [util.inspect] gives the value. *)
Inductive script_value :=
| VUndefined
| VString (s : jsstring)
| VOther (inspected : jsstring).

Definition formatValue (value : script_value) : jsstring :=
  match value with
  | VUndefined => js "undefined"
  | VString s => s
  | VOther inspected => inspected
  end.

(** What a call of a [process.exit] can do: throw, or end the hosting
    process, as the real [process.exit] does. *)
Inductive exit_effect :=
| ExitThrows (e : thrown)
| ExitTerminatesHost (code : Z).

Definition host_process_exit (code : Z) : exit_effect := ExitTerminatesHost code.

(** [`${code}`] for an integer, digit by digit; JavaScript does so for
    the integers below [10^21] in absolute value, and writes the larger
    ones with an exponent. *)
Definition render_Z (z : Z) : jsstring :=
  match z with
  | Zneg p => js "-" ++ decimal (Npos p)
  | _ => decimal (Z.to_N z)
  end.

Record SandboxProcess := {
  sandbox_env : gmap (list N) (list N);
  sandbox_cwd : unit -> outcome jsstring;
  sandbox_exit : option Z -> exit_effect
}.

Record Sandbox := {
  sandbox_process : SandboxProcess
}.

Definition shouldSkipDir (entry : jsstring) : bool :=
  bool_decide (entry ∈ IGNORED_DIRS).

(** [contents.split(/\r?\n/)] *)
Fixpoint split_lines (s : jsstring) : list jsstring :=
  match s with
  | [] => [[]]
  | c :: s' =>
      if c =? 10 then [] :: split_lines s'
      else
        let keep :=
          match split_lines s' with
          | l :: ls => (c :: l) :: ls
          | [] => [[c]]
          end in
        if c =? 13 then
          match s' with
          | d :: s'' => if d =? 10 then [] :: split_lines s'' else keep
          | [] => keep
          end
        else keep
  end.

Fixpoint number_matches (test : jsstring -> bool) (index : N) (lines : list jsstring)
  : list jsstring :=
  match lines with
  | [] => []
  | line :: rest =>
      let tl := number_matches test (index + 1) rest in
      if test line then (decimal (index + 1) ++ js ": " ++ line) :: tl else tl
  end.

Record FileSearchPayload := {
  search_pattern : jsstring;
  search_path : option jsstring;
  search_flags : option jsstring
}.

Section System.
Variable process_cwd : jsstring.
(** [process.env] of the hosting process *)
Variable process_env : gmap (list N) (list N).
Variable JSON_parse : jsstring -> option Json.value.
(** [new RegExp(pattern, flags)]: it throws for invalid syntax, and
    otherwise gives the pattern, which is used through [test] at
    [lastIndex = 0] only. *)
Variable RegExp_new : jsstring -> option jsstring -> outcome (jsstring -> bool).
(** [new vm.Script(source).runInContext(vm.createContext(sandbox))],
    awaited: the value or the rejection, and the lines the script sent
    to the console recorder. *)
Variable vm_run :
  jsstring -> Sandbox -> Fs.fs -> (outcome script_value * list jsstring) * Fs.fs.

Definition createSandboxProcess (ctx : ToolExecutionContext) : SandboxProcess := {|
  sandbox_env := default ∅ (env ctx) ∪ process_env;
  sandbox_cwd := fun _ => resolveRepoPath process_cwd (js ".") ctx;
  sandbox_exit := fun code =>
    let code := default 0%Z code in
    ExitThrows
      (Error (js "process.exit(" ++ render_Z code
                ++ js ") is not allowed inside the node tool."))
|}.

Definition runUserNodeSnippet (code : jsstring) (ctx : ToolExecutionContext) (m : Fs.fs)
  : outcome (script_value * list jsstring) * Fs.fs :=
  let snippet := trim code in
  if bool_decide (length snippet = O) then
    (Throw (Error (js "Provide JavaScript code to execute.")), m)
  else
    match resolveRepoPath process_cwd (js ".") ctx with
    | Throw e => (Throw e, m)
    | Ok repoRoot =>
        let sandbox := {| sandbox_process := createSandboxProcess ctx |} in
        let asyncBlock := js ("(async () => {" ++ nl) ++ snippet ++ js (nl ++ "})()") in
        match vm_run asyncBlock sandbox m with
        | ((Throw e, _), m') => (Throw e, m')
        | ((Ok result, logs), m') => (Ok (result, logs), m')
        end
    end.

Definition createNodeTool : Tool Fs.fs := {|
  tool_name := js "node";
  description :=
    js "Execute arbitrary JavaScript snippets inside a Node.js sandbox (supports await).";
  inputGuide :=
    Some (js "Write JavaScript/TypeScript-compatible code. Console output is captured.");
  execute input ctx m :=
    match runUserNodeSnippet input ctx m with
    | (Throw e, m') => (Throw e, m')
    | (Ok (result, logs), m') =>
        let sections :=
          (if bool_decide (length logs <> O)
           then [js ("Console output:" ++ nl) ++ truncate (join (js nl) logs)]
           else [])
          ++ [js ("Result:" ++ nl) ++ formatValue result] in
        (Ok (join (js (nl ++ nl)) sections), m')
    end
|}.

Definition createNodeUserVisibleTool : Tool Fs.fs := {|
  tool_name := js "node_user_visible";
  description := js "Run JavaScript intended to print output directly for the user.";
  inputGuide := Some (js "Use console.log to print the response users should see.");
  execute input ctx m :=
    match runUserNodeSnippet input ctx m with
    | (Throw e, m') => (Throw e, m')
    | (Ok (result, logs), m') =>
        if bool_decide (length logs <> O)
        then (Ok (truncate (join (js nl) logs)), m')
        else (Ok (formatValue result), m')
    end
|}.

Definition parseFileSearchInput (input : jsstring) : outcome FileSearchPayload :=
  match JSON_parse input with
  | None =>
      Throw (Error (js "Invalid JSON. Expect {" ++ dq ++ js "pattern" ++ dq ++ js ": "
                      ++ dq ++ js "TODO" ++ dq ++ js ", " ++ dq ++ js "path" ++ dq
                      ++ js ": " ++ dq ++ js "src" ++ dq ++ js "}."))
  | Some payload =>
      let missing :=
        Throw (Error (js "Missing " ++ dq ++ js "pattern" ++ dq ++ js " field.")) in
      if Json.falsy payload then missing
      else
        match Json.get payload (js "pattern") with
        | Some (Json.JString pattern) =>
            if bool_decide (trim pattern = []) then missing
            else
              let path := Json.get payload (js "path") in
              let flags := Json.get payload (js "flags") in
              let optional_trim (p : option Json.value) (what : jsstring) :=
                match p with
                | None | Some Json.JNull => Ok None
                | Some (Json.JString s) => Ok (Some (trim s))
                | Some _ =>
                    Throw (Error (js "payload." ++ what ++ js "?.trim is not a function"))
                end in
              if negb (Json.falsy_prop path) && negb (Json.is_string path)
              then Throw (Error (dq ++ js "path" ++ dq
                                   ++ js " must be a string when provided."))
              else if negb (Json.falsy_prop flags) && negb (Json.is_string flags)
              then Throw (Error (dq ++ js "flags" ++ dq
                                   ++ js " must be a string when provided."))
              else
                p ← optional_trim path (js "path");
                f ← optional_trim flags (js "flags");
                Ok {| search_pattern := trim pattern; search_path := p; search_flags := f |}
        | _ => missing
        end
  end.

Definition buildRegex (pattern : jsstring) (flags : option jsstring)
  : outcome (jsstring -> bool) :=
  match RegExp_new pattern flags with
  | Ok regex => Ok regex
  | Throw error =>
      message ← message_of error;
      Throw (Error (js "Invalid regular expression: " ++ message))
  end.

Definition searchFileForPattern (m : Fs.fs) (filePath : jsstring)
    (regex : jsstring -> bool) : outcome (list jsstring) :=
  let body :=
    st ← Fs.stat m filePath;
    if MAX_FILE_BYTES <? Fs.size st then Ok []
    else
      contents ← Fs.readFile m filePath;
      Ok (number_matches regex 0 (split_lines contents)) in
  match body with
  | Ok matches => Ok matches
  | Throw error =>
      message ← message_of error;
      Ok [js "error reading " ++ filePath ++ js ": " ++ message]
  end.

(** The inner [for (const match of fileMatches)] loop. *)
Fixpoint push_matches (prefix : jsstring) (fileMatches results : list jsstring)
  : list jsstring :=
  match fileMatches with
  | [] => results
  | mt :: rest =>
      let results' := results ++ [prefix ++ js ":" ++ mt] in
      if (MAX_MATCHES <=? length results')%nat then results'
      else push_matches prefix rest results'
  end.

(** The [for (const entry of entries)] loop.  The array [queue] is
    kept with its last element first, so that [push] is a cons and
    [pop] takes the head.  An entry that is not a directory is a file
    here, so the [!entry.isFile()] test never fires. *)
Fixpoint scan_entries (ctx : ToolExecutionContext) (m : Fs.fs) (regex : jsstring -> bool)
    (current : jsstring) (entries : list (jsstring * Fs.entry))
    (queue results : list jsstring) : outcome (list jsstring * list jsstring) :=
  match entries with
  | [] => Ok (queue, results)
  | (entry_name, Fs.Dir) :: rest =>
      if negb (shouldSkipDir entry_name)
      then scan_entries ctx m regex current rest
             (Path.join2 current entry_name :: queue) results
      else scan_entries ctx m regex current rest queue results
  | (entry_name, Fs.File _) :: rest =>
      let filePath := Path.join2 current entry_name in
      fileMatches ← searchFileForPattern m filePath regex;
      let results' :=
        push_matches (Path.relative process_cwd (cwd ctx) filePath) fileMatches results in
      if (MAX_MATCHES <=? length results')%nat then Ok (queue, results')
      else scan_entries ctx m regex current rest queue results'
  end.

(** The [while] loop of [collectMatches], run for at most [fuel]
    iterations; [None] when they do not suffice. *)
Fixpoint collect_loop (fuel : nat) (ctx : ToolExecutionContext) (m : Fs.fs)
    (regex : jsstring -> bool) (queue results : list jsstring)
  : option (outcome (list jsstring)) :=
  match queue with
  | [] => Some (Ok results)
  | current :: queue' =>
      if (length results <? MAX_MATCHES)%nat then
        match fuel with
        | O => None
        | S fuel' =>
            match Fs.readdir m current with
            | Throw error =>
                match message_of error with
                | Throw e => Some (Throw e)
                | Ok message =>
                    collect_loop fuel' ctx m regex queue'
                      (results ++ [Path.relative process_cwd (cwd ctx) current
                                     ++ js ": error reading directory: " ++ message])
                end
            | Ok entries =>
                match scan_entries ctx m regex current entries queue' results with
                | Throw e => Some (Throw e)
                | Ok (queue'', results') => collect_loop fuel' ctx m regex queue'' results'
                end
            end
        end
      else Some (Ok results)
  end.

Definition collectMatches (fuel : nat) (root : jsstring) (regex : jsstring -> bool)
    (ctx : ToolExecutionContext) (m : Fs.fs) : option (outcome (list jsstring)) :=
  collect_loop fuel ctx m regex [root] [].

Definition NO_MATCHES : jsstring := js "No matches found.".

(** [payload.path ? resolveRepoPath(payload.path, ctx)
                 : resolveRepoPath('.', ctx)] *)
Definition search_root (payload : FileSearchPayload) (ctx : ToolExecutionContext)
  : outcome jsstring :=
  match search_path payload with
  | Some p =>
      if bool_decide (p = []) then resolveRepoPath process_cwd (js ".") ctx
      else resolveRepoPath process_cwd p ctx
  | None => resolveRepoPath process_cwd (js ".") ctx
  end.

(** [execute] of the [file_search] tool, its traversal run for at most
    [fuel] iterations. *)
Definition fileSearch_execute (fuel : nat) (input : jsstring) (ctx : ToolExecutionContext)
    (m : Fs.fs) : option (outcome jsstring) :=
  match parseFileSearchInput input with
  | Throw e => Some (Throw e)
  | Ok payload =>
      match buildRegex (search_pattern payload) (search_flags payload) with
      | Throw e => Some (Throw e)
      | Ok regex =>
          match search_root payload ctx with
          | Throw e => Some (Throw e)
          | Ok root =>
              match collectMatches fuel root regex ctx m with
              | None => None
              | Some (Throw e) => Some (Throw e)
              | Some (Ok matches) =>
                  if bool_decide (length matches = O) then Some (Ok NO_MATCHES)
                  else Some (Ok (truncate (join (js nl) matches)))
              end
          end
      end
  end.

End System.
End System.

(** ** Notions used to state the properties of the agent loop *)
Module AgentSpec.
Section AgentSpec.
Context {W : Type}.
Import Agent.

(** The state after [k] turns that all went on to a next turn. *)
Fixpoint after_turns (agent : ReactAgent W) (task : jsstring) (ctx : ToolExecutionContext)
    (k : nat) (st : state W) : option (state W) :=
  match k with
  | O => Some st
  | S k' =>
      match turn agent task ctx st with
      | Continue st' => after_turns agent task ctx k' st'
      | _ => None
      end
  end.

Definition initial (w : W) : state W :=
  {| st_thoughts := []; st_scratchpad := []; st_world := w; st_log := [] |}.

(** The prompt the next turn sends from state [st]. *)
Definition prompt_of (agent : ReactAgent W) (task : jsstring) (st : state W)
  : list ChatMessage :=
  ReactPrompt.buildReactMessages (instructions agent) (tools agent) task
    (Some (st_scratchpad st)) [].

(** The model replies of a log, in order. *)
Definition model_replies (log : list event) : list (outcome jsstring) :=
  omap (fun e => match e with
                 | ModelCall _ reply => Some reply
                 | ToolCall _ _ _ => None
                 end) log.

Definition tool_calls (log : list event) : list (jsstring * jsstring) :=
  omap (fun e => match e with
                 | ModelCall _ _ => None
                 | ToolCall name input _ => Some (name, input)
                 end) log.

(** A record made for a reply that parsed to an action. *)
Definition action_record (r : AgentThought) : Prop :=
  exists raw th name inp obs,
    ReactParser.parseReactOutput raw = Ok (action th name inp) /\
    r = {| thought := th;
           action_of := Some {| toolName := name; input := inp |};
           observation := Some obs;
           rawOutput := Some raw |}.

(** The record made for the reply that parsed to the final response
    [out]. *)
Definition final_record (out : jsstring) (r : AgentThought) : Prop :=
  exists raw th,
    ReactParser.parseReactOutput raw = Ok (final th out) /\
    r = {| thought := th; action_of := None; observation := None;
           rawOutput := Some raw |}.

(** Records and replies correspond one to one, in order. *)
Definition records_follow_replies (ts : list AgentThought) (log : list event) : Prop :=
  Forall2 (fun r reply => exists raw, rawOutput r = Some raw /\ reply = Ok raw)
          ts (model_replies log).

(** What holds of the records and the log between turns. *)
Definition between_turns (st : state W) : Prop :=
  records_follow_replies (st_thoughts st) (st_log st) /\
  Forall action_record (st_thoughts st).

End AgentSpec.
End AgentSpec.

(** ** Scripted runs

    A model client that answers from a fixed list of replies, and tools
    that settle in a fixed way: enough to run the loop on concrete
    input. *)
Module Scenario.

(** The world of a scripted run: the replies the model has yet to
    give, and the file system. *)
Record world := {
  replies : list (list N);
  files : gmap (list N) Fs.entry
}.

Definition scripted_llm : Agent.LanguageModel world :=
  {| Agent.complete := fun _ w =>
       match replies w with
       | reply :: rest => (Ok reply, {| replies := rest; files := files w |})
       | [] => (Throw (Error (js "The script has no more replies.")), w)
       end |}.

(** A tool of the file system, as a tool of the scripted world. *)
Definition on_files (t : Tool (gmap (list N) Fs.entry)) : Tool world :=
  {| tool_name := tool_name t;
     description := description t;
     inputGuide := inputGuide t;
     execute := fun input ctx w =>
       let '(settled, m) := execute t input ctx (files w) in
       (settled, {| replies := replies w; files := m |}) |}.

(** The evaluation of the script [throw null]: its promise rejects
    with [null], and nothing is logged. *)
Definition vm_throw_null (source : jsstring) (sandbox : System.Sandbox)
    (m : gmap (list N) Fs.entry)
  : (outcome System.script_value * list jsstring) * gmap (list N) Fs.entry :=
  ((Throw ThrownNull, []), m).

(** The evaluation of a script that throws an object whose [message]
    is an accessor that throws [Error('boom')]: its promise rejects
    with that object, and nothing is logged. *)
Definition vm_throw_unreadable (source : jsstring) (sandbox : System.Sandbox)
    (m : gmap (list N) Fs.entry)
  : (outcome System.script_value * list jsstring) * gmap (list N) Fs.entry :=
  ((Throw (ThrownUnreadable (Error (js "boom"))), []), m).

(** The evaluation of a script that does nothing but call
    [process.exit(code)]: what the call throws is what the promise of
    the script rejects with.  (Had the call ended the hosting process,
    no tool would settle at all; the value given for that case is
    never looked at.) *)
Definition vm_calling_exit (code : option Z) (source : jsstring)
    (sandbox : System.Sandbox) (m : gmap (list N) Fs.entry)
  : (outcome System.script_value * list jsstring) * gmap (list N) Fs.entry :=
  match System.sandbox_exit (System.sandbox_process sandbox) code with
  | System.ExitThrows e => ((Throw e, []), m)
  | System.ExitTerminatesHost _ => ((Ok System.VUndefined, []), m)
  end.

Definition agent_with (tools : list (Tool world)) (maxTurns : option Z)
  : Agent.ReactAgent world :=
  Agent.new_ReactAgent scripted_llm
    {| config_instructions := js "Be brief."; config_tools := tools;
       config_maxTurns := maxTurns |}.

Definition no_options : Agent.AgentRunOptions :=
  {| Agent.options_cwd := Some (js "/repo"); Agent.options_env := None |}.

Definition act (toolName input : string) : jsstring :=
  js ("Thought: try" ++ nl ++ "Action: " ++ toolName ++ nl ++ "Action Input: " ++ input).

(** The JSON text of a write payload whose strings need no escape. *)
Definition write_input (p c : jsstring) : jsstring :=
  js "{" ++ dq ++ js "path" ++ dq ++ js ":" ++ dq ++ p ++ dq ++ js ","
    ++ dq ++ js "contents" ++ dq ++ js ":" ++ dq ++ c ++ dq ++ js "}".

(** [JSON.parse], as far as that one text goes. *)
Definition parse_write (p c : jsstring) (text : jsstring) : option Json.value :=
  if bool_decide (text = write_input p c)
  then Some (Json.JObject [(js "path", Json.JString p); (js "contents", Json.JString c)])
  else None.

Definition repo : ToolExecutionContext := {| cwd := js "/repo"; env := None |}.

(** The JSON text of a search payload whose strings need no escape. *)
Definition search_input (pattern path : jsstring) : jsstring :=
  js "{" ++ dq ++ js "pattern" ++ dq ++ js ":" ++ dq ++ pattern ++ dq ++ js ","
    ++ dq ++ js "path" ++ dq ++ js ":" ++ dq ++ path ++ dq ++ js "}".

Definition parse_search (pattern path : jsstring) (text : jsstring)
  : option Json.value :=
  if bool_decide (text = search_input pattern path)
  then Some (Json.JObject [(js "pattern", Json.JString pattern);
                           (js "path", Json.JString path)])
  else None.

(** [new RegExp(pattern)] for patterns without a metacharacter: the
    lines that contain the pattern match. *)
Definition RegExp_plain (pattern : jsstring) (flags : option jsstring)
  : outcome (jsstring -> bool) :=
  Ok (includes pattern).

(** A [write_file] of contents [c] to [path] in an empty file system:
    what the tool settles to, and the file system it leaves. *)
Definition written (path c : jsstring)
  : outcome jsstring * gmap (list N) Fs.entry :=
  execute (createWriteFileTool (js "/") (parse_write path c)) (write_input path c) repo ∅.

Definition short_write := written (js "notes/a.txt") (js "hello").
Definition long_write := written (js "a.txt") (replicate 4001 97).
Definition accent_write := written (js "a.txt") [233].

Definition tree : gmap (list N) Fs.entry :=
  list_to_map
    [ (js "/", Fs.Dir);
      (js "/repo", Fs.Dir);
      (js "/repo/a.txt", Fs.File (js ("alpha" ++ nl ++ "beta")));
      (js "/repo/src", Fs.Dir);
      (js "/repo/src/b.txt", Fs.File (js "gamma"));
      (js "/repo/node_modules", Fs.Dir);
      (js "/repo/node_modules/x.js", Fs.File (js "TODO: later")) ].


(** An agent whose one tool is [read_file], and the state it is in
    after a turn that read [src/b.txt] of [tree]. *)
Definition reader : Agent.ReactAgent world :=
  agent_with [on_files (createReadFileTool (js "/"))] None.

Definition after_one_read : Agent.state world :=
  default (AgentSpec.initial {| replies := []; files := tree |})
    (AgentSpec.after_turns reader (js "show it") repo 1
       (AgentSpec.initial {| replies := [act "read_file" "src/b.txt"]; files := tree |})).

End Scenario.

(** ** Notions used to state path confinement *)
Module PathSpec.

(** A segment of a normalized path. *)
Definition proper_segment (seg : jsstring) : Prop :=
  seg <> [] /\ seg <> Path.dot /\ seg <> Path.dotdot /\ Path.SLASH ∉ seg.

(** [target] is [root] or lies below it: the components of [root]
    are the first components of [target]. *)
Definition within (root target : jsstring) : Prop :=
  Path.components root `prefix_of` Path.components target.

(** What [resolveRepoPath] resolves the candidate [inputPath] to. *)
Definition candidate_target (process_cwd inputPath : jsstring)
    (ctx : ToolExecutionContext) : jsstring :=
  let root := Path.resolve process_cwd [cwd ctx] in
  let normalized :=
    if bool_decide (length (trim inputPath) <> O) then trim inputPath else js "." in
  let prefixed :=
    if startsWith (js ".") normalized then normalized else js "./" ++ normalized in
  Path.resolve process_cwd [root; prefixed].

End PathSpec.

(** ** Notions used to state the properties of the parser *)
Module ParserSpec.
Import Regex.

(** [Matches r s rest]: the pattern [r] can consume exactly [s] when
    [rest] is what follows [s] in the input. *)
Inductive Matches : regex -> jsstring -> jsstring -> Prop :=
| M_chr a x rest :
    canonicalize a = canonicalize x -> Matches (Chr a) [x] rest
| M_cls p x rest :
    p x = true -> Matches (Cls p) [x] rest
| M_star g p s rest :
    Forall (fun x => p x = true) s -> Matches (Star g p) s rest
| M_plus p s rest :
    s <> [] -> Forall (fun x => p x = true) s -> Matches (Plus p) s rest
| M_seq r1 r2 s1 s2 rest :
    Matches r1 s1 (s2 ++ rest) -> Matches r2 s2 rest ->
    Matches (Seq r1 r2) (s1 ++ s2) rest
| M_alt_l r1 r2 s rest :
    Matches r1 s rest -> Matches (Alt r1 r2) s rest
| M_alt_r r1 r2 s rest :
    Matches r2 s rest -> Matches (Alt r1 r2) s rest
| M_eoi :
    Matches Eoi [] []
| M_group i r s rest :
    Matches r s rest -> Matches (Group i r) s rest.

(** [K] tells on which remainders the continuation [k] succeeds. *)
Definition decides
    (k : list N -> list (option (list N)) -> option (list (option (list N))))
    (K : list N -> Prop) : Prop :=
  forall s c, is_Some (k s c) <-> K s.

(** [lab] is [label] up to the case of its letters. *)
Definition same_letters (label lab : jsstring) : Prop :=
  Forall2 (fun a x => canonicalize a = canonicalize x) label lab.

(** The label occurs somewhere in the text. *)
Definition has_label (label s : jsstring) : Prop :=
  exists pre lab rest, s = pre ++ lab ++ rest /\ same_letters label lab.

(** A [Final Response:] label with at least one character after it. *)
Definition final_present (s : jsstring) : Prop :=
  exists pre lab rest,
    s = pre ++ lab ++ rest /\ same_letters (js "Final Response:") lab /\ rest <> [].

(** An [Action:] label, white space, the rest of the line (not empty),
    the line break, an [Action Input:] label and at least one
    character after it. *)
Definition action_present (s : jsstring) : Prop :=
  exists pre lab ws name lab2 rest,
    s = pre ++ lab ++ ws ++ name ++ [LF] ++ lab2 ++ rest /\
    same_letters (js "Action:") lab /\
    Forall (fun x => is_ws x = true) ws /\
    name <> [] /\ (LF ∉ name) /\
    same_letters (js "Action Input:") lab2 /\
    rest <> [].

End ParserSpec.

(** ** Notions used to state the properties of the file search *)
Module SearchSpec.

(** [path] is a file that the search passes over in silence: it is
    above the size ceiling, or none of its lines matches. *)
Definition file_quiet (m : gmap (list N) Fs.entry) (regex : jsstring -> bool)
    (path : jsstring) : Prop :=
  exists text, m !! path = Some (Fs.File text) /\
    ((System.MAX_FILE_BYTES < Fs.byteLength text)%N \/
     Forall (fun line => regex line = false) (System.split_lines text)).

(** The traversal from directory [current] meets no match and no
    read error: [current] can be listed, its files are quiet, and so
    are its directories, those the search skips apart. *)
Inductive quiet (m : gmap (list N) Fs.entry) (regex : jsstring -> bool)
  : jsstring -> Prop :=
| quiet_dir current entries :
    Fs.readdir m current = Ok entries ->
    (forall name, (name, Fs.Dir) ∈ entries -> System.shouldSkipDir name = false ->
                  quiet m regex (Path.join2 current name)) ->
    (forall name text, (name, Fs.File text) ∈ entries ->
                  file_quiet m regex (Path.join2 current name)) ->
    quiet m regex current.

(** From [queue] on, the traversal ends without a result line,
    given enough iterations. *)
Definition ends_silent (process_cwd : jsstring) (ctx : ToolExecutionContext)
    (m : gmap (list N) Fs.entry) (regex : jsstring -> bool) (queue : list jsstring)
  : Prop :=
  exists bound, forall fuel, (bound <= fuel)%nat ->
    System.collect_loop process_cwd fuel ctx m regex queue [] = Some (Ok []).

(** What the induction over the traversal establishes of a directory:
    put on a queue that ends silent, it gives one that ends silent. *)
Definition passes (process_cwd : jsstring) (ctx : ToolExecutionContext)
    (m : gmap (list N) Fs.entry) (regex : jsstring -> bool) (d : jsstring) : Prop :=
  forall queue, ends_silent process_cwd ctx m regex queue ->
                ends_silent process_cwd ctx m regex (d :: queue).

End SearchSpec.

(** ** Further notions about the agent loop *)
Module LoopSpec.
Section LoopSpec.
Context {W : Type}.
Import Agent.

(** The log a pass, or a run, ends with. *)
Definition log_of (s : step W) : list event :=
  match s with
  | Continue st => st_log st
  | Return _ _ log => log
  | Raise _ _ log => log
  end.

(** The block a step record contributes to the scratchpad. *)
Definition render_record (r : AgentThought) : jsstring :=
  match action_of r, observation r with
  | Some a, Some obs => turnScratch (thought r) (toolName a) (input a) obs
  | _, _ => []
  end.

(** Why a pass through the loop body can throw, as the last event of
    the log tells: the model call rejected; the reply did not parse; the
    reply named a tool that is not registered; or a tool rejected with a
    value whose message cannot be rendered, and rendering it threw. *)
Definition raise_cause (agent : ReactAgent W) (e : thrown) (log : list event) : Prop :=
  (exists msgs, last log = Some (ModelCall msgs (Throw e))) \/
  (exists msgs raw, last log = Some (ModelCall msgs (Ok raw)) /\
     ReactParser.parseReactOutput raw = Throw e /\ e = ReactParser.UnparsableResponse) \/
  (exists msgs raw th name inp, last log = Some (ModelCall msgs (Ok raw)) /\
     ReactParser.parseReactOutput raw = Ok (action th name inp) /\
     toolMap agent !! name = None /\ e = UnknownTool name) \/
  (exists name inp rejected, last log = Some (ToolCall name inp (Throw rejected)) /\
     message_of rejected = Throw e).

(** The scratchpad is the rendering of the records, and it is empty
    exactly when there is no record. *)
Definition scratchpad_renders (st : state W) : Prop :=
  st_scratchpad st = join (js (nl ++ nl)) (map render_record (st_thoughts st)) /\
  (st_thoughts st = [] <-> st_scratchpad st = []).

(** The tools of a list that carry a given name. *)
Definition named (name : jsstring) (ts : list (Tool W)) : list (Tool W) :=
  filter (fun t => tool_name t = name) ts.

End LoopSpec.
End LoopSpec.

(** ** Further notions about the parser *)
Module ParserMore.
Import Regex.

(** [s] starts with [label], up to the case of letters. *)
Fixpoint starts_with_label (label s : jsstring) : bool :=
  match label, s with
  | [], _ => true
  | a :: label', x :: s' => (canonicalize a =? canonicalize x) && starts_with_label label' s'
  | _ :: _, [] => false
  end.

(** [label] occurs in [s], up to the case of letters. *)
Fixpoint mentions (label s : jsstring) : bool :=
  starts_with_label label s ||
  match s with
  | [] => false
  | _ :: s' => mentions label s'
  end.

Definition thought_of (r : ReactResponse) : jsstring :=
  match r with
  | action th _ _ => th
  | final th _ => th
  end.

End ParserMore.

(** ** Notions used to state the properties of the file tools *)
Module FileSpec.
Section FileSpec.
Variable process_cwd : jsstring.
Variable JSON_parse : jsstring -> option Json.value.

(** What [read_file] shows of a file whose text is [contents]. *)
Definition shown (contents : jsstring) : jsstring :=
  if 200000 <? Fs.byteLength contents
  then js "File too large to display (200KB limit)."
  else if (4000 <? length contents)%nat then take 4000 contents ++ TRUNCATED
  else contents.


End FileSpec.
End FileSpec.


(** ** Notions used to state what the file search reports *)
Module SearchMore.
Section Reported.
Variable process_cwd : jsstring.
Variable ctx : ToolExecutionContext.
Variable m : gmap (list N) Fs.entry.
Variable regex : jsstring -> bool.

(** The lines a search may report: a line of a file that the pattern
    accepts, under the path of the file and its number counted from 1;
    a file that could not be read; a directory that could not be
    listed. *)
Inductive reported : jsstring -> Prop :=
| reported_match path contents (i : nat) line :
    m !! path = Some (Fs.File contents) ->
    Fs.byteLength contents <= System.MAX_FILE_BYTES ->
    System.split_lines contents !! i = Some line ->
    regex line = true ->
    reported (Path.relative process_cwd (cwd ctx) path ++ js ":"
              ++ decimal (N.of_nat i + 1) ++ js ": " ++ line)
| reported_unreadable_file path e message :
    Fs.stat m path = Throw e \/ Fs.readFile m path = Throw e ->
    message_of e = Ok message ->
    reported (Path.relative process_cwd (cwd ctx) path ++ js ":"
              ++ js "error reading " ++ path ++ js ": " ++ message)
| reported_unreadable_directory current e message :
    Fs.readdir m current = Throw e ->
    message_of e = Ok message ->
    reported (Path.relative process_cwd (cwd ctx) current
              ++ js ": error reading directory: " ++ message).

End Reported.
End SearchMore.


(** ** config.ts *)
Module Config.

Record DeepSeekConfig := {
  config_apiKey : jsstring;
  config_model : jsstring
}.

(** [process.env[name]?.trim()], in the environment that [dotenv] has
    completed *)
Definition env_trimmed (process_env : gmap (list N) (list N)) (name : jsstring)
  : option jsstring :=
  trim <$> process_env !! name.

Definition loadDeepSeekConfig (process_env : gmap (list N) (list N))
  : outcome DeepSeekConfig :=
  match env_trimmed process_env (js "DEEPSEEK_API_KEY") with
  | Some (c :: key) =>
      Ok {| config_apiKey := c :: key;
            config_model :=
              default (js "deepseek-chat")
                      (env_trimmed process_env (js "DEEPSEEK_MODEL")) |}
  | _ => Throw (Error (js "Missing DEEPSEEK_API_KEY in the environment."))
  end.

End Config.

(** ** llm/deepseekClient.ts *)
Module DeepSeek.
Section DeepSeekClient.
(** The world [fetch] acts on. *)
Context {W : Type}.
(** The numbers a temperature is taken from, and the number [0.1]. *)
Variable number : Type.
Variable one_tenth : number.

Record DeepSeekClientOptions := {
  options_apiKey : jsstring;
  options_model : option jsstring;
  options_baseUrl : option jsstring;
  options_temperature : option number
}.

Record DeepSeekClient := {
  client_apiKey : jsstring;
  client_model : jsstring;
  client_baseUrl : jsstring;
  client_temperature : number
}.

Definition new_DeepSeekClient (options : DeepSeekClientOptions) : outcome DeepSeekClient :=
  if bool_decide (options_apiKey options = []) then
    Throw (Error (js "DeepSeek API key is required."))
  else
    Ok {| client_apiKey := options_apiKey options;
          client_model := default (js "deepseek-chat") (options_model options);
          client_baseUrl := default (js "https://api.deepseek.com/v1") (options_baseUrl options);
          client_temperature := default one_tenth (options_temperature options) |}.

(** A configuration, passed where options are expected. *)
Definition options_of_config (c : Config.DeepSeekConfig) : DeepSeekClientOptions :=
  {| options_apiKey := Config.config_apiKey c;
     options_model := Some (Config.config_model c);
     options_baseUrl := None;
     options_temperature := None |}.

(** The object given to [JSON.stringify] for the body. *)
Record RequestBody := {
  body_model : jsstring;
  body_messages : list ChatMessage;
  body_temperature : number
}.

Record Request := {
  request_url : jsstring;
  request_method : jsstring;
  request_headers : list (jsstring * jsstring);
  request_body : RequestBody
}.

(** A response: [ok], [status], and what awaiting [text()] and
    [json()] gives. *)
Record Response := {
  response_ok : bool;
  response_status : Z;
  response_text : outcome jsstring;
  response_json : outcome Json.value
}.

Variable fetch : Request -> W -> outcome Response * W.
(** [`${v}`] for a JSON value that is not a string. *)
Variable render_other : Json.value -> outcome jsstring.

Definition render (v : Json.value) : outcome jsstring :=
  match v with
  | Json.JString s => Ok s
  | _ => render_other v
  end.

(** [v?.key], for a key that no prototype defines *)
Definition opt_get (v : option Json.value) (key : jsstring) : option Json.value :=
  match v with
  | None | Some Json.JNull => None
  | Some v => Json.get v key
  end.

(** [v?.[0]] *)
Definition opt_first (v : option Json.value) : option Json.value :=
  match v with
  | None | Some Json.JNull => None
  | Some (Json.JArray items) => head items
  | Some (Json.JString s) => (fun c => Json.JString [c]) <$> head s
  | Some (Json.JObject fields) => Json.lookup_field (js "0") fields
  | Some _ => None
  end.

(** [v?.trim()] *)
Definition opt_trim (v : option Json.value) : outcome (option jsstring) :=
  match v with
  | None | Some Json.JNull => Ok None
  | Some (Json.JString s) => Ok (Some (trim s))
  | Some _ =>
      Throw (Error (js "payload.choices?.[0]?.message?.content?.trim is not a function"))
  end.

(** [v ?? d] *)
Definition nullish_or (v : option Json.value) (d : Json.value) : Json.value :=
  match v with
  | None | Some Json.JNull => d
  | Some v => v
  end.

Definition request_of (client : DeepSeekClient) (messages : list ChatMessage) : Request :=
  {| request_url := client_baseUrl client ++ js "/chat/completions";
     request_method := js "POST";
     request_headers :=
       [(js "Content-Type", js "application/json");
        (js "Authorization", js "Bearer " ++ client_apiKey client)];
     request_body :=
       {| body_model := client_model client;
          body_messages := messages;
          body_temperature := client_temperature client |} |}.

(** What [complete] does with the response. *)
Definition read_response (response : Response) : outcome jsstring :=
  if negb (response_ok response) then
    errorText ← response_text response;
    Throw (Error (js "DeepSeek API error (" ++ System.render_Z (response_status response)
                    ++ js "): " ++ errorText))
  else
    payload ← response_json response;
    match payload with
    | Json.JNull =>
        Throw (Error (js "Cannot read properties of null (reading 'choices')"))
    | _ =>
        message ← opt_trim
                    (opt_get (opt_get (opt_first (Json.get payload (js "choices")))
                                      (js "message"))
                             (js "content"));
        match message with
        | Some (c :: s) => Ok (c :: s)
        | _ =>
            details ← render (nullish_or (opt_get (Json.get payload (js "error"))
                                                  (js "message"))
                                         (Json.JString (js "Empty completion payload.")));
            Throw (Error (js "DeepSeek response missing content: " ++ details))
        end
    end.

Definition complete (client : DeepSeekClient) (messages : list ChatMessage) (w : W)
  : outcome jsstring * W :=
  match fetch (request_of client messages) w with
  | (Throw e, w') => (Throw e, w')
  | (Ok response, w') => (read_response response, w')
  end.

(** The client, as the language model of an agent. *)
Definition as_model (client : DeepSeekClient) : Agent.LanguageModel W :=
  {| Agent.complete := complete client |}.

End DeepSeekClient.
End DeepSeek.

(** ** A scripted server *)
Module ServerScenario.

(** A process environment with a key between spaces and a blank model
    name. *)
Definition environment : gmap (list N) (list N) :=
  {[ js "DEEPSEEK_API_KEY" := js " sk-1 "; js "DEEPSEEK_MODEL" := js "  " ]}.

Definition loaded : Config.DeepSeekConfig :=
  {| Config.config_apiKey := js "sk-1"; Config.config_model := [] |}.

(** A completion whose content is [content]. *)
Definition completion (content : jsstring) : Json.value :=
  Json.JObject
    [(js "choices",
      Json.JArray
        [Json.JObject
           [(js "message",
             Json.JObject [(js "role", Json.JString (js "assistant"));
                           (js "content", Json.JString content)])]])].

(** A server that answers every request with the completion [content]. *)
Definition answering (content : jsstring) (request : DeepSeek.Request nat) (w : unit)
  : outcome DeepSeek.Response * unit :=
  (Ok {| DeepSeek.response_ok := true;
         DeepSeek.response_status := 200%Z;
         DeepSeek.response_text := Ok [];
         DeepSeek.response_json := Ok (completion content) |}, w).

Definition no_rendering (v : Json.value) : outcome jsstring := Ok (js "[object Object]").

Definition client : DeepSeek.DeepSeekClient nat :=
  {| DeepSeek.client_apiKey := js "sk-1";
     DeepSeek.client_model := js "deepseek-chat";
     DeepSeek.client_baseUrl := js "https://api.deepseek.com/v1";
     DeepSeek.client_temperature := 1%nat |}.

End ServerScenario.


(** ** How [list_files] shows an entry *)
Module ListSpec.

(** The path of the entry [name] of the directory [dir]. *)
Definition child_path (dir name : jsstring) : jsstring :=
  (if bool_decide (dir = Path.sep) then dir else dir ++ Path.sep) ++ name.

(** The line for the entry [name] of [dir], as [stat] on the path of
    the entry decides: the name for what is not a directory, the name
    and a separator for a directory, and the name with the message of
    the error when [stat] fails. *)
Inductive line_for (m : gmap (list N) Fs.entry) (dir name : jsstring)
  : jsstring -> Prop :=
| line_plain st :
    Fs.stat m (child_path dir name) = Ok st -> Fs.isDirectory st = false ->
    line_for m dir name name
| line_directory st :
    Fs.stat m (child_path dir name) = Ok st -> Fs.isDirectory st = true ->
    line_for m dir name (name ++ js "/")
| line_error error message :
    Fs.stat m (child_path dir name) = Throw error -> message_of error = Ok message ->
    line_for m dir name (name ++ js " (error: " ++ message ++ js ")").

(** No entry is called [.] or [..]. *)
Definition proper_names (entries : list (jsstring * Fs.entry)) : Prop :=
  Forall (fun e => fst e <> Path.dot /\ fst e <> Path.dotdot) entries.

End ListSpec.


(* ================================================================= *)
(** * Properties *)

Example parse_final_response :
  ReactParser.parseReactOutput (js ("Thought: ok" ++ nl ++ "Final Response: done"))
  = Ok (final (js "ok") (js "done")).
Proof. vm_compute. reflexivity. Qed.

Example parse_action_ignores_case :
  ReactParser.parseReactOutput
    (js ("thought: look" ++ nl ++ "ACTION:  read_file " ++ nl ++ "action input: a.txt  "))
  = Ok (action (js "look") (js "read_file") (js "a.txt")).
Proof. vm_compute. reflexivity. Qed.

Example parse_final_label_alone :
  ReactParser.parseReactOutput (js ("Thought: ok" ++ nl ++ "Final Response:"))
  = Throw ReactParser.UnparsableResponse.
Proof. vm_compute. reflexivity. Qed.

Example dotdot_inside_the_root_is_accepted :
  resolveRepoPath (js "/") (js "src/../a.txt") {| cwd := js "/repo"; env := None |}
  = Ok (js "/repo/a.txt").
Proof. vm_compute. reflexivity. Qed.

Example sibling_directory_is_refused :
  resolveRepoPath (js "/") (js "../repo-evil/x") {| cwd := js "/repo"; env := None |}
  = Throw AccessViolation.
Proof. vm_compute. reflexivity. Qed.

Example below_the_filesystem_root_is_refused :
  resolveRepoPath (js "/") (js "a") {| cwd := js "/"; env := None |}
  = Throw AccessViolation.
Proof. vm_compute. reflexivity. Qed.

Example blank_candidate_is_the_root :
  resolveRepoPath (js "/home/u") (js "  ") {| cwd := js "proj"; env := None |}
  = Ok (js "/home/u/proj").
Proof. vm_compute. reflexivity. Qed.

Example path_functions :
  pathFromRepoRoot (js "/") (js "/repo/a/b.txt") {| cwd := js "/repo"; env := None |}
  = js "a/b.txt" /\
  pathFromRepoRoot (js "/") (js "/repo") {| cwd := js "/repo"; env := None |} = js "." /\
  Path.dirname (js "/repo/a/b.txt") = js "/repo/a" /\
  Path.dirname (js "/repo") = js "/" /\
  Path.join2 (js "/repo/a") (js "b") = js "/repo/a/b".
Proof. vm_compute. repeat split; reflexivity. Qed.

(** ** Strings *)
Section StringFacts.

Lemma startsWith_spec (p s : jsstring) :
  startsWith p s = true <-> exists r, s = p ++ r.
Proof.
  revert s; induction p as [|a p IH]; intros s; simpl.
  - split; [intros _; by exists s | done].
  - destruct s as [|b s].
    + split; [done | intros [r Hr]; discriminate].
    + rewrite andb_true_iff, N.eqb_eq, IH. split.
      * intros [-> [r ->]]. by exists r.
      * intros [r Hr]. injection Hr as -> ->. eauto.
Qed.

Lemma includes_spec (p s : jsstring) :
  includes p s = true <-> exists a b, s = a ++ p ++ b.
Proof.
  induction s as [|c s IH]; simpl.
  - rewrite orb_false_r, startsWith_spec. split.
    + intros [r Hr]. by exists [], r.
    + intros ([|x a] & b & Hab); [by exists b | discriminate].
  - rewrite orb_true_iff, startsWith_spec, IH. split.
    + intros [[r Hr] | (a & b & ->)]; [by exists [], r | by exists (c :: a), b].
    + intros ([|x a] & b & Hab); [left; by exists b |].
      injection Hab as -> ->. right; eauto.
Qed.

Lemma includes_app (a p b : jsstring) : includes p (a ++ p ++ b) = true.
Proof. apply includes_spec; eauto. Qed.

Lemma trimStart_nil_iff (s : jsstring) :
  trimStart s = [] <-> Forall (fun c => is_ws c = true) s.
Proof.
  induction s as [|c s IH]; simpl; [by split |].
  destruct (is_ws c) eqn:E.
  - rewrite IH. split; [by constructor | by inversion 1].
  - split; [done | inversion 1; congruence].
Qed.

Lemma trimStart_suffix (s : jsstring) :
  exists ws, s = ws ++ trimStart s /\ Forall (fun c => is_ws c = true) ws.
Proof.
  induction s as [|c s (ws & Hs & Hws)]; simpl; [by exists [] |].
  destruct (is_ws c) eqn:E.
  - exists (c :: ws). split; [by rewrite <- app_comm_cons, <- Hs | by constructor].
  - by exists [].
Qed.

Lemma trimStart_head (s : jsstring) c s' :
  trimStart s = c :: s' -> is_ws c = false.
Proof.
  induction s as [|x s IH]; simpl; [done |].
  destruct (is_ws x) eqn:E; [done | by intros [= <- _]].
Qed.

Lemma trimStart_idem (s : jsstring) : trimStart (trimStart s) = trimStart s.
Proof.
  destruct (trimStart s) as [|c s'] eqn:E; [done |].
  simpl. by rewrite (trimStart_head _ _ _ E).
Qed.

(** A string with a character that is not white space does not trim
    to the empty string. *)
Lemma trim_nonempty (a b : jsstring) (c : N) :
  is_ws c = false -> trim (a ++ c :: b) <> [].
Proof.
  intros Hc Hnil. unfold trim, trimEnd in Hnil.
  apply (f_equal (@rev N)) in Hnil. rewrite rev_involutive in Hnil. simpl in Hnil.
  apply trimStart_nil_iff in Hnil.
  rewrite Forall_forall in Hnil.
  assert (Hin : c ∈ trimStart (a ++ c :: b)).
  { clear Hnil. induction a as [|x a IH]; simpl.
    - rewrite Hc. by left.
    - destruct (is_ws x); [apply IH |]. right. apply elem_of_app; right; by left. }
  specialize (Hnil c). rewrite Hc in Hnil. enough (false = true) by done.
  apply Hnil. apply list_elem_of_In. apply -> in_rev. by apply list_elem_of_In.
Qed.

End StringFacts.

(** ** The agent loop *)
Section AgentFacts.
Context {W : Type}.
Import Agent AgentSpec.
Implicit Types (agent : ReactAgent W) (st : state W) (ctx : ToolExecutionContext).

Lemma loop_after_turns agent task ctx k r st st' :
  after_turns agent task ctx k st = Some st' ->
  loop agent task ctx (k + r) st = loop agent task ctx r st'.
Proof.
  revert st; induction k as [|k IH]; intros st; simpl.
  - by intros [= ->].
  - destruct (turn agent task ctx st) as [st1| |]; [apply IH | done | done].
Qed.

Lemma run_after_turns pcwd agent task options w k st :
  after_turns agent task
    {| cwd := default pcwd (options_cwd options); env := options_env options |}
    k (initial w) = Some st ->
  (k <= Z.to_nat (maxTurns agent))%nat ->
  run pcwd agent task options w
  = loop agent task
      {| cwd := default pcwd (options_cwd options); env := options_env options |}
      (Z.to_nat (maxTurns agent) - k) st.
Proof.
  intros Hk Hle. unfold run.
  replace (Z.to_nat (maxTurns agent)) with (k + (Z.to_nat (maxTurns agent) - k))%nat at 1
    by lia.
  by apply loop_after_turns.
Qed.

(** A turn whose reply names a tool the registry lacks. *)
Lemma turn_unknown_tool agent task ctx st llmOutput w1 th name inp :
  complete (llm agent) (prompt_of agent task st) (st_world st) = (Ok llmOutput, w1) ->
  ReactParser.parseReactOutput llmOutput = Ok (action th name inp) ->
  toolMap agent !! name = None ->
  turn agent task ctx st
  = Raise (UnknownTool name) w1
      (st_log st ++ [ModelCall (prompt_of agent task st) (Ok llmOutput)]).
Proof.
  intros Hllm Hparse Hnone. unfold turn, prompt_of in *.
  by rewrite Hllm, Hparse, Hnone.
Qed.

(** The registry the constructor builds holds exactly the names of the
    configured tools. *)
Lemma toolMap_lookup_None (llm : LanguageModel W) (config : AgentConfig W)
    (name : jsstring) :
  toolMap (new_ReactAgent llm config) !! name = None <->
  Forall (fun t => tool_name t <> name) (config_tools config).
Proof.
  unfold new_ReactAgent; simpl.
  assert (G : forall (l : list (Tool W)) (m : gmap (list N) (Tool W)),
    foldl (fun m t => <[tool_name t := t]> m) m l !! name = None <->
    m !! name = None /\ Forall (fun t => tool_name t <> name) l).
  { induction l as [|t l IH]; intros m; simpl.
    - split; [intros H; by split | by intros [H _]].
    - rewrite IH, lookup_insert_None, Forall_cons. tauto. }
  rewrite G, lookup_empty. tauto.
Qed.

(** A tool that is configured, and not followed by another of the same
    name, is the one registered under its name. *)
Lemma toolMap_lookup_last (llm : LanguageModel W) (config : AgentConfig W)
    (before after : list (Tool W)) (t : Tool W) :
  config_tools config = before ++ t :: after ->
  Forall (fun t' => tool_name t' <> tool_name t) after ->
  toolMap (new_ReactAgent llm config) !! tool_name t = Some t.
Proof.
  intros Htools Hafter. unfold new_ReactAgent; cbn [toolMap]. rewrite Htools.
  rewrite foldl_app. cbn [foldl].
  generalize (foldl (fun (m : gmap (list N) (Tool W)) t0 => <[tool_name t0 := t0]> m)
                ∅ before). intros m0.
  assert (G : forall (l : list (Tool W)) (m : gmap (list N) (Tool W)),
    Forall (fun t' => tool_name t' <> tool_name t) l ->
    foldl (fun m t0 => <[tool_name t0 := t0]> m) m l !! tool_name t = m !! tool_name t).
  { induction l as [|t' l IH]; intros m Hl; cbn [foldl]; [done |].
    inversion Hl; subst. rewrite IH by done. by rewrite lookup_insert_ne. }
  rewrite G by done. apply lookup_insert_eq.
Qed.

End AgentFacts.

(** C3.  Whatever turn a run has reached, a reply that parses to an
    action naming a tool that is not in the registry makes the run
    throw the unknown-tool error; the log of the run ends with that
    model call, so no tool is invoked and no model call follows. *)
Theorem unknown_tool_aborts_run {W : Type} (pcwd : jsstring)
    (agent : Agent.ReactAgent W) (task : jsstring) (options : Agent.AgentRunOptions)
    (w : W) (k : nat) (st : Agent.state W) (llmOutput : jsstring) (w1 : W)
    (th name inp : jsstring) :
  AgentSpec.after_turns agent task
    {| cwd := default pcwd (Agent.options_cwd options); env := Agent.options_env options |}
    k (AgentSpec.initial w) = Some st ->
  (k < Z.to_nat (Agent.maxTurns agent))%nat ->
  Agent.complete (Agent.llm agent) (AgentSpec.prompt_of agent task st) (Agent.st_world st)
    = (Ok llmOutput, w1) ->
  ReactParser.parseReactOutput llmOutput = Ok (action th name inp) ->
  Agent.toolMap agent !! name = None ->
  Agent.run pcwd agent task options w
  = Agent.Raise (Agent.UnknownTool name) w1
      (Agent.st_log st
         ++ [Agent.ModelCall (AgentSpec.prompt_of agent task st) (Ok llmOutput)]).
Proof.
  intros Hk Hlt Hllm Hparse Hnone.
  rewrite (run_after_turns _ _ _ _ _ _ _ Hk) by lia.
  destruct (Z.to_nat (Agent.maxTurns agent) - k)%nat as [|r] eqn:E; [lia |].
  simpl. by rewrite (turn_unknown_tool _ _ _ _ _ _ _ _ _ Hllm Hparse Hnone).
Qed.

Lemma unknown_tool_aborts_run_witness :
  let agent := Scenario.agent_with [Scenario.on_files (createReadFileTool (js "/"))] None in
  let w := {| Scenario.replies := [Scenario.act "delete_file" "a.txt"];
              Scenario.files := Scenario.tree |} in
  Agent.run (js "/") agent (js "clean up") Scenario.no_options w
  = Agent.Raise (Agent.UnknownTool (js "delete_file"))
      {| Scenario.replies := []; Scenario.files := Scenario.tree |}
      [Agent.ModelCall (AgentSpec.prompt_of agent (js "clean up") (AgentSpec.initial w))
         (Ok (Scenario.act "delete_file" "a.txt"))].
Proof.
  cbv zeta.
  apply (unknown_tool_aborts_run (js "/")
           (Scenario.agent_with [Scenario.on_files (createReadFileTool (js "/"))] None)
           (js "clean up") Scenario.no_options
           {| Scenario.replies := [Scenario.act "delete_file" "a.txt"];
              Scenario.files := Scenario.tree |} 0
           (AgentSpec.initial
              {| Scenario.replies := [Scenario.act "delete_file" "a.txt"];
                 Scenario.files := Scenario.tree |})
           (Scenario.act "delete_file" "a.txt")
           {| Scenario.replies := []; Scenario.files := Scenario.tree |}
           (js "try") (js "delete_file") (js "a.txt")).
  - reflexivity.
  - vm_compute. lia.
  - reflexivity.
  - vm_compute. reflexivity.
  - vm_compute. reflexivity.
Defined.

Section AgentRecovery.
Context {W : Type}.
Import Agent AgentSpec.
Implicit Types (agent : ReactAgent W) (st : state W) (ctx : ToolExecutionContext).

(** The scratchpad after a turn ends with the observation of that
    turn. *)
Lemma turnScratch_ends_with_observation (th name inp obs : jsstring) :
  exists pre, turnScratch th name inp obs = pre ++ js "Observation: " ++ obs.
Proof.
  unfold turnScratch; simpl.
  exists (js "Thought: " ++ th ++ js nl ++ js "Action: " ++ name ++ js nl
            ++ js "Action Input: " ++ inp ++ js nl).
  by rewrite <- !app_assoc.
Qed.

Lemma turnScratch_not_blank (before th name inp obs : jsstring) :
  trim (before ++ turnScratch th name inp obs) <> [].
Proof.
  assert (H : exists rest, turnScratch th name inp obs = 84 :: rest)
    by (eexists; reflexivity).
  destruct H as [rest ->]. by apply trim_nonempty.
Qed.

(** The prompt built from a scratchpad that is not blank ends with a
    user message that contains the scratchpad. *)
Lemma prompt_shows_scratchpad agent task st :
  trim (st_scratchpad st) <> [] ->
  exists c, last (prompt_of agent task st) = Some c /\ role c = Role.user /\
    exists pre, content c = pre ++ st_scratchpad st.
Proof.
  intros Hsp. unfold prompt_of, ReactPrompt.buildReactMessages. cbv zeta.
  rewrite app_assoc, last_snoc.
  eexists. split; [reflexivity |]. split; [reflexivity |]. cbn [content].
  rewrite bool_decide_true by (by destruct (trim (st_scratchpad st))).
  eexists. by rewrite app_assoc.
Qed.

(** A turn whose tool fails with an error that has a message. *)
Lemma turn_tool_failure agent task ctx st llmOutput w1 w2 th name inp m (t : Tool W) :
  complete (llm agent) (prompt_of agent task st) (st_world st) = (Ok llmOutput, w1) ->
  ReactParser.parseReactOutput llmOutput = Ok (action th name inp) ->
  toolMap agent !! name = Some t ->
  execute t inp ctx w1 = (Throw (Error m), w2) ->
  turn agent task ctx st
  = Continue
      {| st_thoughts := st_thoughts st ++
           [ {| thought := th;
                action_of := Some {| toolName := name; input := inp |};
                observation := Some (js "Tool execution failed: " ++ m);
                rawOutput := Some llmOutput |} ];
         st_scratchpad :=
           (let scratch := turnScratch th name inp (js "Tool execution failed: " ++ m) in
            if bool_decide (length (st_scratchpad st) <> O)
            then st_scratchpad st ++ js (nl ++ nl) ++ scratch
            else scratch);
         st_world := w2;
         st_log := (st_log st ++ [ModelCall (prompt_of agent task st) (Ok llmOutput)])
                   ++ [ToolCall name inp (Throw (Error m))] |}.
Proof.
  intros Hllm Hparse Hsome Hexec. unfold turn, prompt_of in *.
  by rewrite Hllm, Hparse, Hsome, Hexec.
Qed.

End AgentRecovery.

(** C4.  When the reply of a turn names a registered tool and the
    tool throws or rejects with an error whose message is [m], the turn
    does not end the run: it appends the step record whose observation
    is ["Tool execution failed: " ++ m], the loop goes on from the new
    state, and the prompt of the next turn ends with a user message that
    contains that observation. *)
Theorem tool_failure_becomes_observation {W : Type} (agent : Agent.ReactAgent W)
    (task : jsstring) (ctx : ToolExecutionContext) (st : Agent.state W)
    (llmOutput : jsstring) (w1 w2 : W) (th name inp m : jsstring) (t : Tool W) :
  Agent.complete (Agent.llm agent) (AgentSpec.prompt_of agent task st) (Agent.st_world st)
    = (Ok llmOutput, w1) ->
  ReactParser.parseReactOutput llmOutput = Ok (action th name inp) ->
  Agent.toolMap agent !! name = Some t ->
  execute t inp ctx w1 = (Throw (Error m), w2) ->
  exists st',
    Agent.turn agent task ctx st = Agent.Continue st' /\
    Agent.st_thoughts st' = Agent.st_thoughts st ++
      [ {| thought := th;
           action_of := Some {| toolName := name; input := inp |};
           observation := Some (js "Tool execution failed: " ++ m);
           rawOutput := Some llmOutput |} ] /\
    (forall remaining,
       Agent.loop agent task ctx (S remaining) st = Agent.loop agent task ctx remaining st') /\
    exists c, last (AgentSpec.prompt_of agent task st') = Some c /\ role c = Role.user /\
      includes (js "Observation: Tool execution failed: " ++ m) (content c) = true.
Proof.
  intros Hllm Hparse Hsome Hexec.
  pose proof (turn_tool_failure agent task ctx st llmOutput w1 w2 th name inp m t
                Hllm Hparse Hsome Hexec) as Hturn.
  eexists. split; [exact Hturn |]. cbn [Agent.st_thoughts]. split; [reflexivity |]. split.
  - intros remaining. cbn [Agent.loop]. by rewrite Hturn.
  - set (obs := js "Tool execution failed: " ++ m).
    match goal with |- context [AgentSpec.prompt_of _ _ ?s] => set (st' := s) end.
    destruct (turnScratch_ends_with_observation th name inp obs) as [pre Hpre].
    assert (Hsp : exists before, Agent.st_scratchpad st'
                    = before ++ Agent.turnScratch th name inp obs).
    { subst st'; cbn [Agent.st_scratchpad]. case_bool_decide.
      - exists (Agent.st_scratchpad st ++ js (nl ++ nl)). by rewrite <- app_assoc.
      - by exists []. }
    destruct Hsp as [before Hsp].
    destruct (prompt_shows_scratchpad agent task st') as (c & Hlast & Hrole & pre' & Hc).
    { rewrite Hsp. apply turnScratch_not_blank. }
    exists c. split; [done | split; [done |]].
    rewrite Hc, Hsp, Hpre. apply includes_spec.
    exists (pre' ++ before ++ pre), []. subst obs.
    rewrite app_nil_r, <- !app_assoc. reflexivity.
Qed.

Lemma tool_failure_becomes_observation_witness :
  let agent := Scenario.agent_with [Scenario.on_files (createReadFileTool (js "/"))] None in
  let w := {| Scenario.replies := [Scenario.act "read_file" "missing.txt"];
              Scenario.files := Scenario.tree |} in
  exists st',
    Agent.turn agent (js "show it") Scenario.repo (AgentSpec.initial w)
    = Agent.Continue st' /\
    Agent.st_thoughts st' =
      [ {| thought := js "try";
           action_of := Some {| toolName := js "read_file"; input := js "missing.txt" |};
           observation :=
             Some (js "Tool execution failed: ENOENT: no such file or directory, stat '/repo/missing.txt'");
           rawOutput := Some (Scenario.act "read_file" "missing.txt") |} ].
Proof.
  cbv zeta.
  destruct (tool_failure_becomes_observation
    (Scenario.agent_with [Scenario.on_files (createReadFileTool (js "/"))] None)
    (js "show it") Scenario.repo
    (AgentSpec.initial
       {| Scenario.replies := [Scenario.act "read_file" "missing.txt"];
          Scenario.files := Scenario.tree |})
    (Scenario.act "read_file" "missing.txt")
    {| Scenario.replies := []; Scenario.files := Scenario.tree |}
    {| Scenario.replies := []; Scenario.files := Scenario.tree |}
    (js "try") (js "read_file") (js "missing.txt")
    (js "ENOENT: no such file or directory, stat '/repo/missing.txt'")
    (Scenario.on_files (createReadFileTool (js "/"))))
    as (st' & Hturn & Hthoughts & _).
  - reflexivity.
  - vm_compute. reflexivity.
  - apply (toolMap_lookup_last Scenario.scripted_llm _ []
             [] (Scenario.on_files (createReadFileTool (js "/")))); [reflexivity | constructor].
  - vm_compute. reflexivity.
  - exists st'. split; [exact Hturn | exact Hthoughts].
Defined.

Section AgentRecords.
Context {W : Type}.
Import Agent AgentSpec.
Implicit Types (agent : ReactAgent W) (st : state W) (ctx : ToolExecutionContext).

Lemma records_follow_snoc ts log r raw (rest : list event) :
  records_follow_replies ts log ->
  rawOutput r = Some raw ->
  model_replies rest = [Ok raw] ->
  records_follow_replies (ts ++ [r]) (log ++ rest).
Proof.
  intros H Hr Hrest. unfold records_follow_replies, model_replies in *.
  rewrite omap_app, Hrest. apply Forall2_app; [done |].
  constructor; [by exists raw | constructor].
Qed.

(** The ways a turn can end without throwing. *)
Lemma turn_continue agent task ctx st st' :
  between_turns st ->
  turn agent task ctx st = Continue st' ->
  between_turns st'.
Proof.
  intros [Hrec Hact]. unfold turn.
  destruct (complete _ _ _) as [[llmOutput|e] w1]; [| done].
  destruct (ReactParser.parseReactOutput llmOutput) as [[th name inp|th out]|e] eqn:Hp;
    [| done | done].
  destruct (toolMap agent !! name) as [t|]; [| done].
  destruct (execute t inp ctx w1) as [settled w2].
  destruct settled as [text|[m| | | |raised]]; cbn; try done.
  all: intros [= <-]; split; cbn [st_thoughts st_log].
  all: try (rewrite <- app_assoc; eapply records_follow_snoc; [done | done | done]).
  all: apply Forall_app; split; [done |]; constructor; [| constructor].
  all: by repeat eexists.
Qed.

Lemma turn_return agent task ctx st result w' log :
  between_turns st ->
  turn agent task ctx st = Return result w' log ->
  records_follow_replies (thoughts result) log /\
  exists f, thoughts result = st_thoughts st ++ [f] /\ final_record (output result) f.
Proof.
  intros [Hrec Hact]. unfold turn.
  destruct (complete _ _ _) as [[llmOutput|e] w1]; [| done].
  destruct (ReactParser.parseReactOutput llmOutput) as [[th name inp|th out]|e] eqn:Hp;
    [| | done].
  - destruct (toolMap agent !! name) as [t|]; [| done].
    destruct (execute t inp ctx w1) as [settled w2].
    by destruct settled as [text|[m| | | |raised]].
  - intros [= <- <- <-]. cbn [thoughts output]. split.
    + eapply records_follow_snoc; [done | done | done].
    + eexists. split; [done |]. by repeat eexists.
Qed.

Lemma loop_result_records agent task ctx n st result w' log :
  between_turns st ->
  loop agent task ctx n st = Return result w' log ->
  records_follow_replies (thoughts result) log /\
  ((output result = EXHAUSTED /\ Forall action_record (thoughts result)) \/
   (exists acts f, thoughts result = acts ++ [f] /\
      Forall action_record acts /\ final_record (output result) f)).
Proof.
  revert st; induction n as [|n IH]; intros st Hst; cbn [loop].
  - intros [= <- <- <-]. destruct Hst as [Hrec Hact]. split; [done |]. by left.
  - destruct (turn agent task ctx st) as [st1|r w1 l1|e w1 l1] eqn:Hturn.
    + apply IH. by eapply turn_continue.
    + intros [= <- <- <-].
      destruct (turn_return _ _ _ _ _ _ _ Hst Hturn) as (Hrec & f & Hf & Hfinal).
      split; [done |]. right. exists (st_thoughts st), f.
      split; [done |]. split; [apply Hst | done].
    + done.
Qed.

End AgentRecords.

(** C10.  In every result a run returns, the step records follow the
    model replies one to one and in order, each holding the raw text of
    its reply; every record is the record of an action turn (thought,
    tool name, tool input, observation, raw text), except that a run
    ended by a final response has, as its last record, the one record
    of that response, with the thought and the raw text and with neither
    action nor observation. *)
Theorem run_result_records {W : Type} (pcwd : jsstring) (agent : Agent.ReactAgent W)
    (task : jsstring) (options : Agent.AgentRunOptions) (w w' : W)
    (result : AgentResult) (log : list Agent.event) :
  Agent.run pcwd agent task options w = Agent.Return result w' log ->
  AgentSpec.records_follow_replies (thoughts result) log /\
  ((output result = Agent.EXHAUSTED /\
      Forall AgentSpec.action_record (thoughts result)) \/
   (exists acts f, thoughts result = acts ++ [f] /\
      Forall AgentSpec.action_record acts /\
      AgentSpec.final_record (output result) f)).
Proof.
  unfold Agent.run. apply loop_result_records.
  split; [constructor | constructor].
Qed.

Lemma run_result_records_witness :
  let agent := Scenario.agent_with [Scenario.on_files (createListFilesTool (js "/"))] None in
  let w := {| Scenario.replies :=
                [Scenario.act "list_files" "src";
                 js ("Thought: ok" ++ nl ++ "Final Response: done")];
              Scenario.files := Scenario.tree |} in
  exists result log,
    Agent.run (js "/") agent (js "list files") Scenario.no_options w
    = Agent.Return result {| Scenario.replies := []; Scenario.files := Scenario.tree |} log /\
    output result = js "done" /\
    map observation (thoughts result) = [Some (js "b.txt"); None] /\
    AgentSpec.records_follow_replies (thoughts result) log.
Proof.
  cbv zeta. eexists _, _. split; [vm_compute; reflexivity |]. split; [reflexivity |].
  split; [reflexivity |].
  eapply (proj1 (run_result_records (js "/")
    (Scenario.agent_with [Scenario.on_files (createListFilesTool (js "/"))] None)
    (js "list files") Scenario.no_options
    {| Scenario.replies :=
         [Scenario.act "list_files" "src";
          js ("Thought: ok" ++ nl ++ "Final Response: done")];
       Scenario.files := Scenario.tree |}
    _ _ _ ltac:(vm_compute; reflexivity))).
Defined.

(** A final response in the first reply ends the run in one turn, with
    one record that has no action. *)
Example final_response_on_first_turn :
  exists log,
    Agent.run (js "/")
      (Scenario.agent_with [Scenario.on_files (createListFilesTool (js "/"))] None)
      (js "list files") Scenario.no_options
      {| Scenario.replies := [js ("Thought: ok" ++ nl ++ "Final Response: done")];
         Scenario.files := Scenario.tree |}
    = Agent.Return
        {| output := js "done";
           thoughts := [ {| thought := js "ok"; action_of := None; observation := None;
                            rawOutput :=
                              Some (js ("Thought: ok" ++ nl ++ "Final Response: done")) |} ] |}
        {| Scenario.replies := []; Scenario.files := Scenario.tree |} log.
Proof. eexists. vm_compute. reflexivity. Qed.

Section AgentExhaustion.
Context {W : Type}.
Import Agent AgentSpec.

(** A turn goes on to the next exactly when the model replies, the reply
    parses to an action, the tool is registered, and what the tool
    settles to is not a rejection whose message cannot be rendered. *)
Lemma turn_continues (agent : ReactAgent W) (task : jsstring)
    (ctx : ToolExecutionContext) (st : state W) :
  (exists st', turn agent task ctx st = Continue st') <->
  exists raw w1 th name inp t settled w2,
    complete (llm agent) (prompt_of agent task st) (st_world st) = (Ok raw, w1) /\
    ReactParser.parseReactOutput raw = Ok (action th name inp) /\
    toolMap agent !! name = Some t /\
    execute t inp ctx w1 = (settled, w2) /\
    (forall rejected, settled = Throw rejected ->
       exists message, message_of rejected = Ok message).
Proof.
  unfold turn, prompt_of.
  destruct (complete _ _ _) as [[raw|e] w1] eqn:Hllm.
  2: { split; [by intros [? ?] | by intros (? & ? & ? & ? & ? & ? & ? & ? & ? & _)]. }
  destruct (ReactParser.parseReactOutput raw) as [[th name inp|th out]|e] eqn:Hparse.
  2, 3: split; [by intros [? ?] |];
        intros (? & ? & ? & ? & ? & ? & ? & ? & [= <- <-] & ? & _); congruence.
  destruct (toolMap agent !! name) as [t|] eqn:Hmap.
  2: { split; [by intros [? ?] |].
       intros (? & ? & ? & ? & ? & ? & ? & ? & [= <- <-] & ? & ? & _). congruence. }
  destruct (execute t inp ctx w1) as [settled w2] eqn:Hexec.
  split.
  - intros [st' Hst']. exists raw, w1, th, name, inp, t, settled, w2.
    repeat split; try done. intros rejected ->.
    destruct rejected as [m| | | |raised]; cbn in Hst'; try done; cbn; eauto.
  - intros (? & ? & ? & ? & ? & ? & settled' & ? & [= <- <-] & Hp & Hm & Hexec'
              & Hreadable).
    assert (settled' = settled) as -> by congruence.
    destruct settled as [text|[m| | | |raised]]; cbn; eauto;
      by destruct (Hreadable _ eq_refl) as [message Hmessage].
Qed.

(** When every turn goes on to the next, the run ends in the exhaustion
    output with one record per turn. *)
Lemma loop_exhausts (agent : ReactAgent W) (task : jsstring)
    (ctx : ToolExecutionContext) (Inv : state W -> Prop) :
  (forall st, Inv st -> exists st', turn agent task ctx st = Continue st' /\ Inv st') ->
  forall n st, Inv st -> between_turns st ->
    exists ts w log,
      loop agent task ctx n st
      = Return {| output := EXHAUSTED; thoughts := st_thoughts st ++ ts |} w log /\
      length ts = n /\ Forall action_record ts.
Proof.
  intros Hstep n; induction n as [|n IH]; intros st Hst Hbetween; cbn [loop].
  - exists [], (st_world st), (st_log st). by rewrite app_nil_r.
  - destruct (Hstep st Hst) as (st' & Hturn & Hst'). rewrite Hturn.
    pose proof (turn_continue agent task ctx st st' Hbetween Hturn) as Hbetween'.
    destruct (IH st' Hst' Hbetween') as (ts & w & log & Hloop & Hlen & Hts).
    assert (Hgrow : exists r, st_thoughts st' = st_thoughts st ++ [r] /\ action_record r).
    { clear -Hturn Hbetween'. unfold turn in Hturn.
      destruct (complete _ _ _) as [[raw|e] w1]; [| done].
      destruct (ReactParser.parseReactOutput raw) as [[th name inp|th out]|e]; try done.
      destruct (toolMap agent !! name) as [t|]; [| done].
      destruct (execute t inp ctx w1) as [settled w2].
      destruct Hbetween' as [_ Hall].
      destruct settled as [text|[m| | | |raised]]; try done; cbn in Hturn;
        injection Hturn as <-; cbn [st_thoughts] in *;
        (eexists; split; [reflexivity |]);
        apply Forall_app in Hall as [_ Hall]; by inversion Hall. }
    destruct Hgrow as (r & Hgrow & Hr).
    exists (r :: ts), w, log. rewrite Hloop, Hgrow, <- app_assoc. cbn [app length].
    split; [done |]. split; [by rewrite Hlen | by constructor].
Qed.

End AgentExhaustion.

(** C5 (the code departs from it).  Eight replies that each parse to an
    action naming the registered tool [node], none of them final; the
    script of each is [throw null], so the promise of the tool rejects
    with [null].  The [catch] clause of the loop reads [.message] of
    [null], and the run throws that [TypeError] in its first turn
    instead of returning the exhaustion output. *)
Theorem run_throws_when_tool_rejects_null :
  let node := Scenario.on_files (System.createNodeTool (js "/") ∅ Scenario.vm_throw_null) in
  let agent := Scenario.agent_with [node] None in
  let w := {| Scenario.replies := replicate 8 (Scenario.act "node" "throw null");
              Scenario.files := Scenario.tree |} in
  Agent.maxTurns agent = 8%Z /\
  Forall (fun reply =>
            ReactParser.parseReactOutput reply
              = Ok (action (js "try") (js "node") (js "throw null")) /\
            is_Some (Agent.toolMap agent !! js "node")) (Scenario.replies w) /\
  exists log,
    Agent.run (js "/") agent (js "compute") Scenario.no_options w
    = Agent.Raise (Error (js "Cannot read properties of null (reading 'message')"))
        {| Scenario.replies := replicate 7 (Scenario.act "node" "throw null");
           Scenario.files := Scenario.tree |} log /\
    AgentSpec.model_replies log = [Ok (Scenario.act "node" "throw null")] /\
    AgentSpec.tool_calls log = [(js "node", js "throw null")].
Proof.
  cbv zeta. split; [reflexivity |]. split.
  - apply Forall_forall. intros reply Hin. apply elem_of_replicate in Hin as [-> _].
    split; [vm_compute; reflexivity |]. eexists.
    apply (toolMap_lookup_last Scenario.scripted_llm _ [] []
             (Scenario.on_files
                (System.createNodeTool (js "/") ∅ Scenario.vm_throw_null)));
      [reflexivity | constructor].
  - eexists. split; [vm_compute; reflexivity |]. split; vm_compute; reflexivity.
Qed.

(** ** Paths *)
Section PathFacts.
Import Path PathSpec.

Lemma split_not_nil (s : jsstring) : split s <> [].
Proof.
  destruct s as [|x s]; [done |]. cbn [split].
  destruct (x =? SLASH); [done |]. by destruct (split s).
Qed.

Lemma split_app_sep (a b : jsstring) :
  split (a ++ SLASH :: b) = split a ++ split b.
Proof.
  induction a as [|x a IH]; cbn [split app].
  - by rewrite N.eqb_refl.
  - destruct (x =? SLASH); [by rewrite IH |].
    rewrite IH. pose proof (split_not_nil a). by destruct (split a).
Qed.

Lemma split_no_slash (s : jsstring) : SLASH ∉ s -> split s = [s].
Proof.
  induction s as [|x s IH]; [done |]. intros Hx. cbn [split].
  rewrite not_elem_of_cons in Hx. destruct Hx as [Hne Hs].
  destruct (N.eqb_spec x SLASH); [congruence |]. by rewrite IH.
Qed.

Lemma split_segments (s : jsstring) : Forall (fun seg => SLASH ∉ seg) (split s).
Proof.
  induction s as [|x s IH]; cbn [split].
  - constructor; [apply not_elem_of_nil | constructor].
  - destruct (N.eqb_spec x SLASH).
    + constructor; [apply not_elem_of_nil | done].
    + destruct (split s) as [|seg rest]; inversion IH; subst.
      * constructor; [| constructor]. rewrite not_elem_of_cons.
        split; [congruence | apply not_elem_of_nil].
      * constructor; [| done]. rewrite not_elem_of_cons. split; [congruence | done].
Qed.

Lemma split_join (segs : list jsstring) :
  segs <> [] -> Forall (fun seg => SLASH ∉ seg) segs -> split (join sep segs) = segs.
Proof.
  induction segs as [|p segs IH]; [done |]. intros _ H.
  inversion H as [|? ? Hp Hsegs]; subst.
  destruct segs as [|q segs].
  - by apply split_no_slash.
  - change (join sep (p :: q :: segs)) with (p ++ SLASH :: join sep (q :: segs)).
    rewrite split_app_sep, split_no_slash by done.
    by rewrite IH.
Qed.

Lemma join_app (a b : list jsstring) :
  a <> [] -> b <> [] -> join sep (a ++ b) = join sep a ++ sep ++ join sep b.
Proof.
  induction a as [|p a IH]; [done |]. intros _ Hb.
  destruct a as [|q a].
  - destruct b; [done | reflexivity].
  - change (join sep ((p :: q :: a) ++ b)) with (p ++ sep ++ join sep ((q :: a) ++ b)).
    rewrite IH by done. cbn [join]. by rewrite <- !app_assoc.
Qed.

Lemma components_app_sep (a b : jsstring) :
  components (a ++ sep ++ b) = components a ++ components b.
Proof.
  unfold components, sep. cbn [app]. by rewrite split_app_sep, filter_app.
Qed.

Lemma filter_proper (segs : list jsstring) :
  Forall proper_segment segs -> filter (fun seg => seg <> []) segs = segs.
Proof.
  induction 1 as [|seg segs [Hne _] _ IH]; [done |].
  rewrite filter_cons_True by done. by rewrite IH.
Qed.

(** An absolute normalized path is determined by its components. *)
Lemma components_normal (segs : list jsstring) :
  Forall proper_segment segs -> components (sep ++ join sep segs) = segs.
Proof.
  intros H. unfold components, sep. cbn [app split]. rewrite N.eqb_refl.
  rewrite filter_cons_False by (by intros ?).
  destruct segs as [|p segs]; [done |].
  rewrite split_join; [by apply filter_proper | done |].
  eapply Forall_impl; [exact H |]. by intros seg (_ & _ & _ & ?).
Qed.

Lemma normalizeSegments_proper (segs acc : list jsstring) :
  Forall (fun seg => SLASH ∉ seg) segs ->
  Forall proper_segment acc ->
  Forall proper_segment (normalizeSegments false segs acc).
Proof.
  revert acc; induction segs as [|seg segs IH]; intros acc Hsegs Hacc; cbn [normalizeSegments].
  - apply Forall_forall. intros x Hx. rewrite Forall_forall in Hacc. apply Hacc.
    apply list_elem_of_In. apply in_rev. by apply list_elem_of_In.
  - inversion Hsegs as [|? ? Hseg Hrest]; subst.
    repeat case_bool_decide; cbn [orb andb]; try (by apply IH).
    + destruct acc as [|top acc]; [by apply IH |].
      apply IH; [done |]. by inversion Hacc.
    + apply IH; [done |]. constructor; [| done]. by repeat split.
Qed.

Lemma resolve_scan_absolute (pcwd : jsstring) (l : list jsstring) (acc : jsstring) :
  isAbsolute pcwd = true -> exists rp, resolve_scan (l ++ [pcwd]) acc = (rp, true).
Proof.
  intros Habs. revert acc; induction l as [|p l IH]; intros acc; cbn [app resolve_scan].
  - case_bool_decide as Hnil; [by subst |]. rewrite Habs. eauto.
  - case_bool_decide; [apply IH |]. destruct (isAbsolute p); [eauto | apply IH].
Qed.

(** In a process whose working directory is absolute, [path.resolve]
    returns an absolute normalized path. *)
Lemma resolve_normal (pcwd : jsstring) (args : list jsstring) :
  isAbsolute pcwd = true ->
  exists segs, resolve pcwd args = sep ++ join sep segs /\ Forall proper_segment segs.
Proof.
  intros Habs. unfold resolve.
  destruct (resolve_scan_absolute pcwd (rev args) [] Habs) as [rp ->].
  cbn [negb]. unfold normalizeString. eexists. split; [reflexivity |].
  apply normalizeSegments_proper; [apply split_segments | constructor].
Qed.

End PathFacts.

Section Confinement.
Import Path PathSpec.
Variable pcwd : jsstring.
Hypothesis pcwd_absolute : isAbsolute pcwd = true.

Lemma resolveRepoPath_unfold (P : jsstring) (ctx : ToolExecutionContext) :
  resolveRepoPath pcwd P ctx =
  let root := resolve pcwd [cwd ctx] in
  let target := candidate_target pcwd P ctx in
  if negb (bool_decide (target = root)) && negb (startsWith (root ++ sep) target)
  then Throw AccessViolation else Ok target.
Proof. reflexivity. Qed.

Lemma accepted_within (root target : jsstring) :
  target = root \/ startsWith (root ++ sep) target = true -> within root target.
Proof.
  unfold within. intros [-> | H]; [done |].
  apply startsWith_spec in H as [r ->].
  rewrite <- app_assoc, components_app_sep. by apply prefix_app_r.
Qed.

Lemma within_accepted (rs ts : list jsstring) :
  Forall proper_segment rs -> Forall proper_segment ts -> rs <> [] ->
  within (sep ++ join sep rs) (sep ++ join sep ts) ->
  sep ++ join sep ts = sep ++ join sep rs \/
  startsWith ((sep ++ join sep rs) ++ sep) (sep ++ join sep ts) = true.
Proof.
  intros Hrs Hts Hne. unfold within. rewrite !components_normal by done.
  intros [rest ->]. destruct rest as [|x rest].
  - left. by rewrite app_nil_r.
  - right. apply startsWith_spec. exists (join sep (x :: rest)).
    rewrite join_app by done. by rewrite <- !app_assoc.
Qed.

(** What [resolveRepoPath] returns is the resolution of the candidate,
    and it is the root or lies below it. *)
Lemma resolveRepoPath_returns (P : jsstring) (ctx : ToolExecutionContext) (t : jsstring) :
  resolveRepoPath pcwd P ctx = Ok t ->
  t = candidate_target pcwd P ctx /\ within (resolve pcwd [cwd ctx]) t.
Proof.
  rewrite resolveRepoPath_unfold. cbv zeta.
  destruct (_ && _) eqn:E; [done |]. intros [= <-]. split; [done |].
  apply accepted_within. apply andb_false_iff in E as [E | E].
  - left. apply negb_false_iff in E. by apply bool_decide_eq_true in E.
  - right. by apply negb_false_iff in E.
Qed.

End Confinement.

(** C1 (as the code has it).  In a process with an absolute working
    directory, [resolveRepoPath] either returns the resolution of the
    candidate against the root or throws the access violation; the
    resolution is an absolute path; a returned path is the root or lies
    below it, component by component, so a sibling such as [/root-evil]
    is never taken for a descendant of [/root]; and, for a root other
    than the file-system root, every candidate whose resolution is the
    root or lies below it is accepted, so that exactly the candidates
    that resolve outside the root are refused. *)
Theorem resolveRepoPath_confinement (pcwd P : jsstring) (ctx : ToolExecutionContext) :
  Path.isAbsolute pcwd = true ->
  let root := Path.resolve pcwd [cwd ctx] in
  let target := PathSpec.candidate_target pcwd P ctx in
  (resolveRepoPath pcwd P ctx = Ok target \/
   resolveRepoPath pcwd P ctx = Throw AccessViolation) /\
  Path.isAbsolute target = true /\
  (resolveRepoPath pcwd P ctx = Ok target -> PathSpec.within root target) /\
  (root <> Path.sep -> PathSpec.within root target ->
   resolveRepoPath pcwd P ctx = Ok target) /\
  (~ PathSpec.within root target -> resolveRepoPath pcwd P ctx = Throw AccessViolation).
Proof.
  intros Habs root target. rewrite resolveRepoPath_unfold. fold root target. cbv zeta.
  destruct (resolve_normal pcwd [cwd ctx] Habs) as (rs & Hroot & Hrs).
  assert (Htarget : exists ts, target = Path.sep ++ join Path.sep ts
                               /\ Forall PathSpec.proper_segment ts).
  { apply resolve_normal, Habs. }
  destruct Htarget as (ts & Htarget & Hts).
  assert (Hsound : negb (bool_decide (target = root))
                   && negb (startsWith (root ++ Path.sep) target) = false ->
                   PathSpec.within root target).
  { intros H. apply accepted_within. apply andb_false_iff in H as [H | H].
    - left. apply negb_false_iff in H. by apply bool_decide_eq_true in H.
    - right. by apply negb_false_iff in H. }
  split; [| split; [| split; [| split]]].
  - destruct (_ && _); [by right | by left].
  - by rewrite Htarget.
  - destruct (_ && _) eqn:E; [done | intros _; by apply Hsound].
  - intros Hne Hwithin.
    assert (Hrs_ne : rs <> []) by (intros ->; by apply Hne).
    fold root in Hroot. rewrite Hroot, Htarget in Hwithin |- *.
    destruct (within_accepted rs ts Hrs Hts Hrs_ne Hwithin) as [-> | ->].
    + by rewrite bool_decide_true.
    + by rewrite andb_false_r.
  - intros Hout. destruct (_ && _) eqn:E; [done |]. exfalso. by apply Hout, Hsound.
Qed.

Lemma resolveRepoPath_confinement_witness :
  resolveRepoPath (js "/") (js "src/../a.txt") {| cwd := js "/repo"; env := None |}
  = Ok (js "/repo/a.txt").
Proof.
  refine (proj1 (proj2 (proj2 (proj2
    (resolveRepoPath_confinement (js "/") (js "src/../a.txt")
       {| cwd := js "/repo"; env := None |} _)))) _ _).
  - reflexivity.
  - vm_compute. discriminate.
  - exists [js "a.txt"]. vm_compute. reflexivity.
Defined.

(** An absolute candidate outside the root is not refused: it is
    resolved as a path relative to the root. *)
Lemma absolute_candidate_is_rerooted :
  Path.isAbsolute (js "/etc/passwd") = true /\
  ~ PathSpec.within (js "/repo") (js "/etc/passwd") /\
  resolveRepoPath (js "/") (js "/etc/passwd") {| cwd := js "/repo"; env := None |}
  = Ok (js "/repo/etc/passwd").
Proof.
  split; [reflexivity |]. split; [| vm_compute; reflexivity].
  intros [k Hk]. vm_compute in Hk. discriminate.
Qed.

(** ** The regular expression matcher *)
Section RegexFacts.
Import Regex ParserSpec.

Abbreviation caps := (list (option (list N))) (only parsing).

Lemma star_greedy_spec p k K :
  decides k K -> forall s c,
  is_Some (star_greedy p s c k) <->
  exists s1 s2, s = s1 ++ s2 /\ Forall (fun x => p x = true) s1 /\ K s2.
Proof.
  intros Hk s c. induction s as [|x s IH]; cbn [star_greedy].
  - rewrite (Hk [] c). split.
    + intros H. by exists [], [].
    + intros (s1 & s2 & Hs & _ & H). symmetry in Hs.
      apply app_eq_nil in Hs as [_ ->]. done.
  - destruct (p x) eqn:Hp.
    + destruct (star_greedy p s c k) as [r|] eqn:Hg.
      * split; [intros _ | by eauto].
        destruct (proj1 IH) as (s1 & s2 & -> & H1 & H2); [by eauto |].
        exists (x :: s1), s2. by repeat split; [constructor |].
      * rewrite (Hk (x :: s) c). split.
        -- intros H. by exists [], (x :: s).
        -- intros (s1 & s2 & Hs & H1 & H2). destruct s1 as [|y s1].
           ++ cbn in Hs. by subst.
           ++ injection Hs as <- ->. inversion H1; subst.
              assert (is_Some (None : option caps)) as [? ?]; [| done].
              apply IH. by exists s1, s2.
    + rewrite (Hk (x :: s) c). split.
      * intros H. by exists [], (x :: s).
      * intros (s1 & s2 & Hs & H1 & H2). destruct s1 as [|y s1].
        -- cbn in Hs. by subst.
        -- injection Hs as <- ->. inversion H1; subst. congruence.
Qed.

Lemma star_lazy_spec p k K :
  decides k K -> forall s c,
  is_Some (star_lazy p s c k) <->
  exists s1 s2, s = s1 ++ s2 /\ Forall (fun x => p x = true) s1 /\ K s2.
Proof.
  intros Hk s c. induction s as [|x s IH]; cbn [star_lazy].
  - destruct (k [] c) as [r|] eqn:Hr.
    + split; [intros _ | by eauto]. exists [], []. repeat split; [done |].
      apply (Hk [] c). by rewrite Hr.
    + split; [by intros [? ?] |]. intros (s1 & s2 & Hs & _ & H). symmetry in Hs.
      apply app_eq_nil in Hs as [_ ->]. apply (Hk [] c) in H. rewrite Hr in H.
      by destruct H.
  - destruct (k (x :: s) c) as [r|] eqn:Hr.
    + split; [intros _ | by eauto]. exists [], (x :: s). repeat split; [done |].
      apply (Hk (x :: s) c). by rewrite Hr.
    + assert (HnK : ~ K (x :: s)).
      { intros H. apply (Hk (x :: s) c) in H. rewrite Hr in H. by destruct H. }
      destruct (p x) eqn:Hp.
      * rewrite IH. split.
        -- intros (s1 & s2 & -> & H1 & H2). exists (x :: s1), s2.
           by repeat split; [constructor |].
        -- intros (s1 & s2 & Hs & H1 & H2). destruct s1 as [|y s1].
           ++ cbn in Hs. by subst.
           ++ injection Hs as <- ->. inversion H1; subst. by exists s1, s2.
      * split; [by intros [? ?] |]. intros (s1 & s2 & Hs & H1 & H2).
        destruct s1 as [|y s1].
        -- cbn in Hs. by subst.
        -- injection Hs as <- ->. inversion H1; subst. congruence.
Qed.

(** The matcher finds a match exactly when the pattern has one. *)
Lemma run_spec r : forall k K, decides k K -> forall s c,
  is_Some (run r s c k) <->
  exists s1 s2, s = s1 ++ s2 /\ Matches r s1 s2 /\ K s2.
Proof.
  induction r as [a|p|g p|p|r1 IH1 r2 IH2|r1 IH1 r2 IH2| |i r IH];
    intros k K Hk s c; cbn [run].
  - destruct s as [|x s].
    + split; [by intros [? ?] |]. intros (s1 & s2 & Hs & Hm & _).
      inversion Hm; subst. done.
    + destruct (N.eqb_spec (canonicalize a) (canonicalize x)) as [E|E].
      * rewrite (Hk s c). split.
        -- intros H. exists [x], s. by repeat split; [constructor |].
        -- intros (s1 & s2 & Hs & Hm & H). inversion Hm; subst.
           by injection Hs as -> ->.
      * split; [by intros [? ?] |]. intros (s1 & s2 & Hs & Hm & _).
        inversion Hm; subst. injection Hs as -> ->. done.
  - destruct s as [|x s].
    + split; [by intros [? ?] |]. intros (s1 & s2 & Hs & Hm & _).
      inversion Hm; subst. done.
    + destruct (p x) eqn:E.
      * rewrite (Hk s c). split.
        -- intros H. exists [x], s. by repeat split; [constructor |].
        -- intros (s1 & s2 & Hs & Hm & H). inversion Hm; subst.
           by injection Hs as -> ->.
      * split; [by intros [? ?] |]. intros (s1 & s2 & Hs & Hm & _).
        inversion Hm; subst. injection Hs as -> ->. congruence.
  - assert (Hstar : is_Some (if g then star_greedy p s c k else star_lazy p s c k) <->
              exists s1 s2, s = s1 ++ s2 /\ Forall (fun x => p x = true) s1 /\ K s2).
    { destruct g; [by apply star_greedy_spec | by apply star_lazy_spec]. }
    destruct g; rewrite Hstar.
    all: split; intros (s1 & s2 & Hs & H1 & H2); exists s1, s2.
    all: split; [done |]; split; [| done].
    all: first [by constructor | by inversion H1].
  - destruct s as [|x s].
    + split; [by intros [? ?] |]. intros (s1 & s2 & Hs & Hm & _).
      inversion Hm; subst. symmetry in Hs. apply app_eq_nil in Hs as [-> _]. done.
    + destruct (p x) eqn:E.
      * rewrite (star_greedy_spec p k K Hk). split.
        -- intros (s1 & s2 & -> & H1 & H2). exists (x :: s1), s2.
           repeat split; [| done]. constructor; [done | by constructor].
        -- intros (s1 & s2 & Hs & Hm & H). inversion Hm as [| | |? ? ? Hne Hall| | | | |]; subst.
           destruct s1 as [|y s1]; [done |]. injection Hs as <- ->.
           inversion Hall; subst. by exists s1, s2.
      * split; [by intros [? ?] |]. intros (s1 & s2 & Hs & Hm & _).
        inversion Hm as [| | |? ? ? Hne Hall| | | | |]; subst.
        destruct s1 as [|y s1]; [done |]. injection Hs as <- ->.
        inversion Hall; subst. congruence.
  - rewrite (IH1 (fun s' c' => run r2 s' c' k)
               (fun s' => exists s1 s2, s' = s1 ++ s2 /\ Matches r2 s1 s2 /\ K s2)).
    + split.
      * intros (s1 & s' & -> & H1 & s2 & s3 & -> & H2 & H3).
        exists (s1 ++ s2), s3. rewrite <- app_assoc. repeat split; [| done].
        by constructor.
      * intros (s12 & s3 & -> & Hm & H3). inversion Hm; subst.
        exists s1, (s2 ++ s3). rewrite <- app_assoc. repeat split; [done |].
        by exists s2, s3.
    + intros s' c'. by apply IH2.
  - specialize (IH1 k K Hk s c). specialize (IH2 k K Hk s c).
    destruct (run r1 s c k) as [res|].
    + split; [intros _ | by eauto].
      destruct (proj1 IH1) as (s1 & s2 & -> & H1 & H2); [by eauto |].
      exists s1, s2. repeat split; [| done]. by apply M_alt_l.
    + rewrite IH2. split.
      * intros (s1 & s2 & -> & H1 & H2). exists s1, s2.
        repeat split; [| done]. by apply M_alt_r.
      * intros (s1 & s2 & -> & Hm & H2). inversion Hm; subst.
        -- assert (is_Some (None : option caps)) as [? ?]; [| done].
           apply IH1. by exists s1, s2.
        -- by exists s1, s2.
  - destruct s as [|x s].
    + rewrite (Hk [] c). split.
      * intros H. exists [], []. repeat split; [constructor | done].
      * intros (s1 & s2 & Hs & Hm & H). by inversion Hm; subst.
    + split; [by intros [? ?] |]. intros (s1 & s2 & Hs & Hm & _).
      inversion Hm; subst. done.
  - rewrite (IH _ K).
    + split; intros (s1 & s2 & -> & Hm & H2); exists s1, s2; repeat split; try done.
      * by constructor.
      * by inversion Hm.
    + intros s' c'. apply Hk.
Qed.

(** [exec] finds a match exactly when the pattern matches somewhere. *)
Lemma exec_spec n r s :
  is_Some (exec n r s) <->
  exists pre s1 s2, s = pre ++ s1 ++ s2 /\ Matches r s1 s2.
Proof.
  assert (Hk : decides (fun (_ : list N) (c : caps) => Some c) (fun _ => True)).
  { intros s' c'. split; [done | by eauto]. }
  induction s as [|x s IH]; cbn [exec].
  - pose proof (run_spec r _ _ Hk [] (replicate n None)) as Hr.
    destruct (run r [] (replicate n None) _) as [c|].
    + split; [intros _ | by eauto].
      destruct (proj1 Hr) as (s1 & s2 & Hs & Hm & _); [by eauto |].
      by exists [], s1, s2.
    + split; [by intros [? ?] |]. intros (pre & s1 & s2 & Hs & Hm).
      symmetry in Hs. apply app_eq_nil in Hs as [-> Hs]. apply Hr. by exists s1, s2.
  - pose proof (run_spec r _ _ Hk (x :: s) (replicate n None)) as Hr.
    destruct (run r (x :: s) (replicate n None) _) as [c|].
    + split; [intros _ | by eauto].
      destruct (proj1 Hr) as (s1 & s2 & Hs & Hm & _); [by eauto |].
      by exists [], s1, s2.
    + rewrite IH. split.
      * intros (pre & s1 & s2 & -> & Hm). by exists (x :: pre), s1, s2.
      * intros (pre & s1 & s2 & Hs & Hm). destruct pre as [|y pre].
        -- assert (is_Some (None : option caps)) as [? ?]; [| done].
           apply Hr. by exists s1, s2.
        -- injection Hs as <- ->. by exists pre, s1, s2.
Qed.

End RegexFacts.

(** ** The response parser *)
Section ParserFacts.
Import Regex ParserSpec ReactParser.

Lemma Matches_seq r1 r2 s rest :
  Matches (Seq r1 r2) s rest <->
  exists s1 s2, s = s1 ++ s2 /\ Matches r1 s1 (s2 ++ rest) /\ Matches r2 s2 rest.
Proof.
  split.
  - inversion 1; subst. by eauto.
  - intros (s1 & s2 & -> & H1 & H2). by constructor.
Qed.

Lemma Matches_chr a s rest :
  Matches (Chr a) s rest <-> exists x, s = [x] /\ canonicalize a = canonicalize x.
Proof.
  split.
  - inversion 1; subst. by eauto.
  - intros (x & -> & H). by constructor.
Qed.

Lemma Matches_star g p s rest :
  Matches (Star g p) s rest <-> Forall (fun x => p x = true) s.
Proof. split; [by inversion 1 | by constructor]. Qed.

Lemma Matches_plus p s rest :
  Matches (Plus p) s rest <-> s <> [] /\ Forall (fun x => p x = true) s.
Proof. split; [by inversion 1 | intros [? ?]; by constructor]. Qed.

Lemma Matches_group i r s rest : Matches (Group i r) s rest <-> Matches r s rest.
Proof. split; [by inversion 1 | by constructor]. Qed.

Lemma Matches_word w r s rest :
  Matches (word w r) s rest <->
  exists lab s', s = lab ++ s' /\ same_letters w lab /\ Matches r s' rest.
Proof.
  revert s; induction w as [|a w IH]; intros s; cbn [word].
  - split.
    + intros H. exists [], s. by repeat split; [constructor |].
    + intros (lab & s' & -> & Hlab & H). by inversion Hlab; subst.
  - rewrite Matches_seq. split.
    + intros (s1 & s2 & -> & H1 & H2).
      apply Matches_chr in H1 as (x & -> & Hx).
      apply IH in H2 as (lab & s' & -> & Hlab & H).
      exists (x :: lab), s'. by repeat split; [constructor |].
    + intros (lab & s' & -> & Hlab & H). inversion Hlab as [|? x ? lab' Hx Hlab']; subst.
      exists [x], (lab' ++ s'). repeat split.
      * by apply Matches_chr; eauto.
      * apply IH. by exists lab', s'.
Qed.

Lemma any_all (s : jsstring) : Forall (fun x => any x = true) s.
Proof. by apply Forall_forall. Qed.

Lemma not_LF (x : N) : not_char LF x = true <-> x <> LF.
Proof.
  unfold not_char, canonicalize, LF. rewrite negb_true_iff, N.eqb_neq.
  cbn [N.leb N.compare Pos.compare Pos.compare_cont andb].
  destruct (97 <=? x) eqn:E1, (x <=? 122) eqn:E2; cbn [andb]; try done.
  apply N.leb_le in E1, E2. lia.
Qed.

Lemma final_re_found (s : jsstring) :
  is_Some (exec 1 final_re s) <-> final_present s.
Proof.
  rewrite exec_spec. unfold final_re, final_present. split.
  - intros (pre & s1 & s2 & -> & Hm).
    apply Matches_word in Hm as (lab & s' & -> & Hlab & Hm).
    apply Matches_seq in Hm as (a & b & -> & _ & Hb).
    apply Matches_group, Matches_plus in Hb as [Hb _].
    exists pre, lab, ((a ++ b) ++ s2). rewrite <- !app_assoc. repeat split; [done |].
    intros Hnil. apply app_eq_nil in Hnil as [_ Hnil].
    by apply app_eq_nil in Hnil as [-> _].
  - intros (pre & lab & rest & -> & Hlab & Hrest).
    exists pre, (lab ++ rest), []. rewrite app_nil_r. split; [done |].
    apply Matches_word. exists lab, rest. repeat split; [done |].
    apply Matches_seq. exists [], rest. repeat split.
    + by apply Matches_star.
    + apply Matches_group, Matches_plus. split; [done | apply any_all].
Qed.

Lemma action_re_found (s : jsstring) :
  is_Some (exec 2 action_re s) <-> action_present s.
Proof.
  rewrite exec_spec. unfold action_re, action_present. split.
  - intros (pre & s1 & s2 & -> & Hm).
    apply Matches_word in Hm as (lab & s' & -> & Hlab & Hm).
    apply Matches_seq in Hm as (ws & s3 & -> & Hws & Hm).
    apply Matches_star in Hws.
    apply Matches_seq in Hm as (name & s4 & -> & Hname & Hm).
    apply Matches_group, Matches_plus in Hname as [Hne Hname].
    apply Matches_seq in Hm as (lf & s5 & -> & Hlf & Hm).
    apply Matches_chr in Hlf as (x & -> & Hx).
    apply Matches_word in Hm as (lab2 & s6 & -> & Hlab2 & Hm).
    apply Matches_seq in Hm as (a & b & -> & _ & Hb).
    apply Matches_group, Matches_plus in Hb as [Hb _].
    assert (x = LF) as ->.
    { destruct (N.eq_dec x LF) as [|Hn]; [done |].
      apply not_LF in Hn. unfold not_char in Hn. rewrite Hx, N.eqb_refl in Hn. done. }
    exists pre, lab, ws, name, lab2, ((a ++ b) ++ s2).
    rewrite <- !app_assoc. repeat split; try done.
    + rewrite Forall_forall in Hname. intros Hin. by apply Hname, not_LF in Hin.
    + intros Hnil. apply app_eq_nil in Hnil as [_ Hnil].
      by apply app_eq_nil in Hnil as [-> _].
  - intros (pre & lab & ws & name & lab2 & rest & -> & Hlab & Hws & Hne & Hname
              & Hlab2 & Hrest).
    exists pre, (lab ++ ws ++ name ++ [LF] ++ lab2 ++ rest), [].
    rewrite app_nil_r. split; [done |].
    apply Matches_word. exists lab, (ws ++ name ++ [LF] ++ lab2 ++ rest).
    repeat split; [done |].
    apply Matches_seq. eexists ws, _. repeat split; [by apply Matches_star |].
    apply Matches_seq. eexists name, _. repeat split.
    { apply Matches_group, Matches_plus. split; [done |].
      apply Forall_forall. intros x Hx. apply not_LF. by intros ->. }
    apply Matches_seq. eexists [LF], _. repeat split; [by apply Matches_chr; eauto |].
    apply Matches_word. exists lab2, rest. repeat split; [done |].
    apply Matches_seq. exists [], rest. repeat split.
    + by apply Matches_star.
    + apply Matches_group, Matches_plus. split; [done | apply any_all].
Qed.

End ParserFacts.

(** C6 (as the code has it).  The parser returns exactly one shape,
    decided by the trimmed text, with labels matched without regard to
    the case of their letters: the final shape exactly when a
    [Final Response:] label is followed by at least one character (it
    has priority over an action); the action shape exactly when there is
    no such label and an [Action:] label is followed by optional white
    space, a tool-name line that is not empty, the line break, an
    [Action Input:] label and at least one character; and it throws the
    unparsable-response error exactly when the text has neither. *)
Theorem parseReactOutput_shape (t : jsstring) :
  ((exists th out, ReactParser.parseReactOutput t = Ok (final th out)) <->
     ParserSpec.final_present (trim t)) /\
  ((exists th name inp, ReactParser.parseReactOutput t = Ok (action th name inp)) <->
     ~ ParserSpec.final_present (trim t) /\ ParserSpec.action_present (trim t)) /\
  (ReactParser.parseReactOutput t = Throw ReactParser.UnparsableResponse <->
     ~ ParserSpec.final_present (trim t) /\ ~ ParserSpec.action_present (trim t)) /\
  (forall e, ReactParser.parseReactOutput t = Throw e ->
     e = ReactParser.UnparsableResponse).
Proof.
  unfold ReactParser.parseReactOutput. cbv zeta.
  pose proof (final_re_found (trim t)) as Hf.
  pose proof (action_re_found (trim t)) as Ha.
  destruct (Regex.exec 1 ReactParser.final_re (trim t)) as [fm|].
  - assert (Hfp : ParserSpec.final_present (trim t)) by (apply Hf; eauto).
    split; [| split; [| split]].
    + split; [done | by eauto].
    + split; [by intros (? & ? & ? & ?) | by intros [? _]].
    + split; [done | by intros [? _]].
    + done.
  - assert (Hfp : ~ ParserSpec.final_present (trim t)).
    { intros H. apply Hf in H. by destruct H. }
    destruct (Regex.exec 2 ReactParser.action_re (trim t)) as [am|].
    + assert (Hap : ParserSpec.action_present (trim t)) by (apply Ha; eauto).
      split; [| split; [| split]].
      * split; [by intros (? & ? & ?) | done].
      * split; [done | by eauto].
      * split; [done | by intros [_ ?]].
      * done.
    + assert (Hap : ~ ParserSpec.action_present (trim t)).
      { intros H. apply Ha in H. by destruct H. }
      split; [| split; [| split]].
      * split; [by intros (? & ? & ?) | done].
      * split; [by intros (? & ? & ? & ?) | by intros [_ ?]].
      * done.
      * by intros e [= <-].
Qed.

(** The text has a [Final Response:] label and still does not parse:
    nothing follows the label. *)
Lemma final_label_without_text_is_unparsable :
  ParserSpec.has_label (js "Final Response:")
    (js ("Thought: ok" ++ nl ++ "Final Response:")) /\
  ReactParser.parseReactOutput (js ("Thought: ok" ++ nl ++ "Final Response:"))
  = Throw ReactParser.UnparsableResponse.
Proof.
  split; [| vm_compute; reflexivity].
  exists (js ("Thought: ok" ++ nl)), (js "Final Response:"), [].
  split; [vm_compute; reflexivity |].
  unfold ParserSpec.same_letters. apply Forall2_same_length_lookup_2; [done |].
  intros i x y Hx Hy. congruence.
Qed.

(** ** The file tools *)
Section FileFacts.

Lemma trimStart_app_keeps (l b : jsstring) (c : N) :
  is_ws c = false -> exists l', trimStart (l ++ c :: b) = l' ++ c :: b.
Proof.
  intros Hc. induction l as [|x l [l' IH]]; cbn [app trimStart].
  - rewrite Hc. by exists [].
  - destruct (is_ws x); [by exists l' | by exists (x :: l)].
Qed.

Lemma trimEnd_idem (s : jsstring) : trimEnd (trimEnd s) = trimEnd s.
Proof. unfold trimEnd. by rewrite rev_involutive, trimStart_idem. Qed.

Lemma trimStart_trimEnd (s : jsstring) :
  trimStart s = s -> trimStart (trimEnd s) = trimEnd s.
Proof.
  destruct s as [|c s]; [done |]. intros Hs.
  assert (Hc : is_ws c = false).
  { cbn [trimStart] in Hs. destruct (is_ws c) eqn:E; [| done].
    destruct (trimStart_suffix s) as (ws & Hws & _).
    apply (f_equal (@length N)) in Hs. rewrite Hws in Hs at 2.
    rewrite length_cons, length_app in Hs. lia. }
  unfold trimEnd. cbn [rev].
  destruct (trimStart_app_keeps (rev s) [] c Hc) as [l' ->].
  rewrite rev_app_distr. cbn [rev app trimStart]. by rewrite Hc.
Qed.

Lemma trim_idem (s : jsstring) : trim (trim s) = trim s.
Proof.
  unfold trim. rewrite trimStart_trimEnd by apply trimStart_idem.
  apply trimEnd_idem.
Qed.

Lemma resolveRepoPath_trim (pcwd p : jsstring) (ctx : ToolExecutionContext) :
  resolveRepoPath pcwd (trim p) ctx = resolveRepoPath pcwd p ctx.
Proof. unfold resolveRepoPath. by rewrite trim_idem. Qed.

Lemma byteLength_bound (s : jsstring) :
  (Fs.byteLength s <= 3 * N.of_nat (length s))%N.
Proof.
  assert (G : forall n (s : jsstring), (length s <= n)%nat ->
                (Fs.byteLength s <= 3 * N.of_nat (length s))%N).
  { induction n as [|n IH]; intros [|c s'] Hlen; cbn [length] in *; try lia; try done.
    cbn [Fs.byteLength].
    pose proof (IH s' ltac:(lia)) as H1.
    destruct (c <? 128); [lia |]. destruct (c <? 2048); [lia |].
    destruct (Fs.is_high c); [| lia].
    destruct s' as [|d s'']; [cbn [length]; lia |].
    destruct (Fs.is_low d); [| lia].
    pose proof (IH s'' ltac:(cbn [length] in *; lia)) as H2. cbn [length] in *. lia. }
  by apply (G (length s)).
Qed.

Lemma toWellFormed_length (s : jsstring) : length (Fs.toWellFormed s) = length s.
Proof.
  assert (G : forall n (s : jsstring), (length s <= n)%nat ->
                length (Fs.toWellFormed s) = length s).
  { induction n as [|n IH]; intros [|c s'] Hlen; cbn [length] in *; try lia; try done.
    cbn [Fs.toWellFormed].
    destruct (Fs.is_high c).
    - destruct s' as [|d s'']; [done |]. destruct (Fs.is_low d); cbn [length] in *.
      + by rewrite (IH s'') by lia.
      + by rewrite (IH (d :: s'')) by (cbn [length]; lia).
    - destruct (Fs.is_low c); cbn [length]; by rewrite IH by lia. }
  by apply (G (length s)).
Qed.

(** What a successful [write_file] has done. *)
Lemma write_file_success (pcwd : jsstring) (JSON_parse : jsstring -> option Json.value)
    (input : jsstring) (ctx : ToolExecutionContext) (m m' : gmap (list N) Fs.entry)
    (p c msg : jsstring) :
  parseWritePayload JSON_parse input = Ok {| payload_path := p; payload_contents := c |} ->
  execute (createWriteFileTool pcwd JSON_parse) input ctx m = (Ok msg, m') ->
  exists target m1,
    resolveRepoPath pcwd p ctx = Ok target /\
    m' = <[target := Fs.File (Fs.toWellFormed c)]> m1 /\
    msg = js "Wrote " ++ decimal (N.of_nat (length c)) ++ js " characters to "
            ++ pathFromRepoRoot pcwd target ctx.
Proof.
  intros Hparse. cbn [execute createWriteFileTool]. rewrite Hparse.
  cbn [payload_path payload_contents].
  destruct (resolveRepoPath pcwd p ctx) as [target|e]; [| done].
  destruct (Fs.mkdir_recursive m (Path.dirname target)) as [[[]|e] m1]; [| done].
  unfold Fs.writeFile.
  destruct (m1 !! target) as [[text|]|].
  2: done.
  all: destruct (m1 !! Path.dirname target) as [[text'|]|]; try done.
  all: intros [= <- <-]; by exists target, m1.
Qed.

End FileFacts.

(** C7 (as the code has it).  After [write_file] has succeeded with the
    payload [{path: p, contents: c}] and a path [p] that is not blank,
    [read_file] on [p] fulfils and leaves the file system as it is.
    What it returns is decided by the text that was stored, which is
    [c] with every unpaired surrogate replaced by U+FFFD:
    - [c] itself, when [c] has at most 4000 characters and is
      well-formed UTF-16;
    - the stored text, when [c] has at most 4000 characters;
    - the first 4000 characters of the stored text followed by the
      truncation marker, when [c] is longer and the stored text has at
      most 200000 bytes in UTF-8;
    - the fixed size notice, when the stored text has more than 200000
      bytes. *)
Theorem write_then_read_roundtrip (pcwd : jsstring)
    (JSON_parse : jsstring -> option Json.value) (input : jsstring)
    (ctx : ToolExecutionContext) (m m' : gmap (list N) Fs.entry) (p c msg : jsstring) :
  parseWritePayload JSON_parse input = Ok {| payload_path := p; payload_contents := c |} ->
  execute (createWriteFileTool pcwd JSON_parse) input ctx m = (Ok msg, m') ->
  trim p <> [] ->
  exists text,
    execute (createReadFileTool pcwd) p ctx m' = (Ok text, m') /\
    ((length c <= 4000)%nat -> Fs.toWellFormed c = c -> text = c) /\
    ((length c <= 4000)%nat -> text = Fs.toWellFormed c) /\
    ((4000 < length c)%nat -> Fs.byteLength (Fs.toWellFormed c) <= 200000 ->
     text = take 4000 (Fs.toWellFormed c) ++ TRUNCATED) /\
    (200000 < Fs.byteLength (Fs.toWellFormed c) ->
     text = js "File too large to display (200KB limit).").
Proof.
  intros Hparse Hwrite Hp.
  destruct (write_file_success _ _ _ _ _ _ _ _ _ Hparse Hwrite)
    as (target & m1 & Htarget & -> & _).
  pose proof (toWellFormed_length c) as Hlen.
  pose proof (byteLength_bound (Fs.toWellFormed c)) as Hbytes. rewrite Hlen in Hbytes.
  cbn [execute createReadFileTool]. cbv zeta.
  rewrite bool_decide_false by done.
  rewrite resolveRepoPath_trim, Htarget.
  unfold Fs.stat, Fs.readFile. rewrite lookup_insert_eq. cbn [Fs.isDirectory Fs.size].
  destruct (N.ltb_spec 200000 (Fs.byteLength (Fs.toWellFormed c))) as [Hbig|Hsmall].
  { eexists. split; [reflexivity |].
    split; [intros; lia |]. split; [intros; lia |]. split; [intros; lia | done]. }
  rewrite Hlen.
  destruct (Nat.ltb_spec 4000 (length c)) as [Hlong|Hshort].
  - eexists. split; [reflexivity |].
    split; [intros; lia |]. split; [intros; lia |]. split; [done | intros; lia].
  - eexists. split; [reflexivity |].
    split; [by intros _ -> |]. split; [done |]. split; [intros; lia | intros; lia].
Qed.

Section RelativeFacts.
Import Path PathSpec.
Variable pcwd : jsstring.
Hypothesis pcwd_absolute : isAbsolute pcwd = true.

Lemma normalizeSegments_filter (b : bool) (l acc : list jsstring) :
  normalizeSegments b l acc
  = normalizeSegments b (filter (fun seg => seg <> []) l) acc.
Proof.
  revert acc; induction l as [|seg l IH]; intros acc; [done |].
  destruct (decide (seg = [])) as [-> | Hne].
  - rewrite filter_cons_False by (by intros ?). cbn [normalizeSegments].
    rewrite bool_decide_true by done. apply IH.
  - rewrite filter_cons_True by done. cbn [normalizeSegments].
    rewrite bool_decide_false by done. cbn [orb].
    repeat case_bool_decide; try apply IH.
    destruct acc as [|top acc]; [destruct b; apply IH |]. destruct (_ && _); apply IH.
Qed.

Lemma normalizeSegments_proper_id (segs acc : list jsstring) :
  Forall proper_segment segs -> normalizeSegments false segs acc = rev acc ++ segs.
Proof.
  intros H; revert acc; induction H as [|seg segs (H1 & H2 & H3 & _) _ IH]; intros acc;
    cbn [normalizeSegments].
  - by rewrite app_nil_r.
  - rewrite !bool_decide_false by done. cbn [orb].
    rewrite IH. cbn [rev]. by rewrite <- app_assoc.
Qed.

Lemma normalizeString_components (path : jsstring) :
  normalizeString path false = join sep (normalizeSegments false (components path) []).
Proof. unfold normalizeString, components. by rewrite normalizeSegments_filter. Qed.

Lemma components_nil : components [] = [].
Proof. reflexivity. Qed.

Lemma isAbsolute_normal (segs : list jsstring) :
  isAbsolute (sep ++ join sep segs) = true.
Proof. reflexivity. Qed.

(** A normalized absolute path resolves to itself. *)
Lemma resolve_normal_id (segs : list jsstring) :
  Forall proper_segment segs ->
  resolve pcwd [sep ++ join sep segs] = sep ++ join sep segs.
Proof.
  intros H. unfold resolve. cbn [rev app resolve_scan].
  rewrite bool_decide_false by done. rewrite isAbsolute_normal. cbn [negb].
  rewrite normalizeString_components, components_app_sep, components_nil, app_nil_r.
  rewrite components_normal by done. by rewrite normalizeSegments_proper_id.
Qed.

(** Resolving a relative path against a normalized absolute one. *)
Lemma resolve_under (rs : list jsstring) (rel : jsstring) :
  Forall proper_segment rs -> rel <> [] -> isAbsolute rel = false ->
  resolve pcwd [sep ++ join sep rs; rel]
  = sep ++ join sep (normalizeSegments false (rs ++ components rel) []).
Proof.
  intros Hrs Hrel Hrelative. unfold resolve. cbn [rev app resolve_scan].
  rewrite bool_decide_false by done. rewrite Hrelative.
  rewrite bool_decide_false by done. rewrite isAbsolute_normal. cbn [negb].
  rewrite normalizeString_components.
  rewrite components_app_sep, components_app_sep, components_nil, app_nil_r.
  by rewrite components_normal.
Qed.

Lemma strip_common_prefix (a rest : list jsstring) :
  strip_common a (a ++ rest) = ([], rest).
Proof.
  induction a as [|x a IH]; cbn [strip_common app].
  - by destruct rest.
  - by rewrite bool_decide_true.
Qed.

Lemma join_relative (rest : list jsstring) :
  Forall proper_segment rest -> rest <> [] ->
  join sep rest <> [] /\ isAbsolute (join sep rest) = false.
Proof.
  intros H Hne. destruct rest as [|p rest]; [done |].
  inversion H as [|? ? (Hp & _ & _ & Hslash) _]; subst.
  destruct p as [|x p]; [done |].
  assert (Hx : x <> SLASH) by (intros ->; apply Hslash; by left).
  destruct rest; cbn [join app isAbsolute]; (split; [done | by apply N.eqb_neq]).
Qed.

Lemma resolve_dot (rs : list jsstring) :
  Forall proper_segment rs ->
  resolve pcwd [sep ++ join sep rs; js "."] = sep ++ join sep rs.
Proof.
  intros Hrs. rewrite resolve_under by done.
  change (components (js ".")) with [js "."].
  assert (H : forall acc, normalizeSegments false (rs ++ [js "."]) acc = rev acc ++ rs).
  { clear -Hrs. induction Hrs as [|seg segs (H1 & H2 & H3 & _) _ IH]; intros acc;
      cbn [app normalizeSegments].
    - rewrite (bool_decide_true (js "." = dot)) by done. rewrite orb_true_r.
      by rewrite app_nil_r.
    - rewrite !bool_decide_false by done. cbn [orb]. rewrite IH. cbn [rev].
      by rewrite <- app_assoc. }
  by rewrite H.
Qed.

(** The candidate [.] is the root. *)
Lemma resolveRepoPath_dot (ctx : ToolExecutionContext) :
  resolveRepoPath pcwd (js ".") ctx = Ok (resolve pcwd [cwd ctx]).
Proof.
  destruct (resolve_normal pcwd [cwd ctx] pcwd_absolute) as (rs & Hroot & Hrs).
  unfold resolveRepoPath.
  set (prefixed := if startsWith _ _ then _ else _).
  assert (prefixed = js ".") as -> by (vm_compute; reflexivity).
  rewrite Hroot, resolve_dot by done. by rewrite bool_decide_true.
Qed.

Lemma relative_same (x : jsstring) : relative pcwd x x = [].
Proof. unfold relative. by rewrite bool_decide_true. Qed.

Lemma relative_below (rs : list jsstring) (x : jsstring) (rest : list jsstring) :
  Forall proper_segment (rs ++ x :: rest) ->
  relative pcwd (sep ++ join sep rs) (sep ++ join sep (rs ++ x :: rest))
  = join sep (x :: rest).
Proof.
  intros H. assert (Hrs : Forall proper_segment rs) by (by apply Forall_app in H as [? _]).
  assert (Hne : sep ++ join sep rs <> sep ++ join sep (rs ++ x :: rest)).
  { intros Heq. apply (f_equal components) in Heq.
    rewrite !components_normal in Heq by done.
    apply (f_equal (@length _)) in Heq. rewrite length_app, length_cons in Heq. lia. }
  unfold relative. rewrite (bool_decide_false _ Hne).
  rewrite !resolve_normal_id by done. rewrite (bool_decide_false _ Hne).
  rewrite !components_normal by done. by rewrite strip_common_prefix.
Qed.

(** The display form of a path at or below the root resolves, from
    the root, to that path. *)
Lemma pathFromRepoRoot_resolves (ctx : ToolExecutionContext) (target : jsstring)
    (ts : list jsstring) :
  target = sep ++ join sep ts -> Forall proper_segment ts ->
  within (resolve pcwd [cwd ctx]) target ->
  let shown := pathFromRepoRoot pcwd target ctx in
  isAbsolute shown = false /\
  resolve pcwd [resolve pcwd [cwd ctx]; shown] = target.
Proof.
  intros -> Hts Hwithin. cbv zeta. unfold pathFromRepoRoot.
  destruct (resolve_normal pcwd [cwd ctx] pcwd_absolute) as (rs & Hroot & Hrs).
  rewrite Hroot in *. unfold within in Hwithin.
  rewrite !components_normal in Hwithin by done.
  destruct Hwithin as [rest ->].
  assert (Hrest : Forall proper_segment rest) by (by apply Forall_app in Hts as [_ ?]).
  destruct rest as [|x rest].
  - rewrite app_nil_r. rewrite relative_same. rewrite bool_decide_true by done.
    split; [done |]. by apply resolve_dot.
  - destruct (join_relative (x :: rest) Hrest ltac:(done)) as [Hj1 Hj2].
    rewrite relative_below by done.
    rewrite (bool_decide_false _ Hj1). split; [done |].
    rewrite resolve_under by done.
    assert (Hc : components (join sep (x :: rest)) = x :: rest).
    { unfold components. rewrite split_join; [by apply filter_proper | done |].
      eapply Forall_impl; [exact Hrest |]. by intros seg (_ & _ & _ & ?). }
    rewrite Hc. by rewrite normalizeSegments_proper_id.
Qed.

End RelativeFacts.

(** C8 (as the code has it).  The confirmation of a successful
    [write_file] is ["Wrote N characters to R"], where [N] is the length
    of the contents in UTF-16 code units, as [String.prototype.length]
    counts them, and [R] is the root-relative form of the target: a
    relative path that resolves, from the root, to the target. *)
Theorem write_confirmation (pcwd : jsstring)
    (JSON_parse : jsstring -> option Json.value) (input : jsstring)
    (ctx : ToolExecutionContext) (m m' : gmap (list N) Fs.entry) (p c msg : jsstring) :
  Path.isAbsolute pcwd = true ->
  parseWritePayload JSON_parse input = Ok {| payload_path := p; payload_contents := c |} ->
  execute (createWriteFileTool pcwd JSON_parse) input ctx m = (Ok msg, m') ->
  let target := PathSpec.candidate_target pcwd p ctx in
  let shown := pathFromRepoRoot pcwd target ctx in
  msg = js "Wrote " ++ decimal (N.of_nat (length c)) ++ js " characters to " ++ shown /\
  includes (decimal (N.of_nat (length c))) msg = true /\
  includes shown msg = true /\
  Path.isAbsolute shown = false /\
  Path.resolve pcwd [Path.resolve pcwd [cwd ctx]; shown] = target.
Proof.
  intros Habs Hparse Hwrite target shown.
  destruct (write_file_success _ _ _ _ _ _ _ _ _ Hparse Hwrite)
    as (target' & m1 & Htarget & _ & Hmsg).
  destruct (resolveRepoPath_returns pcwd p ctx target' Htarget) as [-> Hwithin].
  fold target in Hwithin.
  fold shown in Hmsg. split; [done |]. split; [| split].
  - rewrite Hmsg. apply (includes_app (js "Wrote ")).
  - rewrite Hmsg. apply includes_spec.
    exists (js "Wrote " ++ decimal (N.of_nat (length c)) ++ js " characters to "), [].
    by rewrite app_nil_r, <- !app_assoc.
  - assert (Hnormal : exists ts, target = Path.sep ++ join Path.sep ts
                                 /\ Forall PathSpec.proper_segment ts).
    { apply resolve_normal, Habs. }
    destruct Hnormal as (ts & Hts & Hproper).
    by apply (pathFromRepoRoot_resolves pcwd Habs ctx target ts).
Qed.

Lemma write_then_read_roundtrip_witness :
  fst Scenario.short_write = Ok (js "Wrote 5 characters to notes/a.txt") /\
  execute (createReadFileTool (js "/")) (js "notes/a.txt") Scenario.repo
    (snd Scenario.short_write)
  = (Ok (js "hello"), snd Scenario.short_write).
Proof.
  split; [vm_compute; reflexivity |].
  destruct (write_then_read_roundtrip (js "/")
              (Scenario.parse_write (js "notes/a.txt") (js "hello"))
              (Scenario.write_input (js "notes/a.txt") (js "hello")) Scenario.repo ∅
              (snd Scenario.short_write) (js "notes/a.txt") (js "hello")
              (js "Wrote 5 characters to notes/a.txt")
              ltac:(vm_compute; reflexivity) ltac:(vm_compute; reflexivity)
              ltac:(vm_compute; discriminate))
    as (text & Hread & Hsame & _).
  rewrite Hread. f_equal. f_equal. apply Hsame; [vm_compute; lia | vm_compute; reflexivity].
Defined.

(** Contents of 4001 characters are written in full and read back cut
    to 4000 characters and the truncation mark. *)
Lemma long_contents_read_back_truncated :
  parseWritePayload (Scenario.parse_write (js "a.txt") (replicate 4001 97))
    (Scenario.write_input (js "a.txt") (replicate 4001 97))
  = Ok {| payload_path := js "a.txt"; payload_contents := replicate 4001 97 |} /\
  fst Scenario.long_write = Ok (js "Wrote 4001 characters to a.txt") /\
  execute (createReadFileTool (js "/")) (js "a.txt") Scenario.repo (snd Scenario.long_write)
  = (Ok (replicate 4000 97 ++ TRUNCATED), snd Scenario.long_write) /\
  replicate 4000 97 ++ TRUNCATED <> replicate 4001 97.
Proof.
  split; [vm_compute; reflexivity |]. split; [vm_compute; reflexivity |].
  split; [vm_compute; reflexivity |].
  intros H. apply (f_equal (@length N)) in H. vm_compute in H. discriminate.
Qed.

Lemma write_confirmation_witness :
  fst Scenario.short_write = Ok (js "Wrote 5 characters to notes/a.txt") /\
  Path.resolve (js "/") [js "/repo"; js "notes/a.txt"] = js "/repo/notes/a.txt".
Proof.
  split; [vm_compute; reflexivity |].
  pose proof (write_confirmation (js "/")
    (Scenario.parse_write (js "notes/a.txt") (js "hello"))
    (Scenario.write_input (js "notes/a.txt") (js "hello")) Scenario.repo ∅
    (snd Scenario.short_write)
    (js "notes/a.txt") (js "hello") (js "Wrote 5 characters to notes/a.txt")
    ltac:(reflexivity) ltac:(vm_compute; reflexivity) ltac:(vm_compute; reflexivity)) as H.
  cbv zeta in H. destruct H as (_ & _ & _ & _ & H).
  vm_compute in H. vm_compute. exact H.
Defined.

(** The count in the confirmation is a count of characters: for the
    one-character contents U+00E9, stored in two bytes, it is 1. *)
Lemma confirmation_counts_characters_not_bytes :
  fst Scenario.accent_write = Ok (js "Wrote 1 characters to a.txt") /\
  Fs.stat (snd Scenario.accent_write) (js "/repo/a.txt")
    = Ok {| Fs.isDirectory := false; Fs.isFile := true; Fs.size := 2 |} /\
  Fs.byteLength [233] = 2 /\
  includes (decimal (Fs.byteLength [233])) (js "Wrote 1 characters to a.txt") = false.
Proof. repeat split; vm_compute; reflexivity. Qed.

(** A blank path is written to (the root itself, when nothing exists
    there) and refused by [read_file]. *)
Example blank_path_is_not_read_back :
  fst (Scenario.written (js " ") (js "x")) = Ok (js "Wrote 1 characters to .") /\
  execute (createReadFileTool (js "/")) (js " ") Scenario.repo
    (snd (Scenario.written (js " ") (js "x")))
  = (Throw (Error (js "Please provide a file path relative to the repository root.")),
     snd (Scenario.written (js " ") (js "x"))).
Proof. split; vm_compute; reflexivity. Qed.

(** An unpaired surrogate is read back as U+FFFD. *)
Example unpaired_surrogate_is_not_read_back :
  fst (Scenario.written (js "a.txt") [55296]) = Ok (js "Wrote 1 characters to a.txt") /\
  execute (createReadFileTool (js "/")) (js "a.txt") Scenario.repo
    (snd (Scenario.written (js "a.txt") [55296]))
  = (Ok [65533], snd (Scenario.written (js "a.txt") [55296])).
Proof. split; vm_compute; reflexivity. Qed.

(** ** The file search *)
Section SearchFacts.
Import System SearchSpec.
Variable pcwd : jsstring.
Variable ctx : ToolExecutionContext.
Variable m : gmap (list N) Fs.entry.
Variable regex : jsstring -> bool.

Lemma number_matches_none (lines : list jsstring) (index : N) :
  Forall (fun line => regex line = false) lines ->
  number_matches regex index lines = [].
Proof.
  intros H; revert index; induction H as [|line lines Hl _ IH]; intros index;
    cbn [number_matches]; [done |].
  by rewrite Hl, IH.
Qed.

Lemma searchFile_quiet (path : jsstring) :
  file_quiet m regex path -> searchFileForPattern m path regex = Ok [].
Proof.
  intros (text & Hlookup & Hquiet). unfold searchFileForPattern, Fs.stat, Fs.readFile.
  rewrite Hlookup. cbn [mbind outcome_bind Fs.size].
  destruct (N.ltb_spec MAX_FILE_BYTES (Fs.byteLength text)) as [Hbig | Hsmall]; [done |].
  destruct Hquiet as [Hbig | Hlines]; [lia |].
  by rewrite number_matches_none.
Qed.

Lemma ends_silent_nil : ends_silent pcwd ctx m regex [].
Proof. exists O. by intros [|fuel] _. Qed.

Local Abbreviation passes := (passes pcwd ctx m regex).

Lemma ends_silent_push (pushed queue : list jsstring) :
  Forall passes pushed -> ends_silent pcwd ctx m regex queue ->
  ends_silent pcwd ctx m regex (pushed ++ queue).
Proof.
  intros H Hq; induction H as [|d pushed Hd _ IH]; [done |]. by apply Hd.
Qed.

Lemma scan_entries_quiet (current : jsstring) (entries : list (jsstring * Fs.entry))
    (queue : list jsstring) :
  (forall name, (name, Fs.Dir) ∈ entries -> shouldSkipDir name = false ->
                passes (Path.join2 current name)) ->
  (forall name text, (name, Fs.File text) ∈ entries ->
                file_quiet m regex (Path.join2 current name)) ->
  exists pushed,
    scan_entries pcwd ctx m regex current entries queue [] = Ok (pushed ++ queue, [])
    /\ Forall passes pushed.
Proof.
  revert queue; induction entries as [|[name e] entries IH]; intros queue Hdirs Hfiles;
    cbn [scan_entries].
  - by exists [].
  - assert (Hdirs' : forall n, (n, Fs.Dir) ∈ entries -> shouldSkipDir n = false ->
                               passes (Path.join2 current n)).
    { intros n Hn. apply Hdirs. by right. }
    assert (Hfiles' : forall n text, (n, Fs.File text) ∈ entries ->
                                     file_quiet m regex (Path.join2 current n)).
    { intros n text Hn. apply (Hfiles n text). by right. }
    destruct e as [text|].
    + rewrite (searchFile_quiet (Path.join2 current name)) by
        (apply (Hfiles name text); by left).
      cbn [mbind outcome_bind push_matches length]. by apply IH.
    + destruct (shouldSkipDir name) eqn:Hskip; cbn [negb].
      * by apply IH.
      * destruct (IH (Path.join2 current name :: queue) Hdirs' Hfiles')
          as (pushed & Hscan & Hpushed).
        exists (pushed ++ [Path.join2 current name]). rewrite <- app_assoc. split; [done |].
        apply Forall_app. split; [done |]. constructor; [| done].
        apply Hdirs; [by left | done].
Qed.

(** A quiet directory passes. *)
Lemma quiet_passes (d : jsstring) : quiet m regex d -> passes d.
Proof.
  induction 1 as [current entries Hreaddir _ IHdirs Hfiles].
  intros queue Hqueue.
  destruct (scan_entries_quiet current entries queue IHdirs Hfiles)
    as (pushed & Hscan & Hpushed).
  destruct (ends_silent_push pushed queue Hpushed Hqueue) as [bound Hbound].
  exists (S bound). intros [|fuel] Hfuel; [lia |].
  cbn [collect_loop length]. rewrite Hreaddir, Hscan. apply Hbound. lia.
Qed.

Lemma collectMatches_quiet (root : jsstring) :
  quiet m regex root ->
  exists bound, forall fuel, (bound <= fuel)%nat ->
    collectMatches pcwd fuel root regex ctx m = Some (Ok []).
Proof. intros H. apply (quiet_passes root H), ends_silent_nil. Qed.

End SearchFacts.

(** C9 (as the code has it).  For a valid payload and pattern and a
    confined search root, when every directory the traversal visits can
    be listed and every file it visits is above the size ceiling or has
    no line that matches, the tool returns exactly the literal
    ["No matches found."]: every run of the traversal that is allowed
    enough iterations ends with it. *)
Theorem file_search_no_matches (pcwd : jsstring)
    (JSON_parse : jsstring -> option Json.value)
    (RegExp_new : jsstring -> option jsstring -> outcome (jsstring -> bool))
    (input : jsstring) (ctx : ToolExecutionContext) (m : gmap (list N) Fs.entry)
    (payload : System.FileSearchPayload) (regex : jsstring -> bool) (root : jsstring) :
  System.parseFileSearchInput JSON_parse input = Ok payload ->
  System.buildRegex RegExp_new (System.search_pattern payload) (System.search_flags payload)
    = Ok regex ->
  System.search_root pcwd payload ctx = Ok root ->
  SearchSpec.quiet m regex root ->
  exists bound, forall fuel, (bound <= fuel)%nat ->
    System.fileSearch_execute pcwd JSON_parse RegExp_new fuel input ctx m
    = Some (Ok (js "No matches found.")).
Proof.
  intros Hparse Hregex Hroot Hquiet.
  destruct (collectMatches_quiet pcwd ctx m regex root Hquiet) as [bound Hbound].
  exists bound. intros fuel Hfuel. unfold System.fileSearch_execute.
  by rewrite Hparse, Hregex, Hroot, (Hbound fuel Hfuel).
Qed.

Example search_finds_a_line :
  System.fileSearch_execute (js "/") (Scenario.parse_search (js "beta") (js "."))
    Scenario.RegExp_plain 10 (Scenario.search_input (js "beta") (js ".")) Scenario.repo
    Scenario.tree
  = Some (Ok (js "a.txt:2: beta")).
Proof. vm_compute. reflexivity. Qed.

Example search_skips_ignored_directories :
  System.fileSearch_execute (js "/") (Scenario.parse_search (js "TODO") (js "."))
    Scenario.RegExp_plain 10 (Scenario.search_input (js "TODO") (js ".")) Scenario.repo
    Scenario.tree
  = Some (Ok (js "No matches found.")).
Proof. vm_compute. reflexivity. Qed.

Lemma scenario_tree_quiet :
  SearchSpec.quiet Scenario.tree (includes (js "TODO")) (js "/repo").
Proof.
  eapply SearchSpec.quiet_dir; [vm_compute; reflexivity | |].
  - intros name Hin Hskip.
    repeat (apply elem_of_cons in Hin as [Hin | Hin]); try (by apply elem_of_nil in Hin);
      try discriminate; injection Hin as ->; try (vm_compute in Hskip; discriminate).
    eapply SearchSpec.quiet_dir; [vm_compute; reflexivity | |].
    + intros name Hin.
      repeat (apply elem_of_cons in Hin as [Hin | Hin]); try (by apply elem_of_nil in Hin);
        discriminate.
    + intros name text Hin.
      repeat (apply elem_of_cons in Hin as [Hin | Hin]); try (by apply elem_of_nil in Hin);
        try discriminate; injection Hin as -> ->.
      eexists. split; [vm_compute; reflexivity |]. right. by repeat constructor.
  - intros name text Hin.
    repeat (apply elem_of_cons in Hin as [Hin | Hin]); try (by apply elem_of_nil in Hin);
      try discriminate; injection Hin as -> ->.
    eexists. split; [vm_compute; reflexivity |]. right. by repeat constructor.
Qed.

Lemma file_search_no_matches_witness :
  exists bound, forall fuel, (bound <= fuel)%nat ->
    System.fileSearch_execute (js "/") (Scenario.parse_search (js "TODO") (js "."))
      Scenario.RegExp_plain fuel (Scenario.search_input (js "TODO") (js "."))
      Scenario.repo Scenario.tree
    = Some (Ok (js "No matches found.")).
Proof.
  eapply (file_search_no_matches (js "/") (Scenario.parse_search (js "TODO") (js "."))
            Scenario.RegExp_plain (Scenario.search_input (js "TODO") (js "."))
            Scenario.repo Scenario.tree).
  - vm_compute. reflexivity.
  - reflexivity.
  - vm_compute. reflexivity.
  - exact scenario_tree_quiet.
Defined.

(** No line is ever tested, let alone matched, and the result is not the
    no-matches literal: the directory to search does not exist, and the
    failure to list it is reported as a result line. *)
Lemma search_of_missing_directory_reports_error :
  System.fileSearch_execute (js "/") (Scenario.parse_search (js "TODO") (js "missing"))
    (fun _ _ => Ok (fun _ => false)) 100
    (Scenario.search_input (js "TODO") (js "missing")) Scenario.repo Scenario.tree
  = Some (Ok (js "missing: error reading directory: ENOENT: no such file or directory, scandir '/repo/missing'"))
  /\ js "missing: error reading directory: ENOENT: no such file or directory, scandir '/repo/missing'"
     <> js "No matches found.".
Proof. split; [vm_compute; reflexivity | vm_compute; discriminate]. Qed.

(** ** The sandbox *)

(** A script that is run gets the restricted process object. *)
Lemma node_tools_reject_with_exit_error (pcwd : jsstring)
    (penv : gmap (list N) (list N)) (ctx : ToolExecutionContext) (code : option Z)
    (script : jsstring) (m : gmap (list N) Fs.entry) :
  Path.isAbsolute pcwd = true -> trim script <> [] ->
  let thrown :=
    Throw (Error (js "process.exit(" ++ System.render_Z (default 0%Z code)
                    ++ js ") is not allowed inside the node tool.")) in
  execute (System.createNodeTool pcwd penv (Scenario.vm_calling_exit code)) script ctx m
    = (thrown, m) /\
  execute (System.createNodeUserVisibleTool pcwd penv (Scenario.vm_calling_exit code))
    script ctx m = (thrown, m).
Proof.
  intros Habs Hscript. cbv zeta.
  assert (Hrun : System.runUserNodeSnippet pcwd penv (Scenario.vm_calling_exit code)
                   script ctx m
                 = (Throw (Error (js "process.exit(" ++ System.render_Z (default 0%Z code)
                                    ++ js ") is not allowed inside the node tool.")), m)).
  { unfold System.runUserNodeSnippet.
    rewrite bool_decide_false by (by destruct (trim script)).
    by rewrite (resolveRepoPath_dot pcwd Habs). }
  cbn [execute System.createNodeTool System.createNodeUserVisibleTool].
  by rewrite Hrun.
Qed.

(** C2.  For every exit code, and also when none is given, [exit] of
    the process object of the sandbox throws an error whose message
    names [process.exit] and says it is not allowed; it is never the
    effect of the real [process.exit], which ends the hosting process.
    A script run by the [node] or the [node_user_visible] tool that
    calls it makes the tool reject with that error. *)
Theorem sandbox_exit_not_allowed (pcwd : jsstring) (penv : gmap (list N) (list N))
    (ctx : ToolExecutionContext) (code : option Z) :
  exists message,
    System.sandbox_exit (System.createSandboxProcess pcwd penv ctx) code
      = System.ExitThrows (Error message) /\
    message = js "process.exit(" ++ System.render_Z (default 0%Z code)
                ++ js ") is not allowed inside the node tool." /\
    includes (js "process.exit") message = true /\
    includes (js "is not allowed") message = true /\
    (forall c, System.sandbox_exit (System.createSandboxProcess pcwd penv ctx) code
               <> System.host_process_exit c) /\
    (forall script m, Path.isAbsolute pcwd = true -> trim script <> [] ->
       execute (System.createNodeTool pcwd penv (Scenario.vm_calling_exit code))
         script ctx m = (Throw (Error message), m) /\
       execute (System.createNodeUserVisibleTool pcwd penv (Scenario.vm_calling_exit code))
         script ctx m = (Throw (Error message), m)).
Proof.
  eexists. split; [reflexivity |]. split; [reflexivity |]. split; [| split; [| split]].
  - apply includes_spec. exists [], (js "(" ++ System.render_Z (default 0%Z code)
      ++ js ") is not allowed inside the node tool."). reflexivity.
  - apply includes_spec.
    exists (js "process.exit(" ++ System.render_Z (default 0%Z code) ++ js ") "),
           (js " inside the node tool.").
    rewrite <- !app_assoc. reflexivity.
  - intros c. unfold System.host_process_exit.
    cbn [System.sandbox_exit System.createSandboxProcess]. discriminate.
  - intros script m Habs Hscript.
    apply (node_tools_reject_with_exit_error pcwd penv ctx code script m Habs Hscript).
Qed.

Lemma sandbox_exit_not_allowed_witness :
  System.sandbox_exit (System.createSandboxProcess (js "/") ∅ Scenario.repo) (Some 3%Z)
  = System.ExitThrows (Error (js "process.exit(3) is not allowed inside the node tool."))
  /\
  execute (System.createNodeTool (js "/") ∅ (Scenario.vm_calling_exit (Some 3%Z)))
    (js "process.exit(3)") Scenario.repo Scenario.tree
  = (Throw (Error (js "process.exit(3) is not allowed inside the node tool.")),
     Scenario.tree).
Proof.
  destruct (sandbox_exit_not_allowed (js "/") ∅ Scenario.repo (Some 3%Z))
    as (message & Hexit & -> & _ & _ & _ & Htools).
  split; [exact Hexit |].
  apply (Htools (js "process.exit(3)") Scenario.tree).
  - reflexivity.
  - vm_compute. discriminate.
Defined.

(* ================================================================= *)
(** * Further properties *)

(** ** The agent loop: budget, errors, scratchpad, registry *)
Section LoopFacts.
Context {W : Type}.
Import Agent AgentSpec LoopSpec.
Implicit Types (agent : ReactAgent W) (st : state W) (ctx : ToolExecutionContext).

Lemma model_replies_app (l1 l2 : list event) :
  model_replies (l1 ++ l2) = model_replies l1 ++ model_replies l2.
Proof. apply omap_app. Qed.

Lemma tool_calls_app (l1 l2 : list event) :
  tool_calls (l1 ++ l2) = tool_calls l1 ++ tool_calls l2.
Proof. apply omap_app. Qed.

(** A pass through the loop body adds one model call to the log, and
    after it at most one tool call. *)
Lemma turn_log agent task ctx st :
  exists msgs reply rest,
    log_of (turn agent task ctx st) = st_log st ++ ModelCall msgs reply :: rest /\
    (rest = [] \/ exists name inp settled, rest = [ToolCall name inp settled]).
Proof.
  unfold turn.
  destruct (complete _ _ _) as [[raw|e] w1].
  2: { eexists _, _, []. cbn [log_of]. split; [reflexivity | by left]. }
  destruct (ReactParser.parseReactOutput raw) as [[th name inp|th out]|e].
  2, 3: eexists _, _, []; cbn [log_of]; split; [reflexivity | by left].
  destruct (toolMap agent !! name) as [t|].
  2: { eexists _, _, []. cbn [log_of]. split; [reflexivity | by left]. }
  destruct (execute t inp ctx w1) as [settled w2].
  eexists _, _, [ToolCall name inp settled].
  split; [| right; by eauto].
  destruct settled as [text|[m| | | |raised]]; cbn; by rewrite <- app_assoc.
Qed.

Lemma loop_budget agent task ctx n st :
  (length (model_replies (log_of (loop agent task ctx n st)))
   <= length (model_replies (st_log st)) + n)%nat /\
  (length (tool_calls (log_of (loop agent task ctx n st)))
     + length (model_replies (st_log st))
   <= length (tool_calls (st_log st))
     + length (model_replies (log_of (loop agent task ctx n st))))%nat.
Proof.
  revert st; induction n as [|n IH]; intros st; cbn [loop log_of]; [lia |].
  destruct (turn_log agent task ctx st) as (msgs & reply & rest & Hlog & Hrest).
  assert (Hm : length (model_replies (log_of (turn agent task ctx st)))
               = S (length (model_replies (st_log st)))).
  { rewrite Hlog, model_replies_app, length_app.
    destruct Hrest as [-> | (? & ? & ? & ->)]; cbn; lia. }
  assert (Ht : (length (tool_calls (log_of (turn agent task ctx st)))
                <= S (length (tool_calls (st_log st))))%nat).
  { rewrite Hlog, tool_calls_app, length_app.
    destruct Hrest as [-> | (? & ? & ? & ->)]; cbn; lia. }
  destruct (turn agent task ctx st) as [st1|r w1 l1|e w1 l1]; cbn [log_of] in *.
  - destruct (IH st1) as [IH1 IH2]. lia.
  - lia.
  - lia.
Qed.

End LoopFacts.

(** X1.  A run never exceeds its turn budget: whatever way it ends, it
    has made at most [maxTurns] model calls (none when [maxTurns] is
    zero or negative), and never more tool calls than model calls. *)
Theorem run_stays_within_budget {W : Type} (pcwd : jsstring) (agent : Agent.ReactAgent W)
    (task : jsstring) (options : Agent.AgentRunOptions) (w : W) :
  let log := LoopSpec.log_of (Agent.run pcwd agent task options w) in
  (length (AgentSpec.model_replies log) <= Z.to_nat (Agent.maxTurns agent))%nat /\
  (length (AgentSpec.tool_calls log) <= length (AgentSpec.model_replies log))%nat.
Proof.
  cbv zeta. unfold Agent.run.
  match goal with |- context [Agent.loop ?a ?t ?c ?n ?s] =>
    destruct (loop_budget a t c n s) as [H1 H2];
    assert (E1 : length (AgentSpec.model_replies (Agent.st_log s)) = O) by reflexivity;
    assert (E2 : length (AgentSpec.tool_calls (Agent.st_log s)) = O) by reflexivity
  end.
  rewrite E1 in H1, H2. rewrite E2 in H2. split; lia.
Qed.

Section RaiseFacts.
Context {W : Type}.
Import Agent AgentSpec LoopSpec.
Implicit Types (agent : ReactAgent W) (st : state W) (ctx : ToolExecutionContext).

Lemma parse_throws_unparsable (raw : jsstring) (e : thrown) :
  ReactParser.parseReactOutput raw = Throw e -> e = ReactParser.UnparsableResponse.
Proof.
  unfold ReactParser.parseReactOutput. cbv zeta.
  destruct (Regex.exec 1 _ _); [done |]. destruct (Regex.exec 2 _ _); [done |].
  by intros [= <-].
Qed.

Lemma turn_raise agent task ctx st e w log :
  turn agent task ctx st = Raise e w log -> raise_cause agent e log.
Proof.
  unfold turn, raise_cause.
  destruct (complete _ _ _) as [[raw|e0] w1].
  2: { intros [= <- <- <-]. left. eexists. by rewrite last_snoc. }
  destruct (ReactParser.parseReactOutput raw) as [[th name inp|th out]|e0] eqn:Hp.
  - destruct (toolMap agent !! name) as [t|] eqn:Hm.
    + destruct (execute t inp ctx w1) as [settled w2].
      destruct settled as [text|[m| | | |raised]]; cbn; try done.
      all: intros [= <- <- <-]; right; right; right.
      all: eexists _, _, _; rewrite last_snoc; split; reflexivity.
    + intros [= <- <- <-]. right; right; left.
      eexists _, raw, th, name, inp. by rewrite last_snoc.
  - done.
  - intros [= <- <- <-]. right; left. eexists _, raw. rewrite last_snoc.
    split; [done |]. split; [done |]. by eapply parse_throws_unparsable.
Qed.

End RaiseFacts.

(** X2.  A run throws for one of four reasons only, each told by the
    last event of its log: the model call rejected (the run throws the
    same value); the reply did not parse (the unparsable-response
    error); the reply named a tool that is not registered (the
    unknown-tool error); or a tool rejected with a value whose message
    cannot be rendered ([null], [undefined], a value whose message
    throws when it is read or converted to a string), and the run throws
    what rendering it threw.  A tool failure whose message can be
    rendered never makes the run throw. *)
Theorem run_throws_only_for {W : Type} (pcwd : jsstring) (agent : Agent.ReactAgent W)
    (task : jsstring) (options : Agent.AgentRunOptions) (w w' : W)
    (e : thrown) (log : list Agent.event) :
  Agent.run pcwd agent task options w = Agent.Raise e w' log ->
  (exists msgs, last log = Some (Agent.ModelCall msgs (Throw e))) \/
  (exists msgs raw, last log = Some (Agent.ModelCall msgs (Ok raw)) /\
     ReactParser.parseReactOutput raw = Throw e /\ e = ReactParser.UnparsableResponse) \/
  (exists msgs raw th name inp, last log = Some (Agent.ModelCall msgs (Ok raw)) /\
     ReactParser.parseReactOutput raw = Ok (action th name inp) /\
     Agent.toolMap agent !! name = None /\ e = Agent.UnknownTool name) \/
  (exists name inp rejected, last log = Some (Agent.ToolCall name inp (Throw rejected)) /\
     message_of rejected = Throw e).
Proof.
  unfold Agent.run.
  generalize (Z.to_nat (Agent.maxTurns agent)).
  generalize ({| Agent.st_thoughts := []; Agent.st_scratchpad := [];
                 Agent.st_world := w; Agent.st_log := [] |}).
  intros st n; revert st; induction n as [|n IH]; intros st; cbn [Agent.loop]; [done |].
  destruct (Agent.turn agent task _ st) as [st1|r w1 l1|e1 w1 l1] eqn:Hturn.
  - apply IH.
  - done.
  - intros [= <- <- <-]. by eapply turn_raise.
Qed.

Lemma run_throws_only_for_witness :
  let agent := Scenario.agent_with [Scenario.on_files (createReadFileTool (js "/"))] None in
  let w := {| Scenario.replies := [js "I am not sure what to do."];
              Scenario.files := Scenario.tree |} in
  LoopSpec.raise_cause agent ReactParser.UnparsableResponse
    (LoopSpec.log_of (Agent.run (js "/") agent (js "clean up") Scenario.no_options w)).
Proof.
  cbv zeta.
  apply (run_throws_only_for (js "/")
           (Scenario.agent_with [Scenario.on_files (createReadFileTool (js "/"))] None)
           (js "clean up") Scenario.no_options
           {| Scenario.replies := [js "I am not sure what to do."];
              Scenario.files := Scenario.tree |}
           {| Scenario.replies := []; Scenario.files := Scenario.tree |}).
  vm_compute. reflexivity.
Defined.

(** A tool that rejects with an object whose message throws when it is
    read: the run throws what the read threw. *)
Example run_throws_what_rendering_threw :
  let node :=
    Scenario.on_files (System.createNodeTool (js "/") ∅ Scenario.vm_throw_unreadable) in
  let agent := Scenario.agent_with [node] None in
  let w := {| Scenario.replies := [Scenario.act "node" "throw hostile"];
              Scenario.files := Scenario.tree |} in
  exists w' log,
    Agent.run (js "/") agent (js "compute") Scenario.no_options w
    = Agent.Raise (Error (js "boom")) w' log /\
    last log = Some (Agent.ToolCall (js "node") (js "throw hostile")
                       (Throw (ThrownUnreadable (Error (js "boom"))))).
Proof.
  cbv zeta. eexists _, _. split; [vm_compute; reflexivity |]. vm_compute. reflexivity.
Qed.

Section ScratchpadFacts.
Context {W : Type}.
Import Agent AgentSpec LoopSpec.
Implicit Types (agent : ReactAgent W) (st : state W) (ctx : ToolExecutionContext).

Lemma join_snoc (sep0 : jsstring) (l : list jsstring) (x : jsstring) :
  l <> [] -> join sep0 (l ++ [x]) = join sep0 l ++ sep0 ++ x.
Proof.
  induction l as [|a l IH]; [done |]. intros _. destruct l as [|b l].
  - reflexivity.
  - change (join sep0 ((a :: b :: l) ++ [x])) with (a ++ sep0 ++ join sep0 ((b :: l) ++ [x])).
    rewrite IH by done.
    change (join sep0 (a :: b :: l)) with (a ++ sep0 ++ join sep0 (b :: l)).
    by rewrite <- !app_assoc.
Qed.

Lemma turnScratch_not_nil (th name inp obs : jsstring) : turnScratch th name inp obs <> [].
Proof.
  assert (H : exists rest, turnScratch th name inp obs = 84 :: rest)
    by (eexists; reflexivity).
  by destruct H as [rest ->].
Qed.

Lemma turn_keeps_scratchpad agent task ctx st st' :
  scratchpad_renders st -> turn agent task ctx st = Continue st' -> scratchpad_renders st'.
Proof.
  intros [Hsp Hnil]. unfold turn.
  destruct (complete _ _ _) as [[raw|e] w1]; [| done].
  destruct (ReactParser.parseReactOutput raw) as [[th name inp|th out]|e]; [| done | done].
  destruct (toolMap agent !! name) as [t|]; [| done].
  destruct (execute t inp ctx w1) as [settled w2].
  assert (G : forall obs,
    scratchpad_renders
      {| st_thoughts := st_thoughts st ++
           [ {| thought := th; action_of := Some {| toolName := name; input := inp |};
                observation := Some obs; rawOutput := Some raw |} ];
         st_scratchpad :=
           (if bool_decide (length (st_scratchpad st) <> O)
            then st_scratchpad st ++ js (nl ++ nl) ++ turnScratch th name inp obs
            else turnScratch th name inp obs);
         st_world := w2;
         st_log := (st_log st ++ [ModelCall
                      (ReactPrompt.buildReactMessages (instructions agent) (tools agent) task
                         (Some (st_scratchpad st)) []) (Ok raw)])
                   ++ [ToolCall name inp settled] |}).
  { intros obs. unfold scratchpad_renders. cbn [st_thoughts st_scratchpad].
    rewrite map_app. cbn [map]. change (render_record _) with (turnScratch th name inp obs).
    split.
    - case_bool_decide as Hlen.
      + assert (Hne : st_thoughts st <> []).
        { intros Hts. apply Hnil in Hts. rewrite Hts in Hlen. by apply Hlen. }
        rewrite join_snoc by (by destruct (st_thoughts st)). by rewrite <- Hsp.
      + assert (Hts : st_thoughts st = []).
        { apply Hnil. destruct (st_scratchpad st); [done |]. by cbn in Hlen. }
        by rewrite Hts.
    - split; [by destruct (st_thoughts st) |].
      intros Hempty. exfalso. case_bool_decide.
      + by destruct (st_scratchpad st).
      + by apply (turnScratch_not_nil th name inp obs). }
  destruct settled as [text|[m| | | |raised]]; cbn; try done; intros [= <-]; apply G.
Qed.

End ScratchpadFacts.

(** X3.  At every turn a run reaches, the scratchpad that goes into the
    next prompt is a function of the step records alone: the blocks of
    the records ([Thought], [Action], [Action Input], [Observation]), in
    order, joined by blank lines; and it is empty exactly when no
    record has been made. *)
Theorem scratchpad_is_rendered_records {W : Type} (agent : Agent.ReactAgent W)
    (task : jsstring) (ctx : ToolExecutionContext) (w : W) (k : nat) (st : Agent.state W) :
  AgentSpec.after_turns agent task ctx k (AgentSpec.initial w) = Some st ->
  Agent.st_scratchpad st
    = join (js (nl ++ nl)) (map LoopSpec.render_record (Agent.st_thoughts st)) /\
  (Agent.st_thoughts st = [] <-> Agent.st_scratchpad st = []) /\
  length (Agent.st_thoughts st) = k.
Proof.
  assert (G : forall k st0,
    LoopSpec.scratchpad_renders st0 ->
    AgentSpec.after_turns agent task ctx k st0 = Some st ->
    LoopSpec.scratchpad_renders st /\
    length (Agent.st_thoughts st) = (length (Agent.st_thoughts st0) + k)%nat).
  { clear k. induction k as [|k IH]; intros st0 H0; cbn [AgentSpec.after_turns].
    - intros [= <-]. split; [done | lia].
    - destruct (Agent.turn agent task ctx st0) as [st1| |] eqn:Hturn; [| done | done].
      intros Hk. destruct (IH st1 (turn_keeps_scratchpad _ _ _ _ _ H0 Hturn) Hk) as [H1 H2].
      split; [done |]. rewrite H2.
      assert (length (Agent.st_thoughts st1) = S (length (Agent.st_thoughts st0))); [| lia].
      clear -Hturn. unfold Agent.turn in Hturn.
      destruct (Agent.complete _ _ _) as [[raw|e] w1]; [| done].
      destruct (ReactParser.parseReactOutput raw) as [[th name inp|th out]|e]; try done.
      destruct (Agent.toolMap agent !! name) as [t|]; [| done].
      destruct (execute t inp ctx w1) as [settled w2].
      destruct settled as [text|[m| | | |raised]]; cbn in Hturn; try done;
        injection Hturn as <-; cbn [Agent.st_thoughts]; rewrite length_app; cbn; lia. }
  intros Hk. destruct (G k (AgentSpec.initial w)) as [[H1 H2] H3]; [| done |].
  - split; [reflexivity | done].
  - split; [exact H1 |]. split; [exact H2 | exact H3].
Qed.

Lemma scratchpad_is_rendered_records_witness :
  Agent.st_scratchpad Scenario.after_one_read
  = join (js (nl ++ nl))
      (map LoopSpec.render_record (Agent.st_thoughts Scenario.after_one_read)) /\
  (Agent.st_thoughts Scenario.after_one_read = []
   <-> Agent.st_scratchpad Scenario.after_one_read = []) /\
  length (Agent.st_thoughts Scenario.after_one_read) = 1%nat.
Proof.
  apply (scratchpad_is_rendered_records Scenario.reader (js "show it") Scenario.repo
           {| Scenario.replies := [Scenario.act "read_file" "src/b.txt"];
              Scenario.files := Scenario.tree |}).
  vm_compute. reflexivity.
Defined.

(** X4.  The registry built by the constructor maps a name to the last
    configured tool of that name, and to nothing when no configured
    tool has it: a later tool shadows an earlier one of the same
    name. *)
Theorem registry_holds_last_of_each_name {W : Type} (llm : Agent.LanguageModel W)
    (config : AgentConfig W) (name : jsstring) :
  Agent.toolMap (Agent.new_ReactAgent llm config) !! name
  = last (LoopSpec.named name (config_tools config)).
Proof.
  unfold Agent.new_ReactAgent, LoopSpec.named; cbn [Agent.toolMap].
  assert (G : forall (l : list (Tool W)) (m : gmap (list N) (Tool W)),
    foldl (fun m t => <[tool_name t := t]> m) m l !! name
    = match last (filter (fun t => tool_name t = name) l) with
      | Some t => Some t
      | None => m !! name
      end).
  { induction l as [|t l IH]; intros m; cbn [foldl]; [done |].
    rewrite IH. destruct (decide (tool_name t = name)) as [Heq | Hne].
    - rewrite filter_cons_True by done.
      destruct (filter (fun t0 => tool_name t0 = name) l) as [|t' l'] eqn:Hf.
      + cbn [last]. rewrite <- Heq. apply lookup_insert_eq.
      + change (last (t :: t' :: l')) with (last (t' :: l')).
        destruct (last (t' :: l')) eqn:E; [done |]. by apply last_None in E.
    - rewrite filter_cons_False by done.
      destruct (last (filter (fun t0 => tool_name t0 = name) l)); [done |].
      by apply lookup_insert_ne. }
  rewrite G. by destruct (last _).
Qed.

Section PromptFacts.
Import ReactPrompt.

Lemma join_includes (sep0 : jsstring) (parts : list jsstring) (p : jsstring) :
  p ∈ parts -> exists a b, join sep0 parts = a ++ p ++ b.
Proof.
  induction parts as [|q parts IH]; [by intros ?%elem_of_nil |].
  intros [-> | Hin]%elem_of_cons.
  - destruct parts as [|r parts].
    + exists [], []. by rewrite app_nil_r.
    + exists [], (sep0 ++ join sep0 (r :: parts)). reflexivity.
  - destruct (IH Hin) as (a & b & Hab). destruct parts as [|r parts].
    + by apply elem_of_nil in Hin.
    + exists (q ++ sep0 ++ a), b.
      change (join sep0 (q :: r :: parts)) with (q ++ sep0 ++ join sep0 (r :: parts)).
      rewrite Hab. by rewrite <- !app_assoc.
Qed.

End PromptFacts.

(** X5.  The prompt is the system message, the context messages in
    their order, and one user message.  The system message contains the
    line of every tool (name, description and, when there is one, the
    input guide), the format guide and the rules.  The user message is
    the trimmed task, followed by the scratchpad under its heading when
    the scratchpad is not blank, and by nothing when it is blank or
    absent. *)
Theorem prompt_layout {W : Type} (instructions : jsstring) (tools : list (Tool W))
    (task : jsstring) (scratchpad : option jsstring) (contextMessages : list ChatMessage) :
  exists sys usr,
    ReactPrompt.buildReactMessages instructions tools task scratchpad contextMessages
      = sys :: contextMessages ++ [usr] /\
    role sys = Role.system /\ role usr = Role.user /\
    (forall t, t ∈ tools -> includes (ReactPrompt.describe t) (content sys) = true) /\
    includes ReactPrompt.FORMAT_GUIDE (content sys) = true /\
    includes ReactPrompt.SAFETY_RULES (content sys) = true /\
    content usr =
      match scratchpad with
      | Some sp =>
          if bool_decide (trim sp = []) then trim task
          else trim task ++ js (nl ++ nl ++ "Scratchpad:" ++ nl) ++ sp
      | None => trim task
      end.
Proof.
  unfold ReactPrompt.buildReactMessages. cbv zeta.
  eexists _, _. split; [reflexivity |]. cbn [role content].
  split; [reflexivity |]. split; [reflexivity |]. split; [| split; [| split]].
  - intros t Ht.
    destruct (join_includes (js nl) (map ReactPrompt.describe tools) (ReactPrompt.describe t))
      as (a & b & Hab); [by apply list_elem_of_fmap_2 |].
    rewrite Hab. apply includes_spec.
    exists (js ("You are an autonomous coding agent." ++ nl) ++ trim instructions
            ++ js (nl ++ nl ++ "Available tools:" ++ nl) ++ a),
           (b ++ js (nl ++ nl) ++ ReactPrompt.FORMAT_GUIDE ++ js (nl ++ nl)
            ++ ReactPrompt.SAFETY_RULES).
    by rewrite <- !app_assoc.
  - apply includes_spec.
    exists (js ("You are an autonomous coding agent." ++ nl) ++ trim instructions
            ++ js (nl ++ nl ++ "Available tools:" ++ nl)
            ++ join (js nl) (map ReactPrompt.describe tools) ++ js (nl ++ nl)),
           (js (nl ++ nl) ++ ReactPrompt.SAFETY_RULES).
    by rewrite <- !app_assoc.
  - apply includes_spec.
    exists (js ("You are an autonomous coding agent." ++ nl) ++ trim instructions
            ++ js (nl ++ nl ++ "Available tools:" ++ nl)
            ++ join (js nl) (map ReactPrompt.describe tools) ++ js (nl ++ nl)
            ++ ReactPrompt.FORMAT_GUIDE ++ js (nl ++ nl)), [].
    by rewrite app_nil_r, <- !app_assoc.
  - destruct scratchpad as [sp|]; [| by rewrite app_nil_r].
    destruct (trim sp) as [|c l] eqn:E.
    + rewrite bool_decide_false by (by intros H; apply H). rewrite bool_decide_true by done.
      by rewrite app_nil_r.
    + rewrite bool_decide_true by done. by rewrite bool_decide_false.
Qed.

(** ** The parser: thought, fields, padding *)
Section ParserFields.
Import Regex ParserSpec ParserMore ReactParser.

Lemma starts_with_label_spec (label s : jsstring) :
  starts_with_label label s = true <->
  exists lab rest, s = lab ++ rest /\ same_letters label lab.
Proof.
  revert s; induction label as [|a label IH]; intros s; cbn [starts_with_label].
  - split; [intros _ | done]. exists [], s. by split; [| constructor].
  - destruct s as [|x s].
    + split; [done |]. intros (lab & rest & Hs & Hlab).
      inversion Hlab; subst. discriminate.
    + rewrite andb_true_iff, N.eqb_eq, IH. split.
      * intros [Hx (lab & rest & -> & Hlab)]. exists (x :: lab), rest.
        by split; [| constructor].
      * intros (lab & rest & Hs & Hlab). inversion Hlab as [|? y ? lab' Hy Hlab']; subst.
        injection Hs as -> ->. split; [done |]. by exists lab', rest.
Qed.

Lemma mentions_spec (label s : jsstring) :
  mentions label s = true <-> has_label label s.
Proof.
  unfold has_label. induction s as [|x s IH]; cbn [mentions].
  - rewrite orb_false_r, starts_with_label_spec. split.
    + intros (lab & rest & Hs & Hlab). by exists [], lab, rest.
    + intros ([|y pre] & lab & rest & Hs & Hlab); [by exists lab, rest | discriminate].
  - rewrite orb_true_iff, starts_with_label_spec, IH. split.
    + intros [(lab & rest & Hs & Hlab) | (pre & lab & rest & -> & Hlab)].
      * by exists [], lab, rest.
      * by exists (x :: pre), lab, rest.
    + intros ([|y pre] & lab & rest & Hs & Hlab).
      * left. by exists lab, rest.
      * injection Hs as <- ->. right. by exists pre, lab, rest.
Qed.

Lemma thought_needs_label (s : jsstring) :
  mentions (js "Thought:") s = false -> extractThought s = [].
Proof.
  intros Hno. unfold extractThought.
  destruct (exec 1 thought_re s) as [c|] eqn:E; [| done].
  assert (Hsome : is_Some (exec 1 thought_re s)) by (rewrite E; eauto).
  apply exec_spec in Hsome as (pre & s1 & s2 & -> & Hm).
  unfold thought_re in Hm. apply Matches_word in Hm as (lab & s' & -> & Hlab & _).
  assert (Hyes : mentions (js "Thought:") (pre ++ (lab ++ s') ++ s2) = true).
  { apply mentions_spec. exists pre, lab, (s' ++ s2). by rewrite <- app_assoc. }
  congruence.
Qed.

End ParserFields.

(** X6.  A reply without a [Thought:] label (in any letter case) is not
    refused for that: the thought of whatever the parser returns is the
    empty string. *)
Theorem thought_is_optional (t : jsstring) (r : ReactResponse) :
  ParserMore.mentions (js "Thought:") (trim t) = false ->
  ReactParser.parseReactOutput t = Ok r ->
  ParserMore.thought_of r = [].
Proof.
  intros Hno. unfold ReactParser.parseReactOutput. cbv zeta.
  rewrite (thought_needs_label _ Hno).
  destruct (Regex.exec 1 _ _); [by intros [= <-] |].
  destruct (Regex.exec 2 _ _); [by intros [= <-] | done].
Qed.

Lemma thought_is_optional_witness :
  ReactParser.parseReactOutput (js ("Action: read_file" ++ nl ++ "Action Input: a.txt"))
    = Ok (action [] (js "read_file") (js "a.txt")) /\
  ParserMore.thought_of (action [] (js "read_file") (js "a.txt")) = [].
Proof.
  split; [vm_compute; reflexivity |].
  apply (thought_is_optional (js ("Action: read_file" ++ nl ++ "Action Input: a.txt"))).
  - vm_compute. reflexivity.
  - vm_compute. reflexivity.
Defined.

Section ParserCaptures.
Import Regex ParserSpec ParserMore ReactParser.

(** The continuation [exec] gives the matcher. *)
Definition accept (_ : list N) (c : list (option (list N)))
  : option (list (option (list N))) := Some c.

Lemma run_word_sound w r s c k res :
  run (word w r) s c k = Some res ->
  exists lab s', s = lab ++ s' /\ same_letters w lab /\ run r s' c k = Some res.
Proof.
  revert s; induction w as [|a w IH]; intros s; cbn [word run].
  - intros H. exists [], s. by repeat split; [constructor |].
  - destruct s as [|x s]; [done |].
    destruct (N.eqb_spec (canonicalize a) (canonicalize x)) as [E|E]; [| done].
    intros H. apply IH in H as (lab & s' & -> & Hlab & H).
    exists (x :: lab), s'. by repeat split; [constructor |].
Qed.

Lemma run_seq_eq r1 r2 s c k :
  run (Seq r1 r2) s c k = run r1 s c (fun s' c' => run r2 s' c' k).
Proof. reflexivity. Qed.

Lemma run_chr_sound a s c k res :
  run (Chr a) s c k = Some res ->
  exists x s', s = x :: s' /\ canonicalize a = canonicalize x /\ k s' c = Some res.
Proof.
  cbn [run]. destruct s as [|x s]; [done |].
  destruct (N.eqb_spec (canonicalize a) (canonicalize x)) as [E|E]; [| done].
  intros H. by exists x, s.
Qed.

Lemma star_greedy_sound p s c k res :
  star_greedy p s c k = Some res ->
  exists s1 s2, s = s1 ++ s2 /\ Forall (fun x => p x = true) s1 /\ k s2 c = Some res.
Proof.
  induction s as [|x s IH]; cbn [star_greedy].
  - intros H. by exists [], [].
  - destruct (p x) eqn:Hp.
    + destruct (star_greedy p s c k) as [r|] eqn:Hg.
      * intros [= <-]. destruct (IH eq_refl) as (s1 & s2 & -> & H1 & H2).
        exists (x :: s1), s2. by repeat split; [constructor |].
      * intros H. by exists [], (x :: s).
    + intros H. by exists [], (x :: s).
Qed.

Lemma star_greedy_any_takes_all s c k :
  (forall s', is_Some (k s' c)) -> star_greedy any s c k = k [] c.
Proof.
  intros Hk. induction s as [|x s IH]; cbn [star_greedy]; [done |].
  unfold any at 1. rewrite IH. by destruct (Hk []) as [r ->].
Qed.

Lemma run_group_plus_sound i p s c k res :
  run (Group i (Plus p)) s c k = Some res ->
  exists s1 s2, s = s1 ++ s2 /\ s1 <> [] /\ Forall (fun x => p x = true) s1 /\
    k s2 (<[i := Some s1]> c) = Some res.
Proof.
  cbn [run]. destruct s as [|x s]; [done |]. destruct (p x) eqn:Hp; [| done].
  intros H. apply star_greedy_sound in H as (s1 & s2 & -> & H1 & H2).
  exists (x :: s1), s2. repeat split; [done | by constructor |].
  assert (E : take (length (x :: s1 ++ s2) - length s2) (x :: s1 ++ s2) = x :: s1).
  { replace (length (x :: s1 ++ s2) - length s2)%nat with (length (x :: s1))
      by (cbn [length]; rewrite length_app; lia).
    apply (take_app_length (x :: s1) s2). }
  cbv beta in H2. by rewrite E in H2.
Qed.

(** A last group [([\s\S]+)] captures all that is left. *)
Lemma run_rest_group i s c res :
  run (Group i (Plus any)) s c accept = Some res ->
  s <> [] /\ res = <[i := Some s]> c.
Proof.
  cbn [run]. destruct s as [|x s]; [done |]. unfold any at 1.
  rewrite star_greedy_any_takes_all by (intros s'; unfold accept; eauto).
  unfold accept. intros [= <-]. split; [done |].
  by rewrite firstn_all.
Qed.

Lemma run_ws_rest i s c res :
  run (Seq (Star true is_ws) (Group i (Plus any))) s c accept = Some res ->
  exists b, res = <[i := Some b]> c /\ b <> [] /\ b `suffix_of` s.
Proof.
  cbn [run]. intros H.
  apply (star_greedy_sound is_ws s c
           (fun s' c' => run (Group i (Plus any)) s' c' accept)) in H
    as (s1 & s2 & -> & _ & H).
  apply run_rest_group in H as [Hne ->].
  exists s2. repeat split; [done |]. by exists s1.
Qed.

Lemma exec_sound n r s res :
  exec n r s = Some res ->
  exists pre s', s = pre ++ s' /\ run r s' (replicate n None) accept = Some res.
Proof.
  induction s as [|x s IH]; cbn [exec]; fold accept.
  - destruct (run r [] (replicate n None) accept) as [c|] eqn:E; [| done].
    intros [= <-]. by exists [], [].
  - destruct (run r (x :: s) (replicate n None) accept) as [c|] eqn:E.
    + intros [= <-]. by exists [], (x :: s).
    + intros H. apply IH in H as (pre & s' & -> & H). by exists (x :: pre), s'.
Qed.

Lemma trim_ends_without_ws (t : jsstring) (c : N) :
  last (trim t) = Some c -> is_ws c = false.
Proof.
  unfold trim, trimEnd. intros H.
  destruct (trimStart (rev (trimStart t))) as [|x l] eqn:E; [done |].
  cbn [rev] in H. rewrite last_snoc in H. injection H as <-.
  by apply (trimStart_head _ _ _ E).
Qed.

Lemma trim_elem (s : jsstring) (x : N) : x ∈ trim s -> x ∈ s.
Proof.
  assert (Hstart : forall l, x ∈ trimStart l -> x ∈ l).
  { intros l H. destruct (trimStart_suffix l) as (ws & Hl & _). rewrite Hl.
    apply elem_of_app. by right. }
  unfold trim, trimEnd. intros H.
  apply list_elem_of_In, in_rev, list_elem_of_In, Hstart in H.
  apply list_elem_of_In, in_rev, list_elem_of_In in H. by apply Hstart.
Qed.

(** What is left of a nonempty end of a trimmed text, once trimmed, is
    not empty. *)
Lemma trim_suffix_nonempty (t b : jsstring) :
  b <> [] -> b `suffix_of` trim t -> trim b <> [].
Proof.
  intros Hne [pre Hpre].
  destruct (exists_last Hne) as (b0 & c & ->).
  assert (Hc : is_ws c = false).
  { apply (trim_ends_without_ws t). by rewrite Hpre, app_assoc, last_snoc. }
  by apply trim_nonempty.
Qed.

End ParserCaptures.

(** X7.  What the parser returns is trimmed and, where the grammar asks
    for text, not empty: a final response is never empty, the input of
    an action is never empty, and the tool name of an action is on one
    line (it has no line break).  The thought, the tool name, the input
    and the final response have neither leading nor trailing white
    space. *)
Theorem parsed_fields_are_trimmed (t : jsstring) (r : ReactResponse) :
  ReactParser.parseReactOutput t = Ok r ->
  match r with
  | final th out =>
      out <> [] /\ trim out = out /\ trim th = th
  | action th name inp =>
      inp <> [] /\ trim inp = inp /\ trim name = name /\ (LF ∉ name) /\ trim th = th
  end.
Proof.
  unfold ReactParser.parseReactOutput. cbv zeta.
  assert (Hth : trim (ReactParser.extractThought (trim t))
                = ReactParser.extractThought (trim t)).
  { unfold ReactParser.extractThought. destruct (Regex.exec 1 _ _); [apply trim_idem | done]. }
  destruct (Regex.exec 1 ReactParser.final_re (trim t)) as [fm|] eqn:Ef.
  - intros [= <-]. rewrite trim_idem. split; [| done].
    apply exec_sound in Ef as (pre & s' & Hs & Hrun).
    unfold ReactParser.final_re in Hrun.
    apply run_word_sound in Hrun as (lab & s'' & -> & _ & Hrun).
    apply run_ws_rest in Hrun as (b & -> & Hb & [pre' ->]).
    change (Regex.group _ 0) with b.
    apply (trim_suffix_nonempty t b Hb). rewrite Hs.
    exists (pre ++ lab ++ pre'). by rewrite <- !app_assoc.
  - destruct (Regex.exec 2 ReactParser.action_re (trim t)) as [am|] eqn:Ea; [| done].
    intros [= <-]. rewrite !trim_idem.
    apply exec_sound in Ea as (pre & s' & Hs & Hrun).
    unfold ReactParser.action_re in Hrun.
    apply run_word_sound in Hrun as (lab & s1 & -> & _ & Hrun).
    rewrite run_seq_eq in Hrun.
    apply (star_greedy_sound is_ws) in Hrun as (ws & s2 & -> & _ & Hrun).
    cbv beta in Hrun. rewrite run_seq_eq in Hrun.
    apply run_group_plus_sound in Hrun as (name & s3 & -> & Hname & Hline & Hrun).
    cbv beta in Hrun. rewrite run_seq_eq in Hrun.
    apply run_chr_sound in Hrun as (x & s3' & -> & _ & Hrun). cbv beta in Hrun.
    apply run_word_sound in Hrun as (lab2 & s4 & -> & _ & Hrun).
    apply run_ws_rest in Hrun as (b & -> & Hb & [pre' ->]).
    change (Regex.group _ 0) with name. change (Regex.group _ 1) with b.
    repeat split; try done.
    + apply (trim_suffix_nonempty t b Hb). rewrite Hs.
      exists (pre ++ lab ++ ws ++ name ++ [x] ++ lab2 ++ pre').
      by rewrite <- !app_assoc.
    + intros Hin. apply trim_elem in Hin. rewrite Forall_forall in Hline.
      apply Hline in Hin. by apply not_LF in Hin.
Qed.

Lemma parsed_fields_are_trimmed_witness :
  js "read_file" <> [] /\ trim (js "a.txt") = js "a.txt" /\
  trim (js "read_file") = js "read_file" /\ (LF ∉ js "read_file").
Proof.
  pose proof (parsed_fields_are_trimmed
    (js ("thought: look" ++ nl ++ "ACTION:  read_file " ++ nl ++ "action input: a.txt  "))
    (action (js "look") (js "read_file") (js "a.txt"))
    ltac:(vm_compute; reflexivity)) as (_ & H1 & H2 & H3 & _).
  split; [done |]. split; [exact H1 |]. split; [exact H2 | exact H3].
Defined.


(** ** The file tools: what they read, what they leave alone *)

(** X8.  [read_file] changes nothing in the file system.  When it
    fulfils, its input is not blank and names, within the root, a file;
    the text is what [FileSpec.shown] gives for the contents of that
    file (the contents, their first 4000 characters and the truncation
    mark, or the notice for a file of more than 200000 bytes), and it
    has at most 4016 characters.  When it rejects, it is for one of
    five reasons: the input was blank (its own message); the path was
    refused (the access violation); [stat] failed (the tool rejects
    with the error of [stat], whatever it is); the path is a directory
    (its own message); or [readFile] failed (with that error). *)
Theorem read_file_shows_a_file (pcwd input : jsstring) (ctx : ToolExecutionContext)
    (m m' : gmap (list N) Fs.entry) (res : outcome jsstring) :
  execute (createReadFileTool pcwd) input ctx m = (res, m') ->
  m' = m /\
  match res with
  | Ok text =>
      trim input <> [] /\
      (length text <= 4016)%nat /\
      exists target contents,
        resolveRepoPath pcwd input ctx = Ok target /\
        m !! target = Some (Fs.File contents) /\
        text = FileSpec.shown contents
  | Throw e =>
      (trim input = [] /\
       e = Error (js "Please provide a file path relative to the repository root.")) \/
      (trim input <> [] /\ resolveRepoPath pcwd input ctx = Throw e /\
       e = AccessViolation) \/
      (exists target,
         trim input <> [] /\ resolveRepoPath pcwd input ctx = Ok target /\
         (Fs.stat m target = Throw e \/
          (exists st, Fs.stat m target = Ok st /\ Fs.isDirectory st = true /\
                      e = Error (js "Cannot read a directory. Provide a file path.")) \/
          (exists st, Fs.stat m target = Ok st /\ Fs.isDirectory st = false /\
                      Fs.size st <= 200000 /\ Fs.readFile m target = Throw e)))
  end.
Proof.
  cbn [execute createReadFileTool]. cbv zeta.
  case_bool_decide as Hblank.
  { intros [= <- <-]. split; [done |]. by left. }
  rewrite resolveRepoPath_trim.
  destruct (resolveRepoPath pcwd input ctx) as [target|e] eqn:Hres.
  2: { intros [= <- <-]. split; [done |]. right. left. split; [done |]. split; [done |].
       unfold resolveRepoPath in Hres. cbv zeta in Hres.
       destruct (_ && _); by inversion Hres. }
  destruct (Fs.stat m target) as [st|e] eqn:Hstat.
  2: { intros [= <- <-]. split; [done |]. right. right. exists target. by eauto. }
  destruct (Fs.isDirectory st) eqn:Hdir.
  { intros [= <- <-]. split; [done |]. right. right. exists target.
    split; [done |]. split; [done |]. right. left. by exists st. }
  destruct (N.ltb_spec 200000 (Fs.size st)) as [Hbig|Hsmall].
  - intros [= <- <-]. split; [done |]. split; [done |].
    split; [vm_compute; lia |].
    unfold Fs.stat in Hstat.
    destruct (m !! target) as [[contents|]|] eqn:Hm;
      [| by injection Hstat as <- | done].
    injection Hstat as <-. cbn [Fs.size] in Hbig.
    exists target, contents. split; [done |]. split; [done |].
    unfold FileSpec.shown. by destruct (N.ltb_spec 200000 (Fs.byteLength contents)); [| lia].
  - destruct (Fs.readFile m target) as [contents|e] eqn:Hread.
    2: { intros [= <- <-]. split; [done |]. right. right. exists target.
         split; [done |]. split; [done |]. right. right. by exists st. }
    assert (Hshown : m !! target = Some (Fs.File contents) /\
                     FileSpec.shown contents
                     = if (4000 <? length contents)%nat
                       then take 4000 contents ++ TRUNCATED else contents).
    { unfold Fs.stat, Fs.readFile in Hstat, Hread.
      destruct (m !! target) as [[contents'|]|] eqn:Hm; [| done | done].
      injection Hread as ->. injection Hstat as <-. cbn [Fs.size] in Hsmall.
      split; [done |]. unfold FileSpec.shown.
      by destruct (N.ltb_spec 200000 (Fs.byteLength contents)); [lia |]. }
    destruct Hshown as [Hm Hshown].
    destruct (Nat.ltb_spec 4000 (length contents)) as [Hlen|Hlen].
    + intros [= <- <-]. split; [done |]. split; [done |]. split.
      * rewrite length_app, length_take. change (length TRUNCATED) with 16%nat. lia.
      * by exists target, contents.
    + intros [= <- <-]. split; [done |]. split; [done |]. split; [lia |].
      by exists target, contents.
Qed.

Lemma read_file_shows_a_file_witness :
  (length (js "gamma") <= 4016)%nat /\
  exists target contents,
    resolveRepoPath (js "/") (js " src/b.txt") Scenario.repo = Ok target /\
    Scenario.tree !! target = Some (Fs.File contents) /\
    js "gamma" = FileSpec.shown contents.
Proof.
  pose proof (read_file_shows_a_file (js "/") (js " src/b.txt") Scenario.repo
                Scenario.tree Scenario.tree (Ok (js "gamma"))
                ltac:(vm_compute; reflexivity)) as (_ & _ & H1 & H2).
  split; [exact H1 | exact H2].
Defined.

Section WriteFacts.



End WriteFacts.




(** ** The file search: how much it reports, and what *)
Section SearchInvariant.
Import System.
Variable pcwd : jsstring.
Variable ctx : ToolExecutionContext.
Variable m : gmap (list N) Fs.entry.
Variable regex : jsstring -> bool.
(** A property of result lines that every line the traversal adds has. *)
Variable P : jsstring -> Prop.
Hypothesis P_dir : forall current e message,
  Fs.readdir m current = Throw e -> message_of e = Ok message ->
  P (Path.relative pcwd (cwd ctx) current ++ js ": error reading directory: " ++ message).
Hypothesis P_file : forall path ms mt,
  searchFileForPattern m path regex = Ok ms -> mt ∈ ms ->
  P (Path.relative pcwd (cwd ctx) path ++ js ":" ++ mt).

Lemma push_matches_inv (prefix : jsstring) (fileMatches results : list jsstring) :
  Forall P results ->
  Forall (fun mt => P (prefix ++ js ":" ++ mt)) fileMatches ->
  (length results < MAX_MATCHES)%nat ->
  Forall P (push_matches prefix fileMatches results) /\
  (length (push_matches prefix fileMatches results) <= MAX_MATCHES)%nat.
Proof.
  intros Hres Hms; revert results Hres.
  induction Hms as [|mt ms Hmt _ IH]; intros results Hres Hlen; cbn [push_matches].
  - split; [done | lia].
  - cbv zeta.
    assert (Hres' : Forall P (results ++ [prefix ++ js ":" ++ mt])).
    { apply Forall_app. by split; [| constructor]. }
    assert (Hlen' : length (results ++ [prefix ++ js ":" ++ mt]) = S (length results)).
    { rewrite length_app. cbn [length]. lia. }
    destruct (Nat.leb_spec MAX_MATCHES (length (results ++ [prefix ++ js ":" ++ mt]))).
    + split; [done | lia].
    + by apply IH.
Qed.

Lemma scan_entries_inv (current : jsstring) (entries : list (jsstring * Fs.entry))
    (queue results queue' results' : list jsstring) :
  Forall P results -> (length results < MAX_MATCHES)%nat ->
  scan_entries pcwd ctx m regex current entries queue results = Ok (queue', results') ->
  Forall P results' /\ (length results' <= MAX_MATCHES)%nat.
Proof.
  revert queue results; induction entries as [|[name e] entries IH];
    intros queue results Hres Hlen; cbn [scan_entries].
  - intros [= <- <-]. split; [done | lia].
  - destruct e as [text|].
    + cbv zeta.
      destruct (searchFileForPattern m (Path.join2 current name) regex) as [ms|err] eqn:Hms;
        cbn [mbind outcome_bind]; [| done].
      destruct (push_matches_inv (Path.relative pcwd (cwd ctx) (Path.join2 current name))
                  ms results Hres) as [Hres' Hlen']; [| done |].
      { apply Forall_forall. intros mt Hmt. by apply (P_file _ ms). }
      destruct (Nat.leb_spec MAX_MATCHES
                  (length (push_matches (Path.relative pcwd (cwd ctx) (Path.join2 current name))
                             ms results))).
      * by intros [= <- <-].
      * by apply IH.
    + destruct (negb (shouldSkipDir name)); by apply IH.
Qed.

Lemma collect_loop_inv (fuel : nat) (queue results matches : list jsstring) :
  Forall P results -> (length results <= MAX_MATCHES)%nat ->
  collect_loop pcwd fuel ctx m regex queue results = Some (Ok matches) ->
  Forall P matches /\ (length matches <= MAX_MATCHES)%nat.
Proof.
  revert queue results; induction fuel as [|fuel IH]; intros [|current queue] results
    Hres Hlen; cbn [collect_loop]; try (by intros [= <-]).
  - destruct (Nat.ltb_spec (length results) MAX_MATCHES); [done | by intros [= <-]].
  - destruct (Nat.ltb_spec (length results) MAX_MATCHES) as [Hlt|]; [| by intros [= <-]].
    destruct (Fs.readdir m current) as [entries|e] eqn:Hdir.
    + destruct (scan_entries pcwd ctx m regex current entries queue results)
        as [[queue' results']|e] eqn:Hscan; [| done].
      destruct (scan_entries_inv _ _ _ _ _ _ Hres Hlt Hscan) as [Hres' Hlen'].
      by apply IH.
    + destruct (message_of e) as [message|e'] eqn:Hmsg; [| done].
      apply IH.
      * apply Forall_app. split; [done |]. constructor; [| done]. by apply (P_dir _ e).
      * rewrite length_app. cbn [length]. lia.
Qed.

End SearchInvariant.

Section SearchSound.
Import System.

Lemma truncate_length (value : jsstring) : (length (truncate value) <= 4016)%nat.
Proof.
  unfold truncate. change MAX_OUTPUT_LENGTH with 4000%nat.
  destruct (Nat.ltb_spec 4000 (length value)); [| lia].
  rewrite length_app, length_take. change (length TRUNCATED) with 16%nat. lia.
Qed.

Lemma number_matches_sound (test : jsstring -> bool) (lines : list jsstring) (index : N)
    (mt : jsstring) :
  mt ∈ number_matches test index lines ->
  exists (i : nat) line,
    lines !! i = Some line /\ test line = true /\
    mt = decimal (index + N.of_nat i + 1) ++ js ": " ++ line.
Proof.
  revert index; induction lines as [|l lines IH]; intros index; cbn [number_matches].
  - by intros ?%elem_of_nil.
  - cbv zeta. intros H.
    assert (Htl : mt ∈ number_matches test (index + 1) lines ->
                  exists (i : nat) line,
                    (l :: lines) !! i = Some line /\ test line = true /\
                    mt = decimal (index + N.of_nat i + 1) ++ js ": " ++ line).
    { intros (i & line & Hi & Ht & ->)%IH. exists (S i), line.
      split; [done |]. split; [done |].
      by replace (index + N.of_nat (S i) + 1) with (index + 1 + N.of_nat i + 1) by lia. }
    destruct (test l) eqn:Hl; [| by apply Htl].
    apply elem_of_cons in H as [-> | H]; [| by apply Htl].
    exists O, l. split; [done |]. split; [done |].
    by replace (index + N.of_nat 0 + 1) with (index + 1) by lia.
Qed.

Lemma searchFile_sound (pcwd : jsstring) (ctx : ToolExecutionContext)
    (m : gmap (list N) Fs.entry) (regex : jsstring -> bool) (path : jsstring)
    (ms : list jsstring) (mt : jsstring) :
  searchFileForPattern m path regex = Ok ms -> mt ∈ ms ->
  SearchMore.reported pcwd ctx m regex (Path.relative pcwd (cwd ctx) path ++ js ":" ++ mt).
Proof.
  unfold searchFileForPattern. cbv zeta.
  destruct (Fs.stat m path) as [st|e] eqn:Hstat; cbn [mbind outcome_bind].
  - destruct (N.ltb_spec MAX_FILE_BYTES (Fs.size st)) as [Hbig|Hsmall].
    { intros [= <-]. by intros ?%elem_of_nil. }
    destruct (Fs.readFile m path) as [contents|e] eqn:Hread; cbn [mbind outcome_bind].
    + intros [= <-] (i & line & Hi & Ht & ->)%number_matches_sound.
      unfold Fs.stat, Fs.readFile in Hstat, Hread.
      destruct (m !! path) as [[text|]|] eqn:Hm; [| done | done].
      injection Hread as ->. injection Hstat as <-. cbn [Fs.size] in Hsmall.
      rewrite N.add_0_l. by apply (SearchMore.reported_match _ _ _ _ path contents i line).
    + destruct (message_of e) as [message|e'] eqn:Hmsg; cbn [mbind outcome_bind]; [| done].
      intros [= <-]. intros Hin. apply list_elem_of_singleton in Hin as ->.
      apply (SearchMore.reported_unreadable_file _ _ _ _ path e message); [by right | done].
  - destruct (message_of e) as [message|e'] eqn:Hmsg; cbn [mbind outcome_bind]; [| done].
    intros [= <-]. intros Hin. apply list_elem_of_singleton in Hin as ->.
    apply (SearchMore.reported_unreadable_file _ _ _ _ path e message); [by left | done].
Qed.

End SearchSound.

(** X10.  What [file_search] returns is bounded.  When it fulfils, the
    payload, the pattern and the search root were accepted and the
    traversal from that root ended with a list of at most 100 result
    lines; the text is the literal for no match when that list is
    empty, and otherwise its lines joined by line breaks and cut by
    [truncate]; in either case it has at most 4016 characters. *)
Theorem file_search_output_is_bounded (pcwd : jsstring)
    (JSON_parse : jsstring -> option Json.value)
    (RegExp_new : jsstring -> option jsstring -> outcome (jsstring -> bool))
    (fuel : nat) (input : jsstring) (ctx : ToolExecutionContext)
    (m : gmap (list N) Fs.entry) (text : jsstring) :
  System.fileSearch_execute pcwd JSON_parse RegExp_new fuel input ctx m = Some (Ok text) ->
  (length text <= 4016)%nat /\
  exists payload regex root matches,
    System.parseFileSearchInput JSON_parse input = Ok payload /\
    System.buildRegex RegExp_new (System.search_pattern payload)
      (System.search_flags payload) = Ok regex /\
    System.search_root pcwd payload ctx = Ok root /\
    System.collectMatches pcwd fuel root regex ctx m = Some (Ok matches) /\
    (length matches <= 100)%nat /\
    ((matches = [] /\ text = System.NO_MATCHES) \/
     (matches <> [] /\ text = System.truncate (join (js nl) matches))).
Proof.
  unfold System.fileSearch_execute.
  destruct (System.parseFileSearchInput JSON_parse input) as [payload|e]; [| done].
  destruct (System.buildRegex RegExp_new _ _) as [regex|e] eqn:Hregex; [| done].
  destruct (System.search_root pcwd payload ctx) as [root|e] eqn:Hroot; [| done].
  destruct (System.collectMatches pcwd fuel root regex ctx m) as [[matches|e]|] eqn:Hc;
    [| done | done].
  assert (Hlen : (length matches <= 100)%nat).
  { unfold System.collectMatches in Hc.
    apply (collect_loop_inv pcwd ctx m regex (fun _ => True)) in Hc as [_ Hlen];
      [done | done | done | by constructor | cbn [length]; lia]. }
  case_bool_decide as Hnil.
  - intros [= <-]. split; [vm_compute; lia |].
    exists payload, regex, root, matches. repeat split; try done.
    left. split; [by apply nil_length_inv | done].
  - intros [= <-]. split; [apply truncate_length |].
    exists payload, regex, root, matches. repeat split; try done.
    right. split; [by intros -> | done].
Qed.

Lemma file_search_output_is_bounded_witness :
  (length (js "a.txt:2: beta") <= 4016)%nat /\
  exists payload regex root matches,
    System.parseFileSearchInput (Scenario.parse_search (js "beta") (js "."))
      (Scenario.search_input (js "beta") (js ".")) = Ok payload /\
    System.buildRegex Scenario.RegExp_plain (System.search_pattern payload)
      (System.search_flags payload) = Ok regex /\
    System.search_root (js "/") payload Scenario.repo = Ok root /\
    System.collectMatches (js "/") 10 root regex Scenario.repo Scenario.tree
      = Some (Ok matches) /\
    (length matches <= 100)%nat /\
    ((matches = [] /\ js "a.txt:2: beta" = System.NO_MATCHES) \/
     (matches <> [] /\ js "a.txt:2: beta" = System.truncate (join (js nl) matches))).
Proof.
  apply (file_search_output_is_bounded (js "/") (Scenario.parse_search (js "beta") (js "."))
           Scenario.RegExp_plain 10 (Scenario.search_input (js "beta") (js "."))
           Scenario.repo Scenario.tree).
  vm_compute. reflexivity.
Defined.

(** X11.  Every line the traversal of [file_search] reports is real: it
    is a line of a file of the file system that the pattern accepts
    (the file is within the size ceiling), shown under the path of the
    file relative to the working directory and with its number in the
    file counted from 1; or it tells of a file that could not be read,
    or of a directory that could not be listed, with the message of the
    error. *)
Theorem search_reports_real_lines (pcwd : jsstring) (fuel : nat) (root : jsstring)
    (regex : jsstring -> bool) (ctx : ToolExecutionContext) (m : gmap (list N) Fs.entry)
    (matches : list jsstring) :
  System.collectMatches pcwd fuel root regex ctx m = Some (Ok matches) ->
  Forall (SearchMore.reported pcwd ctx m regex) matches.
Proof.
  unfold System.collectMatches. intros Hc.
  apply (collect_loop_inv pcwd ctx m regex (SearchMore.reported pcwd ctx m regex)) in Hc
    as [H _]; [done | | | by constructor | cbn [length]; lia].
  - intros current e message Hdir Hmsg.
    by apply (SearchMore.reported_unreadable_directory _ _ _ _ current e message).
  - intros path ms mt. apply searchFile_sound.
Qed.

Lemma search_reports_real_lines_witness :
  Forall (SearchMore.reported (js "/") Scenario.repo Scenario.tree (includes (js "beta")))
    [js "a.txt:2: beta"].
Proof.
  apply (search_reports_real_lines (js "/") 10 (js "/repo")).
  vm_compute. reflexivity.
Defined.


(** ** Paths: the displayed form, and absolute candidates *)
Section DisplayFacts.
Import Path PathSpec.
Variable pcwd : jsstring.
Hypothesis pcwd_absolute : isAbsolute pcwd = true.

(** A [.] segment changes nothing, wherever it stands. *)
Lemma normalizeSegments_skip_dot (b : bool) (l1 l2 acc : list jsstring) :
  normalizeSegments b (l1 ++ dot :: l2) acc = normalizeSegments b (l1 ++ l2) acc.
Proof.
  revert acc; induction l1 as [|seg l1 IH]; intros acc; cbn [app normalizeSegments].
  - rewrite (bool_decide_true (dot = dot)) by done. by rewrite orb_true_r.
  - destruct (_ || _); [apply IH |]. case_bool_decide; [| apply IH].
    destruct acc as [|top acc]; [destruct b; apply IH |]. destruct (_ && _); apply IH.
Qed.

Lemma resolve_dot_slash (rs : list jsstring) (rel : jsstring) :
  Forall proper_segment rs ->
  resolve pcwd [sep ++ join sep rs; js "./" ++ rel]
  = sep ++ join sep (normalizeSegments false (rs ++ components rel) []).
Proof.
  intros Hrs. rewrite resolve_under by done.
  change (js "./" ++ rel) with (dot ++ sep ++ rel).
  rewrite components_app_sep. change (components dot) with [dot].
  cbn [app]. by rewrite normalizeSegments_skip_dot.
Qed.

(** What the candidate [rel] resolves to, when it is not empty. *)
Lemma prefixed_resolves (rs : list jsstring) (rel : jsstring) :
  Forall proper_segment rs -> rel <> [] -> isAbsolute rel = false ->
  resolve pcwd [sep ++ join sep rs;
                if startsWith (js ".") rel then rel else js "./" ++ rel]
  = resolve pcwd [sep ++ join sep rs; rel].
Proof.
  intros Hrs Hrel Hrelative.
  destruct (startsWith (js ".") rel); [done |].
  by rewrite resolve_dot_slash, resolve_under.
Qed.

Lemma pathFromRepoRoot_not_nil (t : jsstring) (ctx : ToolExecutionContext) :
  pathFromRepoRoot pcwd t ctx <> [].
Proof. unfold pathFromRepoRoot. by case_bool_decide. Qed.

Lemma trimStart_app_nonws (l b : jsstring) (c : N) :
  is_ws c = false -> trimStart (l ++ c :: b) = trimStart l ++ c :: b.
Proof.
  intros Hc. induction l as [|x l IH]; cbn [app trimStart]; [by rewrite Hc |].
  by destruct (is_ws x).
Qed.

Lemma trimEnd_cons_nonws (c : N) (s : jsstring) :
  is_ws c = false -> trimEnd (c :: s) = c :: trimEnd s.
Proof.
  intros Hc. unfold trimEnd. cbn [rev].
  rewrite trimStart_app_nonws by done. by rewrite rev_app_distr.
Qed.

Lemma trim_fixed_trimEnd (s : jsstring) : trim s = s -> trimEnd s = s.
Proof.
  intros H. rewrite <- H at 1. unfold trim. by rewrite trimEnd_idem.
Qed.

Lemma trim_sep_cons (rest : jsstring) : trim rest = rest -> trim (sep ++ rest) = sep ++ rest.
Proof.
  intros H. unfold trim. change (trimStart (sep ++ rest)) with (SLASH :: rest).
  rewrite trimEnd_cons_nonws by done. by rewrite trim_fixed_trimEnd.
Qed.

(** A candidate with a leading separator resolves as the candidate
    without it. *)
Lemma candidate_target_sep (rest : jsstring) (ctx : ToolExecutionContext) :
  trim rest = rest ->
  candidate_target pcwd (sep ++ rest) ctx = candidate_target pcwd rest ctx.
Proof.
  intros Hrest. unfold candidate_target. cbv zeta.
  rewrite trim_sep_cons, Hrest by done.
  destruct (resolve_normal pcwd [cwd ctx] pcwd_absolute) as (rs & -> & Hrs).
  rewrite bool_decide_true by done.
  change (startsWith (js ".") (sep ++ rest)) with false. cbv iota.
  rewrite resolve_dot_slash by done.
  change (sep ++ rest) with ([] ++ sep ++ rest).
  rewrite (components_app_sep [] rest). change (components []) with (@nil jsstring).
  cbn [app].
  case_bool_decide as Hnil.
  - destruct (startsWith (js ".") rest) eqn:Hdot.
    + rewrite resolve_under; [done | done | by intros -> |].
      destruct rest as [|x rest]; [done |]. cbn [startsWith js] in Hdot.
      apply andb_true_iff in Hdot as [Hx _]. apply N.eqb_eq in Hx. by subst x.
    + by rewrite resolve_dot_slash.
  - assert (rest = []) as ->.
    { destruct rest; [done |]. cbn [length] in Hnil. discriminate Hnil. }
    change (startsWith (js ".") (js ".")) with true. cbv iota.
    rewrite resolve_dot by done.
    change (components []) with (@nil jsstring). rewrite app_nil_r.
    by rewrite normalizeSegments_proper_id.
Qed.

End DisplayFacts.

(** X12.  The path that [pathFromRepoRoot] shows for a path that
    [resolveRepoPath] has returned is itself accepted by
    [resolveRepoPath], and leads back to the same path, provided that it
    has no white space at either end (a candidate is trimmed first). *)
Theorem displayed_path_leads_back (pcwd P : jsstring) (ctx : ToolExecutionContext)
    (t : jsstring) :
  Path.isAbsolute pcwd = true ->
  resolveRepoPath pcwd P ctx = Ok t ->
  trim (pathFromRepoRoot pcwd t ctx) = pathFromRepoRoot pcwd t ctx ->
  resolveRepoPath pcwd (pathFromRepoRoot pcwd t ctx) ctx = Ok t.
Proof.
  intros Habs Hres Htrim.
  destruct (resolveRepoPath_returns pcwd P ctx t Hres) as [Ht Hwithin].
  assert (Hnormal : exists ts, t = Path.sep ++ join Path.sep ts
                               /\ Forall PathSpec.proper_segment ts).
  { rewrite Ht. apply resolve_normal, Habs. }
  destruct Hnormal as (ts & Hts & Hproper).
  destruct (pathFromRepoRoot_resolves pcwd Habs ctx t ts Hts Hproper Hwithin)
    as [Hrel Hback].
  cbv zeta in Hrel, Hback.
  pose proof (pathFromRepoRoot_not_nil pcwd t ctx) as Hne.
  assert (Hcheck : negb (bool_decide (t = Path.resolve pcwd [cwd ctx]))
                   && negb (startsWith (Path.resolve pcwd [cwd ctx] ++ Path.sep) t) = false).
  { rewrite resolveRepoPath_unfold in Hres. cbv zeta in Hres. rewrite <- Ht in Hres.
    by destruct (_ && _). }
  unfold resolveRepoPath. cbv zeta. rewrite Htrim.
  assert (Hlen : length (pathFromRepoRoot pcwd t ctx) <> 0%nat).
  { intros H0. by apply Hne, nil_length_inv. }
  rewrite (bool_decide_true _ Hlen).
  destruct (resolve_normal pcwd [cwd ctx] Habs) as (rs & Hroot & Hrs).
  rewrite Hroot in *.
  rewrite prefixed_resolves by done.
  by rewrite Hback, Hcheck.
Qed.

Lemma displayed_path_leads_back_witness :
  resolveRepoPath (js "/") (js "a/b.txt") Scenario.repo = Ok (js "/repo/a/b.txt").
Proof.
  apply (displayed_path_leads_back (js "/") (js "src/../a/./b.txt") Scenario.repo
           (js "/repo/a/b.txt")).
  - reflexivity.
  - vm_compute. reflexivity.
  - vm_compute. reflexivity.
Defined.

(** A file whose name starts with a space is shown with the space, and
    the shown path, once trimmed, names another file. *)
Example displayed_path_with_outer_space :
  resolveRepoPath (js "/") (js "./ a") Scenario.repo = Ok (js "/repo/ a") /\
  pathFromRepoRoot (js "/") (js "/repo/ a") Scenario.repo = js " a" /\
  resolveRepoPath (js "/") (js " a") Scenario.repo = Ok (js "/repo/a").
Proof. repeat split; vm_compute; reflexivity. Qed.

(** X13.  A separator at the front of a candidate is ignored: an
    absolute candidate is read as a path relative to the root, never as
    the absolute path it spells.  (The candidate without the separator
    is taken trimmed, as a candidate is trimmed before anything else.) *)
Theorem leading_separator_is_ignored (pcwd rest : jsstring) (ctx : ToolExecutionContext) :
  Path.isAbsolute pcwd = true ->
  trim rest = rest ->
  resolveRepoPath pcwd (Path.sep ++ rest) ctx = resolveRepoPath pcwd rest ctx.
Proof.
  intros Habs Hrest. rewrite !resolveRepoPath_unfold.
  by rewrite candidate_target_sep.
Qed.

Lemma leading_separator_is_ignored_witness :
  resolveRepoPath (js "/") (js "/etc/passwd") Scenario.repo
  = resolveRepoPath (js "/") (js "etc/passwd") Scenario.repo.
Proof.
  apply (leading_separator_is_ignored (js "/") (js "etc/passwd") Scenario.repo).
  - reflexivity.
  - vm_compute. reflexivity.
Defined.


(** ** Payloads *)

(** X14.  [parseWritePayload] accepts exactly the inputs that parse, as
    JSON, to an object whose [path] and [contents] are strings (either
    may be empty), and returns those two strings; every other input is
    refused with one of its three messages, never with another error. *)
Theorem parseWritePayload_accepts (JSON_parse : jsstring -> option Json.value)
    (input : jsstring) :
  (forall p c,
     parseWritePayload JSON_parse input
       = Ok {| payload_path := p; payload_contents := c |} <->
     exists fields,
       JSON_parse input = Some (Json.JObject fields) /\
       Json.lookup_field (js "path") fields = Some (Json.JString p) /\
       Json.lookup_field (js "contents") fields = Some (Json.JString c)) /\
  (forall e,
     parseWritePayload JSON_parse input = Throw e ->
     (JSON_parse input = None /\
      e = Error (js "Invalid JSON. Provide {" ++ dq ++ js "path" ++ dq ++ js ": "
                   ++ dq ++ js "..." ++ dq ++ js ", " ++ dq ++ js "contents" ++ dq
                   ++ js ": " ++ dq ++ js "..." ++ dq ++ js "}.")) \/
     e = Error (js "Missing " ++ dq ++ js "path" ++ dq ++ js " string field.") \/
     e = Error (js "Missing " ++ dq ++ js "contents" ++ dq ++ js " string field.")).
Proof.
  unfold parseWritePayload. split.
  - intros p c. split.
    + destruct (JSON_parse input) as [v|]; [| done].
      destruct (Json.falsy v); [done |].
      destruct v as [| | | |?|fields]; cbn [Json.get]; try done.
      destruct (Json.lookup_field (js "path") fields) as [[| | |p'| |]|] eqn:Hp;
        try done.
      destruct (Json.lookup_field (js "contents") fields) as [[| | |c'| |]|] eqn:Hc;
        try done.
      intros [= <- <-]. by exists fields.
    + intros (fields & -> & Hp & Hc). cbn [Json.falsy Json.get]. by rewrite Hp, Hc.
  - intros e. destruct (JSON_parse input) as [v|]; [| intros [= <-]; by left].
    destruct (Json.falsy v); [intros [= <-]; right; by left |].
    destruct (Json.get v (js "path")) as [[| | |p'| |]|];
      try (intros [= <-]; right; by left).
    destruct (Json.get v (js "contents")) as [[| | |c'| |]|];
      try (intros [= <-]; right; by right).
Qed.

(** X15.  What [parseFileSearchInput] returns is trimmed: the pattern
    has no white space at either end and is not empty, and so are the
    path and the flags trimmed when they are given. *)
Theorem search_payload_is_trimmed (JSON_parse : jsstring -> option Json.value)
    (input : jsstring) (payload : System.FileSearchPayload) :
  System.parseFileSearchInput JSON_parse input = Ok payload ->
  System.search_pattern payload <> [] /\
  trim (System.search_pattern payload) = System.search_pattern payload /\
  (forall p, System.search_path payload = Some p -> trim p = p) /\
  (forall f, System.search_flags payload = Some f -> trim f = f).
Proof.
  unfold System.parseFileSearchInput.
  destruct (JSON_parse input) as [v|]; [| done]. cbv zeta.
  destruct (Json.falsy v); [done |].
  destruct (Json.get v (js "pattern")) as [[| | |pattern| |]|]; try done.
  case_bool_decide as Hblank; [done |].
  destruct (_ && _); [done |]. destruct (_ && _); [done |].
  destruct (Json.get v (js "path")) as [[| | |p| |]|]; cbn [mbind outcome_bind]; try done;
    destruct (Json.get v (js "flags")) as [[| | |f| |]|]; cbn [mbind outcome_bind]; try done;
    intros [= <-]; cbn [System.search_pattern System.search_path System.search_flags];
    (split; [done |]); (split; [apply trim_idem |]);
    split; intros ? [= <-]; apply trim_idem.
Qed.

Lemma search_payload_is_trimmed_witness :
  trim (js "beta") = js "beta".
Proof.
  exact (proj1 (proj2 (search_payload_is_trimmed
    (Scenario.parse_search (js " beta ") (js "."))
    (Scenario.search_input (js " beta ") (js "."))
    {| System.search_pattern := js "beta"; System.search_path := Some (js ".");
       System.search_flags := None |}
    ltac:(vm_compute; reflexivity)))).
Defined.


(** ** The configuration and the model client *)

(** X16.  Loading the configuration fails, with its one message,
    exactly when [DEEPSEEK_API_KEY] is unset or blank.  When it
    succeeds, the key is the trimmed variable and is not empty, and the
    client constructor accepts the configuration: the client holds that
    key, the default base URL, and as model the trimmed
    [DEEPSEEK_MODEL], the default name standing in only when the
    variable is unset (a blank variable gives the empty model name). *)
Theorem loaded_config_makes_a_client (process_env : gmap (list N) (list N))
    (number : Type) (one_tenth : number) :
  match Config.loadDeepSeekConfig process_env with
  | Ok c =>
      (exists raw, process_env !! js "DEEPSEEK_API_KEY" = Some raw /\
                   trim raw <> [] /\ Config.config_apiKey c = trim raw) /\
      exists client,
        DeepSeek.new_DeepSeekClient number one_tenth (DeepSeek.options_of_config number c)
          = Ok client /\
        DeepSeek.client_apiKey number client = Config.config_apiKey c /\
        DeepSeek.client_baseUrl number client = js "https://api.deepseek.com/v1" /\
        DeepSeek.client_model number client =
          match process_env !! js "DEEPSEEK_MODEL" with
          | Some raw => trim raw
          | None => js "deepseek-chat"
          end
  | Throw e =>
      e = Error (js "Missing DEEPSEEK_API_KEY in the environment.") /\
      (process_env !! js "DEEPSEEK_API_KEY" = None \/
       exists raw, process_env !! js "DEEPSEEK_API_KEY" = Some raw /\ trim raw = [])
  end.
Proof.
  unfold Config.loadDeepSeekConfig, Config.env_trimmed.
  destruct (process_env !! js "DEEPSEEK_API_KEY") as [raw|] eqn:Hkey; cbn [fmap option_fmap option_map].
  2: { split; [done | by left]. }
  destruct (trim raw) as [|c key] eqn:Hraw.
  { split; [done |]. right. by exists raw. }
  split; [exists raw; by rewrite Hraw |].
  unfold DeepSeek.new_DeepSeekClient, DeepSeek.options_of_config.
  cbn [DeepSeek.options_apiKey DeepSeek.options_model DeepSeek.options_baseUrl
       DeepSeek.options_temperature Config.config_apiKey Config.config_model].
  rewrite bool_decide_false by done.
  eexists. split; [reflexivity |].
  cbn [DeepSeek.client_apiKey DeepSeek.client_baseUrl DeepSeek.client_model default].
  split; [done |]. split; [done |].
  by destruct (process_env !! js "DEEPSEEK_MODEL").
Qed.

(** A key between spaces and a blank model name: the client is made,
    with the trimmed key and the empty model name. *)
Example blank_model_name_is_kept :
  Config.loadDeepSeekConfig ServerScenario.environment = Ok ServerScenario.loaded /\
  DeepSeek.new_DeepSeekClient nat 1%nat (DeepSeek.options_of_config nat ServerScenario.loaded)
  = Ok {| DeepSeek.client_apiKey := js "sk-1";
          DeepSeek.client_model := [];
          DeepSeek.client_baseUrl := js "https://api.deepseek.com/v1";
          DeepSeek.client_temperature := 1%nat |}.
Proof. split; vm_compute; reflexivity. Qed.

(** X17.  When [complete] fulfils, the server answered the one request
    (a POST to [baseUrl/chat/completions] bearing the key) with a
    success status and a body whose first choice has a string as its
    message content; the text returned is that string trimmed, and it is
    not empty.  A blank or missing completion is never returned: it
    makes [complete] reject. *)
Theorem complete_returns_trimmed_text {W : Type} (number : Type)
    (fetch : DeepSeek.Request number -> W -> outcome DeepSeek.Response * W)
    (render_other : Json.value -> outcome jsstring)
    (client : DeepSeek.DeepSeekClient number) (messages : list ChatMessage) (w w' : W)
    (text : jsstring) :
  DeepSeek.complete number fetch render_other client messages w = (Ok text, w') ->
  text <> [] /\ trim text = text /\
  exists response payload content,
    fetch (DeepSeek.request_of number client messages) w = (Ok response, w') /\
    DeepSeek.response_ok response = true /\
    DeepSeek.response_json response = Ok payload /\
    DeepSeek.opt_get
      (DeepSeek.opt_get (DeepSeek.opt_first (Json.get payload (js "choices"))) (js "message"))
      (js "content") = Some (Json.JString content) /\
    text = trim content.
Proof.
  unfold DeepSeek.complete.
  destruct (fetch _ w) as [[response|e] w1] eqn:Hfetch; [| done].
  unfold DeepSeek.read_response.
  destruct (DeepSeek.response_ok response) eqn:Hok; cbn [negb].
  2: { by destruct (DeepSeek.response_text response). }
  destruct (DeepSeek.response_json response) as [payload|e] eqn:Hjson;
    cbn [mbind outcome_bind]; [| done].
  set (found := DeepSeek.opt_get
                  (DeepSeek.opt_get (DeepSeek.opt_first (Json.get payload (js "choices")))
                                    (js "message")) (js "content")).
  assert (Hchain : (message ← DeepSeek.opt_trim found;
                    match message with
                    | Some (c :: s) => Ok (c :: s)
                    | _ =>
                        details ← DeepSeek.render render_other
                                    (DeepSeek.nullish_or
                                       (DeepSeek.opt_get (Json.get payload (js "error"))
                                                         (js "message"))
                                       (Json.JString (js "Empty completion payload.")));
                        Throw (Error (js "DeepSeek response missing content: " ++ details))
                    end) = Ok text ->
                   text <> [] /\ trim text = text /\
                   exists content, found = Some (Json.JString content) /\ text = trim content).
  { destruct found as [[| | |content| |]|]; cbn [DeepSeek.opt_trim mbind outcome_bind];
      try done; try (by destruct (DeepSeek.render _ _)).
    destruct (trim content) as [|c s] eqn:Hc; [by destruct (DeepSeek.render _ _) |].
    intros [= <-]. split; [done |]. split; [by rewrite <- Hc, trim_idem |].
    by exists content. }
  destruct payload; try done;
    intros [= Htext <-]; destruct (Hchain Htext) as (H1 & H2 & content & H3 & H4);
    (split; [done |]); (split; [done |]); by eexists response, _, content.
Qed.

Lemma complete_returns_trimmed_text_witness :
  js "hi" <> [] /\ trim (js "hi") = js "hi".
Proof.
  pose proof (complete_returns_trimmed_text nat (ServerScenario.answering (js " hi "))
                ServerScenario.no_rendering ServerScenario.client [] tt tt (js "hi")
                ltac:(vm_compute; reflexivity)) as (H1 & H2 & _).
  split; [exact H1 | exact H2].
Defined.


(** ** Listing a directory *)
Section ListFacts.
Import Path PathSpec.

Lemma child_name_key (dir key name : jsstring) :
  Fs.child_name dir key = Some name ->
  key = (if bool_decide (dir = sep) then dir else dir ++ sep) ++ name /\
  name <> [] /\ SLASH ∉ name.
Proof.
  unfold Fs.child_name. cbv zeta.
  set (pre := if bool_decide (dir = sep) then dir else dir ++ sep).
  destruct (startsWith pre key) eqn:Hpre; cbn [andb]; [| done].
  apply startsWith_spec in Hpre as [r ->].
  rewrite drop_app_length.
  case_bool_decide as Hne; cbn [negb andb]; [done |].
  case_bool_decide as Hslash; cbn [negb]; [done |].
  by intros [= <-].
Qed.

Lemma readdir_entries (m : gmap (list N) Fs.entry) (dir : jsstring)
    (entries : list (jsstring * Fs.entry)) (name : jsstring) (e : Fs.entry) :
  Fs.readdir m dir = Ok entries -> (name, e) ∈ entries ->
  exists key, m !! key = Some e /\ Fs.child_name dir key = Some name.
Proof.
  unfold Fs.readdir. destruct (m !! dir) as [[text|]|]; [done | | done].
  intros [= <-] Hin. apply list_elem_of_omap in Hin as ([key e'] & Hkey & Hname).
  apply elem_of_map_to_list in Hkey. cbn [fst snd] in Hname.
  destruct (Fs.child_name dir key) as [n|] eqn:Hc; [| done].
  cbn [fmap option_fmap option_map] in Hname. injection Hname as <- <-.
  by exists key.
Qed.

Lemma components_segment (name : jsstring) :
  name <> [] -> SLASH ∉ name -> components name = [name].
Proof.
  intros Hne Hslash. unfold components. rewrite split_no_slash by done.
  by rewrite filter_cons_True.
Qed.

Lemma last_no_slash (a name : jsstring) :
  name <> [] -> SLASH ∉ name -> last (a ++ name) <> Some SLASH.
Proof.
  intros Hne Hslash. destruct (exists_last Hne) as (n0 & c & ->).
  rewrite app_assoc, last_snoc. intros [= ->]. apply Hslash.
  apply elem_of_app. right. by left.
Qed.

(** Joining a normalized directory and the name of a child gives the
    path of the child. *)
Lemma join2_child (rs : list jsstring) (name : jsstring) :
  Forall proper_segment rs -> proper_segment name ->
  join2 (sep ++ join sep rs) name
  = (if bool_decide (sep ++ join sep rs = sep) then sep ++ join sep rs
     else (sep ++ join sep rs) ++ sep) ++ name.
Proof.
  intros Hrs Hname. pose proof Hname as (Hne & _ & _ & Hslash).
  unfold join2. cbv zeta.
  rewrite filter_cons_True by done. rewrite filter_cons_True by done.
  rewrite filter_nil.
  change (join sep [sep ++ join sep rs; name]) with ((sep ++ join sep rs) ++ sep ++ name).
  rewrite bool_decide_false by done.
  unfold normalize. change ((sep ++ join sep rs) ++ sep ++ name)
    with (SLASH :: (join sep rs ++ sep ++ name)). cbv iota beta.
  change (isAbsolute (SLASH :: join sep rs ++ sep ++ name)) with true.
  cbv zeta.
  rewrite (bool_decide_false (last _ = _)).
  2: { rewrite (app_assoc (join sep rs) sep name), app_comm_cons.
       by apply last_no_slash. }
  cbn [negb].
  rewrite normalizeString_components.
  change (SLASH :: join sep rs ++ sep ++ name) with ((sep ++ join sep rs) ++ sep ++ name).
  rewrite components_app_sep, components_normal, components_segment by done.
  rewrite normalizeSegments_proper_id
    by (apply Forall_app; split; [done | by constructor]).
  cbn [rev app].
  destruct rs as [|r rs].
  - cbn [app join]. rewrite bool_decide_false by done.
    rewrite bool_decide_true by done. reflexivity.
  - rewrite bool_decide_false by (by destruct r, rs).
    rewrite join_app by done.
    assert (Hr : sep ++ join sep (r :: rs) <> sep).
    { inversion Hrs as [|? ? (Hr0 & _) _]; subst. destruct r; [done |].
      by destruct rs. }
    rewrite (bool_decide_false _ Hr). cbn [join]. by rewrite <- !app_assoc.
Qed.

Lemma resolveRepoPath_blank (pcwd input : jsstring) (ctx : ToolExecutionContext) :
  trim input = [] -> resolveRepoPath pcwd (js ".") ctx = resolveRepoPath pcwd input ctx.
Proof.
  intros H.
  assert (E : (if bool_decide (length (trim input) <> O) then trim input else js ".")
              = (if bool_decide (length (trim (js ".")) <> O) then trim (js ".")
                 else js ".")) by (rewrite H; reflexivity).
  unfold resolveRepoPath. cbv zeta. by rewrite E.
Qed.

End ListFacts.

(** X19.  Once the directory its input names has been listed,
    [list_files] fulfils and changes nothing: it returns one line for
    each entry, in the order of the listing, and the line of an entry
    is decided by [stat] on the path of that entry in the directory:
    the name, the name followed by a separator for a directory, or the
    name with the message of the error when [stat] fails.  No entry
    makes the tool reject.  (The working directory of the process is
    absolute, and no entry is called [.] or [..].) *)
Theorem list_files_marks_directories (pcwd input : jsstring) (ctx : ToolExecutionContext)
    (m : gmap (list N) Fs.entry) (target : jsstring)
    (entries : list (jsstring * Fs.entry)) :
  Path.isAbsolute pcwd = true ->
  resolveRepoPath pcwd input ctx = Ok target ->
  Fs.readdir m target = Ok entries ->
  ListSpec.proper_names entries ->
  exists lines,
    execute (createListFilesTool pcwd) input ctx m = (Ok (join (js nl) lines), m) /\
    Forall2 (fun e line => ListSpec.line_for m target (fst e) line) entries lines.
Proof.
  intros Habs Hres Hdir Hproper.
  cbn [execute createListFilesTool]. cbv zeta.
  assert (Hres' : resolveRepoPath pcwd
                    (if bool_decide (trim input = []) then js "." else trim input) ctx
                  = Ok target).
  { case_bool_decide as Hblank.
    - by rewrite (resolveRepoPath_blank pcwd input ctx Hblank).
    - by rewrite resolveRepoPath_trim. }
  rewrite Hres', Hdir.
  assert (Hnormal : exists rs, target = Path.sep ++ join Path.sep rs
                               /\ Forall PathSpec.proper_segment rs).
  { destruct (resolveRepoPath_returns pcwd input ctx target Hres) as [-> _].
    apply resolve_normal, Habs. }
  destruct Hnormal as (rs & -> & Hrs).
  assert (Hall : forall l, (forall e, e ∈ l -> e ∈ entries) ->
            exists lines,
              all_settled
                (map (fun e => formatDirEntry m (Path.sep ++ join Path.sep rs) (fst e)) l)
              = Ok lines /\
              Forall2 (fun e line =>
                         ListSpec.line_for m (Path.sep ++ join Path.sep rs) (fst e) line)
                      l lines).
  { induction l as [|[name e] l IH]; intros Hl; cbn [map all_settled].
    { exists []. by split; [| constructor]. }
    destruct IH as (lines & Hlines & Hfor); [intros e' He'; apply Hl; by right |].
    assert (Hin : (name, e) ∈ entries) by (apply Hl; by left).
    destruct (readdir_entries m _ entries name e Hdir Hin) as (key & Hkey & Hchild).
    apply child_name_key in Hchild as (_ & Hne & Hslash).
    unfold ListSpec.proper_names in Hproper. rewrite Forall_forall in Hproper.
    destruct (Hproper _ Hin) as [Hdot Hdotdot]. cbn [fst] in Hdot, Hdotdot.
    cbn [fst]. rewrite Hlines. unfold formatDirEntry.
    rewrite join2_child by done.
    fold (ListSpec.child_path (Path.sep ++ join Path.sep rs) name).
    destruct (Fs.stat m (ListSpec.child_path (Path.sep ++ join Path.sep rs) name))
      as [st|error] eqn:Hstat; cbn [mbind outcome_bind].
    - eexists. split; [reflexivity |]. constructor; [| done]. cbn [fst].
      destruct (Fs.isDirectory st) eqn:Hkind;
        [by apply (ListSpec.line_directory _ _ _ st) | by apply (ListSpec.line_plain _ _ _ st)].
    - assert (Hmessage : exists message, message_of error = Ok message).
      { unfold Fs.stat in Hstat.
        destruct (m !! ListSpec.child_path (Path.sep ++ join Path.sep rs) name)
          as [[text|]|]; [done | done |].
        injection Hstat as <-. by eexists. }
      destruct Hmessage as [message Hmessage]. rewrite Hmessage. cbn [mbind outcome_bind].
      eexists. split; [reflexivity |]. constructor; [| done]. cbn [fst].
      by apply (ListSpec.line_error _ _ _ error message). }
  destruct (Hall entries ltac:(done)) as (lines & -> & Hfor).
  by exists lines.
Qed.

Lemma list_files_marks_directories_witness :
  exists lines,
    execute (createListFilesTool (js "/")) (js "") Scenario.repo Scenario.tree
    = (Ok (join (js nl) lines), Scenario.tree) /\
    Forall2 (fun e line => ListSpec.line_for Scenario.tree (js "/repo") (fst e) line)
      [(js "a.txt", Fs.File (js ("alpha" ++ nl ++ "beta")));
       (js "node_modules", Fs.Dir); (js "src", Fs.Dir)]
      lines.
Proof.
  apply (list_files_marks_directories (js "/") (js "") Scenario.repo Scenario.tree
           (js "/repo")).
  - reflexivity.
  - vm_compute. reflexivity.
  - vm_compute. reflexivity.
  - repeat constructor; vm_compute; discriminate.
Defined.
